(** * agstools.feature_importer: a shallow embedding of [FeatureImporter]

    The development follows [src/agstools/feature_importer.py].  Python
    dictionaries are finite maps ([gmap]), lists are lists, exceptions are an
    explicit outcome type, and the calls on the two feature layers are calls on
    an abstract remote world that are also written to an event log, so that
    the order and the arguments of the remote calls can be stated. *)

From Stdlib Require Import Ascii.
From stdpp Require Import gmap strings list fin_maps sorting pretty.

Set Warnings "-clear-no-such-hyp".

(** ** Python values and exceptions *)

(** Attribute values of a JSON feature: null, integers and strings.  All of
    them are hashable, so every one of them can be a dictionary key. *)
Inductive value : Type :=
  | VNone
  | VInt (z : Z)
  | VStr (s : string).

Global Instance value_eq_dec : EqDecision value.
Proof. solve_decision. Defined.

Definition value_to_sum (v : value) : unit + (Z + string) :=
  match v with
  | VNone => inl tt
  | VInt z => inr (inl z)
  | VStr s => inr (inr s)
  end.

Definition value_of_sum (x : unit + (Z + string)) : value :=
  match x with
  | inl _ => VNone
  | inr (inl z) => VInt z
  | inr (inr s) => VStr s
  end.

Global Instance value_countable : Countable value.
Proof.
  apply (inj_countable' value_to_sum value_of_sum).
  by intros [].
Defined.

(** [str(o)] on an attribute value. *)
Definition py_str (v : value) : string :=
  match v with
  | VNone => "None"
  | VInt z => pretty z
  | VStr s => s
  end.

(** The exceptions that can cross [FeatureImporter]: a failed subscript and
    whatever a feature layer call raises. *)
Inductive exn : Type :=
  | KeyError (key : string)
  | RemoteError (msg : string).

Inductive outcome (A : Type) : Type :=
  | Ok (a : A)
  | Raise (e : exn).
Global Arguments Ok {A} a.
Global Arguments Raise {A} e.

Global Instance outcome_ret : MRet outcome := λ A a, Ok a.
Global Instance outcome_bind : MBind outcome := λ A B k m,
  match m with
  | Ok a => k a
  | Raise e => Raise e
  end.

(** [d[k]] on a dictionary with string keys. *)
Definition getitem {V : Type} (d : gmap string V) (k : string) : outcome V :=
  match d !! k with
  | Some v => Ok v
  | None => Raise (KeyError k)
  end.

(** [sep.join(l)] *)
Fixpoint join (sep : string) (l : list string) : string :=
  match l with
  | [] => ""
  | [x] => x
  | x :: l' => x +:+ sep +:+ join sep l'
  end.

(** ** Features and layer definitions *)

(** A feature as the REST interface returns it; this module only reads and
    rewrites the ['attributes'] member. *)
Record feature : Type := Feature { attributes : gmap string value }.

(** One entry of [definition()['fields']]; only ['name'] is read. *)
Record field_info : Type := FieldInfo { name : string }.

(** The members of [definition()] that are read. *)
Record layer_definition : Type := LayerDefinition {
  fields : list field_info;
  objectIdField : string
}.

(** ** Collaborators that are imported from other modules *)

(** Modelled from the spec: [agstools.attribute_mapper.AttributeMapper] is not
    part of the sources at hand.  Section 4.1 describes it as a map from source
    field name to target field name, created empty, with [add_mapping]
    inserting or overwriting one entry without validation. *)
Record AttributeMapper : Type := MkAttributeMapper {
  attribute_map : gmap string string
}.

Definition AttributeMapper_new : AttributeMapper := MkAttributeMapper ∅.

Definition add_mapping (source_field target_field : string)
    (m : AttributeMapper) : AttributeMapper :=
  MkAttributeMapper (<[source_field := target_field]> (attribute_map m)).

(** Modelled from the spec: [agstools.utility.merge_dicts] is not part of the
    sources at hand.  Section 4.1: the result holds [B[k]] if [k] is in [B],
    else [A[k]], for [k] in the keys of [A] or [B].  The union of stdpp maps
    prefers its left operand. *)
Definition merge_dicts (A B : gmap string string) : gmap string string :=
  B ∪ A.

(** Modelled from the spec: [agstools.feature_processor.FeatureProcessor] is
    not part of the sources at hand.  Section 4.2: [replace_attributes] renames
    the attribute keys of every record by the name map and drops the keys the
    map does not mention; [remove_attributes] deletes the listed names where
    present; both keep the order of the records. *)
Definition rename_attributes (name_map : gmap string string)
    (a : gmap string value) : gmap string value :=
  foldr (λ kv acc,
           match name_map !! kv.1 with
           | Some k' => <[k' := kv.2]> acc
           | None => acc
           end) ∅ (map_to_list a).

Definition replace_attributes (name_map : gmap string string)
    (fs : list feature) : list feature :=
  (λ f, Feature (rename_attributes name_map (attributes f))) <$> fs.

Definition remove_attributes (names : list string)
    (fs : list feature) : list feature :=
  (λ f, Feature (foldr delete (attributes f) names)) <$> fs.

(** ** [sorted(attr_map.items())] *)

(** Tuples of strings compare lexicographically, strings by code point (the
    byte order of their UTF-8 form). *)
Definition item_le (p q : string * string) : Prop :=
  if decide (p.1 = q.1) then String.le p.2 q.2 else String.le p.1 q.1.

Global Instance item_le_dec : RelDecision item_le.
Proof. intros p q. unfold item_le. destruct (decide (p.1 = q.1)); apply _. Defined.

Definition sorted_items (m : gmap string string) : list (string * string) :=
  merge_sort item_le (map_to_list m).

(** ** The feature layers *)

(** The methods of [FeatureLayer] that are called, over an abstract layer
    handle [L] and an abstract remote world [W].  Every call can raise and can
    change the world. *)
Class FeatureLayer (L W : Type) : Type := {
  definition : L → W → outcome layer_definition * W;
  query_features_batch : L → string → string → W → outcome (list feature) * W;
  add_features_batch : L → list feature → W → outcome unit * W;
  delete_features : L → string → W → outcome unit * W
}.

(** One remote call, with its arguments and what it returned or raised. *)
Inductive event (L : Type) : Type :=
  | EDefinition (l : L) (r : outcome layer_definition)
  | EQuery (l : L) (where_ outFields : string) (r : outcome (list feature))
  | EAddFeatures (l : L) (features : list feature) (r : outcome unit)
  | EDeleteFeatures (l : L) (objectIds : string) (r : outcome unit).
Global Arguments EDefinition {L} l r.
Global Arguments EQuery {L} l where_ outFields r.
Global Arguments EAddFeatures {L} l features r.
Global Arguments EDeleteFeatures {L} l objectIds r.

Definition is_delete {L : Type} (e : event L) : bool :=
  match e with EDeleteFeatures _ _ _ => true | _ => false end.

Definition is_add {L : Type} (e : event L) : bool :=
  match e with EAddFeatures _ _ _ => true | _ => false end.

Definition is_query {L : Type} (e : event L) : bool :=
  match e with EQuery _ _ _ _ => true | _ => false end.

(** ** Computations: state, exceptions and the log of remote calls *)

(** A computation over a state [S] returns or raises, leaves a state behind
    in both cases, and emits the remote calls it made, oldest first. *)
Definition M (L S A : Type) : Type := S → outcome A * S * list (event L).

Global Instance M_ret {L S} : MRet (M L S) := λ A a s, (Ok a, s, []).
Global Instance M_bind {L S} : MBind (M L S) := λ A B k m s,
  match m s with
  | (Ok a, s1, t1) => let '(r, s2, t2) := k a s1 in (r, s2, t1 ++ t2)
  | (Raise e, s1, t1) => (Raise e, s1, t1)
  end.

Definition lift_outcome {L S A} (o : outcome A) : M L S A :=
  λ s, (o, s, []).

(** ** The comparison results *)

Record side_comp : Type := SideComp {
  index : gmap value value;
  matched : list feature;
  unmatched : list feature
}.

Record comp : Type := Comp { src : side_comp; tgt : side_comp }.

(** [{'src': {'index': {}, 'matched': [], 'unmatched': []}, 'tgt': {...}}] *)
Definition empty_comp : comp :=
  Comp (SideComp ∅ [] []) (SideComp ∅ [] []).

Definition set_index (i : gmap value value) (c : side_comp) : side_comp :=
  SideComp i (matched c) (unmatched c).
Definition set_matched (m : list feature) (c : side_comp) : side_comp :=
  SideComp (index c) m (unmatched c).
Definition set_unmatched (u : list feature) (c : side_comp) : side_comp :=
  SideComp (index c) (matched c) u.
Definition on_src (f : side_comp → side_comp) (c : comp) : comp :=
  Comp (f (src c)) (tgt c).
Definition on_tgt (f : side_comp → side_comp) (c : comp) : comp :=
  Comp (src c) (f (tgt c)).

(** [{f['attributes'][uid]: f['attributes'][oid] for f in features}]: the
    features are visited in order and a later feature overwrites the entry of
    an earlier one with the same key.  The key is read before the value, so
    a feature that lacks both fields raises the [KeyError] of the uid
    field. *)
Fixpoint build_index (uid oid : string) (fs : list feature)
    (acc : gmap value value) : outcome (gmap value value) :=
  match fs with
  | [] => Ok acc
  | f :: fs' =>
      k ← getitem (attributes f) uid;
      v ← getitem (attributes f) oid;
      build_index uid oid fs' (<[k := v]> acc)
  end.

(** [k in d] *)
Definition contains (d : gmap value value) (k : value) : bool :=
  bool_decide (is_Some (d !! k)).

(** [[f for f in features if f['attributes'][uid] in idx]], and with
    [not in] when [member] is [false]. *)
Fixpoint select (uid : string) (member : bool) (idx : gmap value value)
    (fs : list feature) : outcome (list feature) :=
  match fs with
  | [] => Ok []
  | f :: fs' =>
      u ← getitem (attributes f) uid;
      rest ← select uid member idx fs';
      Ok (if bool_decide (contains idx u = member) then f :: rest else rest)
  end.

(** [[f['attributes'][oid] for f in features]] *)
Fixpoint oids_of (oid : string) (fs : list feature) : outcome (list value) :=
  match fs with
  | [] => Ok []
  | f :: fs' =>
      o ← getitem (attributes f) oid;
      rest ← oids_of oid fs';
      Ok (o :: rest)
  end.

(** The argument of the constructor's [custom_attr_mapper] parameter, by
    what [isinstance] can tell apart. *)
Inductive pyobj : Type :=
  | PyNone
  | PyDict (d : gmap string string)
  | PyAttributeMapper (m : AttributeMapper)
  | PyOther (repr : string).

Definition isinstance_AttributeMapper (o : pyobj) : bool :=
  match o with PyAttributeMapper _ => true | _ => false end.

Section importer.
Context {L W : Type} `{!FeatureLayer L W}.

Record FeatureImporter : Type := MkFeatureImporter {
  src_feat_layer : L;
  tgt_feat_layer : L;
  cust_attr_mapper : AttributeMapper;
  auto_attr_mapper : AttributeMapper;
  comp_features : comp
}.

Definition set_comp_features (c : comp) (self : FeatureImporter)
    : FeatureImporter :=
  MkFeatureImporter (src_feat_layer self) (tgt_feat_layer self)
    (cust_attr_mapper self) (auto_attr_mapper self) c.

(** *** Remote calls, logged *)

Definition call_definition (l : L) : M L W layer_definition := λ w,
  let '(r, w') := definition l w in (r, w', [EDefinition l r]).

Definition call_query_features_batch (l : L) (where_ outFields : string)
    : M L W (list feature) := λ w,
  let '(r, w') := query_features_batch l where_ outFields w in
  (r, w', [EQuery l where_ outFields r]).

Definition call_add_features_batch (l : L) (features : list feature)
    : M L W unit := λ w,
  let '(r, w') := add_features_batch l features w in
  (r, w', [EAddFeatures l features r]).

Definition call_delete_features (l : L) (objectIds : string)
    : M L W unit := λ w,
  let '(r, w') := delete_features l objectIds w in
  (r, w', [EDeleteFeatures l objectIds r]).

(** A method runs on the instance and the world. *)
Definition remote {A} (m : M L W A) : M L (FeatureImporter * W) A :=
  λ '(self, w), let '(r, w', t) := m w in (r, (self, w'), t).

Definition get_self : M L (FeatureImporter * W) FeatureImporter :=
  λ '(self, w), (Ok self, (self, w), []).

Definition modify_comp (f : comp → comp) : M L (FeatureImporter * W) unit :=
  λ '(self, w),
    (Ok tt, (set_comp_features (f (comp_features self)) self, w), []).

(** *** The methods *)

(** [__build_auto_attr_mapper], run while the instance is being built: it
    reads the two layers only. *)
Definition __build_auto_attr_mapper (src_layer tgt_layer : L)
    : M L W AttributeMapper :=
  let auto_mapper := AttributeMapper_new in
  sd ← call_definition src_layer;
  let src_fields := name <$> fields sd in
  td ← call_definition tgt_layer;
  let tgt_fields := name <$> fields td in
  let common : gset string := list_to_set src_fields ∩ list_to_set tgt_fields in
  mret (foldl (λ m f_name, add_mapping f_name f_name m)
              auto_mapper (elements common)).

Definition __init__ (src_layer tgt_layer : L) (custom_attr_mapper : pyobj)
    : M L W FeatureImporter :=
  let cust :=
    match custom_attr_mapper with
    | PyAttributeMapper m => m
    | _ => AttributeMapper_new
    end in
  auto ← __build_auto_attr_mapper src_layer tgt_layer;
  mret (MkFeatureImporter src_layer tgt_layer cust auto empty_comp).

Definition __reset_comp_features : M L (FeatureImporter * W) unit :=
  modify_comp (λ _, empty_comp).

Definition __get_attr_map : M L (FeatureImporter * W) (gmap string string) :=
  self ← get_self;
  mret (merge_dicts (attribute_map (auto_attr_mapper self))
                    (attribute_map (cust_attr_mapper self))).

Definition __comp_features (src_uid_field tgt_uid_field : string)
    : M L (FeatureImporter * W) unit :=
  __reset_comp_features;;
  attr_map ← __get_attr_map;
  self ← get_self;
  sd ← remote (call_definition (src_feat_layer self));
  let src_oid_field := objectIdField sd in
  td ← remote (call_definition (tgt_feat_layer self));
  let tgt_oid_field := objectIdField td in
  let src_attr := (sorted_items attr_map).*1 in
  let tgt_attr := (sorted_items attr_map).*2 in
  src_features ← remote (call_query_features_batch (src_feat_layer self)
                           "1=1" (join ", " src_attr));
  tgt_features ← remote (call_query_features_batch (tgt_feat_layer self)
                           "1=1" (join ", " tgt_attr));
  si ← lift_outcome (build_index src_uid_field src_oid_field src_features ∅);
  modify_comp (on_src (set_index si));;
  ti ← lift_outcome (build_index tgt_uid_field tgt_oid_field tgt_features ∅);
  modify_comp (on_tgt (set_index ti));;
  self ← get_self;
  sm ← lift_outcome (select src_uid_field true
                       (index (tgt (comp_features self))) src_features);
  modify_comp (on_src (set_matched sm));;
  self ← get_self;
  su ← lift_outcome (select src_uid_field false
                       (index (tgt (comp_features self))) src_features);
  modify_comp (on_src (set_unmatched su));;
  self ← get_self;
  tm ← lift_outcome (select tgt_uid_field true
                       (index (src (comp_features self))) tgt_features);
  modify_comp (on_tgt (set_matched tm));;
  self ← get_self;
  tu ← lift_outcome (select tgt_uid_field false
                       (index (src (comp_features self))) tgt_features);
  modify_comp (on_tgt (set_unmatched tu)).

(** [import_features].  The two [deepcopy] calls copy lists that are values
    here, and the [logger.debug] calls have no effect on the instance or on
    the layers; neither appears below. *)
Definition import_features (src_uid_field tgt_uid_field : string)
    : M L (FeatureImporter * W) unit :=
  __comp_features src_uid_field tgt_uid_field;;
  attr_map ← __get_attr_map;
  self ← get_self;
  sd ← remote (call_definition (src_feat_layer self));
  let src_oid_field := objectIdField sd in
  td ← remote (call_definition (tgt_feat_layer self));
  let tgt_oid_field := objectIdField td in
  let add_features := unmatched (src (comp_features self)) in
  let old_features := matched (src (comp_features self)) in
  (if 0 <? length add_features then
     add_oids ← lift_outcome (oids_of src_oid_field add_features);
     let add_oids_str := join ", " (py_str <$> add_oids) in
     let renamed := replace_attributes attr_map add_features in
     let stripped := remove_attributes [src_oid_field] renamed in
     remote (call_add_features_batch (tgt_feat_layer self) stripped);;
     remote (call_delete_features (src_feat_layer self) add_oids_str)
   else mret tt : M L (FeatureImporter * W) unit);;
  (if 0 <? length old_features then
     old_oids ← lift_outcome (oids_of src_oid_field old_features);
     let old_oids_str := join ", " (py_str <$> old_oids) in
     remote (call_delete_features (src_feat_layer self) old_oids_str)
   else mret tt : M L (FeatureImporter * W) unit).

End importer.

Global Arguments FeatureImporter : clear implicits.

(** ** An in-memory feature service *)

(** Modelled from the spec: the feature layer class and the service behind it
    are not part of the sources at hand.  Section 6 gives the contract: a
    schema with an id field and field names; a query for all records, limited
    to the requested fields, every record carrying its internal id; a batch
    insert that assigns fresh internal ids and fails as a whole; a delete by
    internal ids.  Section 4.3 adds that a query for a field outside the schema
    fails.  The field list and the id list arrive as comma separated text. *)
Module Service.

Inductive side : Type := Source | Target.

Record store : Type := Store {
  oid_field : string;
  field_names : list string;
  rows : list (Z * gmap string value);
  next_oid : Z
}.

Record world : Type := World { source : store; target : store }.

Definition layer (l : side) (w : world) : store :=
  match l with Source => source w | Target => target w end.

Definition set_layer (l : side) (st : store) (w : world) : world :=
  match l with
  | Source => World st (target w)
  | Target => World (source w) st
  end.

Fixpoint split_comma (s : string) : list string :=
  match s with
  | EmptyString => [EmptyString]
  | String c s' =>
      if Ascii.eqb c ","%char then EmptyString :: split_comma s'
      else match split_comma s' with
           | [] => [String c EmptyString]
           | t :: ts => String c t :: ts
           end
  end.

Fixpoint lstrip (s : string) : string :=
  match s with
  | String c s' => if Ascii.eqb c " "%char then lstrip s' else s
  | EmptyString => EmptyString
  end.

(** Every character of the string passes the test. *)
Fixpoint all_chars (P : ascii → bool) (s : string) : bool :=
  match s with
  | EmptyString => true
  | String c s' => P c && all_chars P s'
  end.

Definition field_char (c : ascii) : bool :=
  negb (Ascii.eqb c ","%char) && negb (Ascii.eqb c " "%char).

(** A list entry that survives the trip through a comma separated list. *)
Definition clean (s : string) : Prop :=
  s ≠ EmptyString ∧ all_chars field_char s = true.

(** The entries of a comma separated list, blanks after a comma skipped. *)
Definition tokens (s : string) : list string :=
  filter (λ t, t ≠ EmptyString) (lstrip <$> split_comma s).

Definition row_feature (st : store) (wanted : list string)
    (r : Z * gmap string value) : feature :=
  Feature (<[oid_field st := VInt r.1]> (filter (λ kv, kv.1 ∈ wanted) r.2)).

Definition store_query (outFields : string) (st : store)
    : outcome (list feature) :=
  let wanted := tokens outFields in
  if bool_decide (wanted ⊆ field_names st)
  then Ok (row_feature st wanted <$> rows st)
  else Raise (RemoteError "unknown field").

Definition accepts (st : store) (f : feature) : bool :=
  bool_decide (elements (dom (attributes f)) ⊆ field_names st).

(** The first internal id an insert assigns: not below the counter of the
    store and above every internal id in use. *)
Definition fresh_oid (st : store) : Z :=
  foldr (λ r z, Z.max (r.1 + 1) z) (next_oid st) (rows st).

Definition new_rows (st : store) (fs : list feature)
    : list (Z * gmap string value) :=
  imap (λ i f, ((fresh_oid st + Z.of_nat i)%Z,
                delete (oid_field st) (attributes f))) fs.

Definition store_insert (fs : list feature) (st : store)
    : outcome unit * store :=
  if forallb (accepts st) fs
  then (Ok tt, Store (oid_field st) (field_names st)
                 (rows st ++ new_rows st fs)
                 (fresh_oid st + Z.of_nat (length fs))%Z)
  else (Raise (RemoteError "rejected feature"), st).

Definition store_delete (objectIds : string) (st : store) : store :=
  Store (oid_field st) (field_names st)
    (filter (λ r, pretty r.1 ∉ tokens objectIds) (rows st))
    (next_oid st).

Global Instance service_layer : FeatureLayer side world := {|
  definition l w :=
    (Ok (LayerDefinition (FieldInfo <$> field_names (layer l w))
                         (oid_field (layer l w))), w);
  query_features_batch l where_ outFields w :=
    (store_query outFields (layer l w), w);
  add_features_batch l fs w :=
    let '(r, st) := store_insert fs (layer l w) in (r, set_layer l st w);
  delete_features l objectIds w :=
    (Ok tt, set_layer l (store_delete objectIds (layer l w)) w)
|}.

End Service.

(** The uid value of a feature decides on which side of a comparison it
    falls. *)
Definition classified (uid : string) (member : bool) (idx : gmap value value)
    (f : feature) : Prop :=
  contains idx <$> attributes f !! uid = Some member.

Global Instance classified_dec uid member idx f :
  Decision (classified uid member idx f).
Proof. unfold classified. apply _. Defined.

(** What one comparison computes from the two fetched record lists: the
    assignments of [__comp_features] after the queries, as one function. *)
Definition compare_records (src_uid_field tgt_uid_field : string)
    (src_oid_field tgt_oid_field : string) (src_features tgt_features : list feature)
    : outcome comp :=
  si ← build_index src_uid_field src_oid_field src_features ∅;
  ti ← build_index tgt_uid_field tgt_oid_field tgt_features ∅;
  sm ← select src_uid_field true ti src_features;
  su ← select src_uid_field false ti src_features;
  tm ← select tgt_uid_field true si tgt_features;
  tu ← select tgt_uid_field false si tgt_features;
  Ok (Comp (SideComp si sm su) (SideComp ti tm tu)).

(** [m] and [u] split [l]: together they hold the elements of [l] with their
    multiplicities, and no element is in both. *)
Definition splits {A : Type} (l m u : list A) : Prop :=
  m ++ u ≡ₚ l
  ∧ length m + length u = length l
  ∧ (∀ x, x ∈ l → (x ∈ m ∧ x ∉ u) ∨ ((x ∉ m) ∧ x ∈ u))
  ∧ (∀ x, ¬ (x ∈ m ∧ x ∈ u)).

(** The internal id the index of one side holds for a uid value: that of the
    last fetched record with this uid value. *)
Definition last_oid (uid oid : string) (fs : list feature) (u : value)
    : option value :=
  last (filter (λ f, attributes f !! uid = Some u) fs)
    ≫= (λ f, attributes f !! oid).

(** The mapper [__build_auto_attr_mapper] returns for two layer
    definitions. *)
Definition auto_mapper_of (sd td : layer_definition) : AttributeMapper :=
  foldl (λ m f_name, add_mapping f_name f_name m) AttributeMapper_new
    (elements (list_to_set (name <$> fields sd) ∩ list_to_set (name <$> fields td)
               : gset string)).

(** The mapper the constructor keeps for its [custom_attr_mapper] argument. *)
Definition custom_mapper_of (o : pyobj) : AttributeMapper :=
  match o with
  | PyAttributeMapper m => m
  | _ => AttributeMapper_new
  end.

(** ** Example data *)

Module Example.
Import Service.

Definition record (uid : Z) (label : string) : gmap string value :=
  {[ "uid" := VInt uid; "name" := VStr label ]}.

(** The scenario of section 8: records 1 and 2 in the source, record 2 in the
    target. *)
Definition w0 : world :=
  World (Store "OBJECTID" ["OBJECTID"; "uid"; "name"]
           [(1%Z, record 1 "A"); (2%Z, record 2 "B")] 3)
        (Store "OBJECTID" ["OBJECTID"; "uid"; "name"]
           [(7%Z, record 2 "B")] 8).

(** A custom mapper that names fields neither layer has. *)
Definition ghost_mapper : AttributeMapper :=
  add_mapping "ghost" "phantom" AttributeMapper_new.

(** The same records, the source naming its internal id [FID]. *)
Definition w_fid : world :=
  World (Store "FID" ["FID"; "uid"; "name"]
           [(1%Z, record 1 "A"); (2%Z, record 2 "B")] 3)
        (target w0).

(** The instance the constructor builds on [w_fid] without a custom mapper. *)
Definition importer_fid : FeatureImporter side :=
  MkFeatureImporter Source Target AttributeMapper_new
    (add_mapping "name" "name" (add_mapping "uid" "uid" AttributeMapper_new))
    empty_comp.

Definition def0 : layer_definition :=
  LayerDefinition (FieldInfo <$> ["OBJECTID"; "uid"; "name"]) "OBJECTID".

(** The instance the constructor builds on [w0] without a custom mapper. *)
Definition importer0 : FeatureImporter side :=
  MkFeatureImporter Source Target AttributeMapper_new
    (auto_mapper_of def0 def0) empty_comp.

(** Two source records with one uid value that the target does not have. *)
Definition w_dup : world :=
  World (Store "OBJECTID" ["OBJECTID"; "uid"; "name"]
           [(1%Z, record 5 "A"); (2%Z, record 5 "B")] 3)
        (target w0).

(** The runs on the example data, evaluated. *)
Definition compared0 : outcome unit * (FeatureImporter side * world)
                       * list (event side) :=
  Eval vm_compute in __comp_features "uid" "uid" (importer0, w0).

Definition compared_dup : outcome unit * (FeatureImporter side * world)
                          * list (event side) :=
  Eval vm_compute in __comp_features "uid" "uid" (importer0, w_dup).

Definition compared_fid : outcome unit * (FeatureImporter side * world)
                          * list (event side) :=
  Eval vm_compute in __comp_features "uid" "uid" (importer_fid, w_fid).

Definition imported0 : outcome unit * (FeatureImporter side * world)
                       * list (event side) :=
  Eval vm_compute in import_features "uid" "uid" (importer0, w0).

Definition imported1 : outcome unit * (FeatureImporter side * world)
                       * list (event side) :=
  Eval vm_compute in import_features "uid" "uid" imported0.1.2.

(** A service whose layers cannot be edited: reads go through, an insert
    raises and changes nothing. *)
Inductive frozen : Type := Frozen (w : world).

Definition thaw (f : frozen) : world := match f with Frozen w => w end.

#[export] Instance frozen_layer : FeatureLayer side frozen := {|
  definition l f := ((definition l (thaw f)).1, f);
  query_features_batch l where_ outFields f :=
    ((query_features_batch l where_ outFields (thaw f)).1, f);
  add_features_batch l fs f := (Raise (RemoteError "editing is disabled"), f);
  delete_features l objectIds f :=
    (Raise (RemoteError "editing is disabled"), f)
|}.

Definition imported_frozen : outcome unit * (FeatureImporter side * frozen)
                             * list (event side) :=
  Eval vm_compute in import_features "uid" "uid" (importer0, Frozen w0).

(** A service that cannot be reached: every call raises. *)
Inductive offline : Type := Offline.

#[export] Instance offline_layer : FeatureLayer side offline := {|
  definition l f := (Raise (RemoteError "unreachable"), f);
  query_features_batch l where_ outFields f :=
    (Raise (RemoteError "unreachable"), f);
  add_features_batch l fs f := (Raise (RemoteError "unreachable"), f);
  delete_features l objectIds f := (Raise (RemoteError "unreachable"), f)
|}.

(** A source record without the uid attribute. *)
Definition w_nouid : world :=
  World (Store "OBJECTID" ["OBJECTID"; "uid"; "name"]
           [(1%Z, {[ "name" := VStr "A" ]})] 2)
        (target w0).

(** A target record without the uid attribute. *)
Definition w_tnouid : world :=
  World (source w0)
        (Store "OBJECTID" ["OBJECTID"; "uid"; "name"]
           [(7%Z, {[ "name" := VStr "B" ]})] 8).

(** No record in the source. *)
Definition w_empty : world :=
  World (Store "OBJECTID" ["OBJECTID"; "uid"; "name"] [] 1) (target w0).

(** Two layers without a common field name. *)
Definition w_disjoint : world :=
  World (Store "FID" ["FID"; "code"] [] 1)
        (Store "OBJECTID" ["OBJECTID"; "label"] [] 1).

(** The records the queries return on the example worlds. *)
Definition fetched (oid : Z) (uid : Z) (label : string) : feature :=
  Feature {[ "OBJECTID" := VInt oid; "uid" := VInt uid; "name" := VStr label ]}.

Definition fetched_nouid (oid : Z) (label : string) : feature :=
  Feature {[ "OBJECTID" := VInt oid; "name" := VStr label ]}.

Definition imported_empty : outcome unit * (FeatureImporter side * world)
                            * list (event side) :=
  Eval vm_compute in import_features "uid" "uid" (importer0, w_empty).

End Example.

(** An event that reads a layer: a definition or a query. *)
Definition is_read {L : Type} (e : event L) : Prop :=
  is_add e = false ∧ is_delete e = false.

(** The records [import_features] hands to [add_features_batch]: renamed by
    the attribute map, then without the source internal-id field. *)
Definition insert_payload (attr_map : gmap string string)
    (src_oid_field : string) (add_features : list feature) : list feature :=
  remove_attributes [src_oid_field] (replace_attributes attr_map add_features).

(** The layer, the filter and the field list of a query call. *)
Definition query_args {L : Type} (e : event L) : option (L * string * string) :=
  match e with
  | EQuery l where_ outFields _ => Some (l, where_, outFields)
  | _ => None
  end.

(** The exception a layer call raised, if it raised. *)
Definition event_exn {L : Type} (e : event L) : option exn :=
  match e with
  | EDefinition _ (Raise x) => Some x
  | EQuery _ _ _ (Raise x) => Some x
  | EAddFeatures _ _ (Raise x) => Some x
  | EDeleteFeatures _ _ (Raise x) => Some x
  | _ => None
  end.

(** A log and an outcome that fit a run which stops at the first layer call
    that raises: no call of a returning run raised, and in a raising run at
    most the last call raised, with the exception of the run. *)
Definition stops_at_raise {L A : Type} (r : outcome A) (t : list (event L))
    : Prop :=
  match r with
  | Ok _ => Forall (λ ev, event_exn ev = None) t
  | Raise e =>
      Forall (λ ev, event_exn ev = None) t
      ∨ ∃ pre ev, t = pre ++ [ev]
          ∧ Forall (λ ev, event_exn ev = None) pre
          ∧ event_exn ev = Some e
  end.

Definition fail_fast {L S A : Type} (m : M L S A) : Prop :=
  ∀ s r s' t, m s = (r, s', t) → stops_at_raise r t.

(** A layer call that changes a layer. *)
Definition is_write {L : Type} (e : event L) : bool :=
  is_add e || is_delete e.

(** A write goes where the import sends it: an insert to the layer [lt], a
    delete to the layer [ls]. *)
Definition write_target {L : Type} (ls lt : L) (e : event L) : Prop :=
  match e with
  | EAddFeatures l _ _ => l = lt
  | EDeleteFeatures l _ _ => l = ls
  | _ => True
  end.

(** The id lists of the delete calls of a log, as they were sent. *)
Definition delete_args {L : Type} (e : event L) : option string :=
  match e with
  | EDeleteFeatures _ objectIds _ => Some objectIds
  | _ => None
  end.

(** [f['attributes'][oid]] where the field is there. *)
Definition oid_of (oid : string) (f : feature) : value :=
  default VNone (attributes f !! oid).

(** A computation that makes no remote call. *)
Definition silent {L S A : Type} (m : M L S A) : Prop :=
  ∀ s r s' t, m s = (r, s', t) → t = [].

Definition raised {A : Type} (r : outcome A) : Prop :=
  match r with Ok _ => False | Raise _ => True end.

Definition event_raised {L : Type} (e : event L) : Prop :=
  match e with
  | EDefinition _ r => raised r
  | EQuery _ _ _ r => raised r
  | EAddFeatures _ _ r => raised r
  | EDeleteFeatures _ _ r => raised r
  end.

Section vocabulary.
Context {L W : Type} `{!FeatureLayer L W}.

(** The map [__get_attr_map] returns for an instance. *)
Definition effective_map (self : FeatureImporter L) : gmap string string :=
  merge_dicts (attribute_map (auto_attr_mapper self))
              (attribute_map (cust_attr_mapper self)).

(** The [outFields] of the two queries of a comparison. *)
Definition src_out_fields (self : FeatureImporter L) : string :=
  join ", " (sorted_items (effective_map self)).*1.
Definition tgt_out_fields (self : FeatureImporter L) : string :=
  join ", " (sorted_items (effective_map self)).*2.

(** The field lists as section 4.3 of the specification words them: the
    sorted keys, or the values in that order, plus the internal-id field of
    the side.  These follow the specification, not the code. *)
Definition spec_src_out_fields (self : FeatureImporter L)
    (src_oid_field : string) : string :=
  join ", " ((sorted_items (effective_map self)).*1 ++ [src_oid_field]).
Definition spec_tgt_out_fields (self : FeatureImporter L)
    (tgt_oid_field : string) : string :=
  join ", " ((sorted_items (effective_map self)).*2 ++ [tgt_oid_field]).

(** The two conditional blocks of [import_features], named so that their
    runs can be described one at a time; [import_features_blocks] below shows
    that the method is the sequence of its comparison, its reads and these
    two blocks. *)
Definition add_block (self : FeatureImporter L) (attr_map : gmap string string)
    (src_oid_field : string) (add_features : list feature)
    : M L (FeatureImporter L * W) unit :=
  if 0 <? length add_features then
    add_oids ← lift_outcome (oids_of src_oid_field add_features);
    remote (call_add_features_batch (tgt_feat_layer self)
              (insert_payload attr_map src_oid_field add_features));;
    remote (call_delete_features (src_feat_layer self)
              (join ", " (py_str <$> add_oids)))
  else mret tt.

Definition stale_block (self : FeatureImporter L) (src_oid_field : string)
    (old_features : list feature) : M L (FeatureImporter L * W) unit :=
  if 0 <? length old_features then
    old_oids ← lift_outcome (oids_of src_oid_field old_features);
    remote (call_delete_features (src_feat_layer self)
              (join ", " (py_str <$> old_oids)))
  else mret tt.

End vocabulary.

(** * Properties *)

(** ** Running a computation *)

Lemma M_bind_inv {L S A B} (m : M L S A) (k : A → M L S B) s r s' t :
  (m ≫= k) s = (r, s', t) →
  (∃ a s1 t1 t2, m s = (Ok a, s1, t1) ∧ k a s1 = (r, s', t2) ∧ t = t1 ++ t2)
  ∨ (∃ e, m s = (Raise e, s', t) ∧ r = Raise e).
Proof.
  unfold mbind, M_bind. destruct (m s) as [[[a|e] s1] t1].
  - destruct (k a s1) as [[r2 s2] t2] eqn:Hk. intros [= <- <- <-].
    left. by exists a, s1, t1, t2.
  - intros [= <- <- <-]. right. by exists e.
Qed.

Lemma M_bind_Ok {L S A B} (m : M L S A) (k : A → M L S B) s a s1 t1 :
  m s = (Ok a, s1, t1) →
  (m ≫= k) s = (let '(r, s2, t2) := k a s1 in (r, s2, t1 ++ t2)).
Proof. unfold mbind, M_bind. by intros ->. Qed.

Lemma M_bind_Raise {L S A B} (m : M L S A) (k : A → M L S B) s e s1 t1 :
  m s = (Raise e, s1, t1) → (m ≫= k) s = (Raise e, s1, t1).
Proof. unfold mbind, M_bind. by intros ->. Qed.

Lemma outcome_bind_Ok {A B} (k : A → outcome B) (m : outcome A) b :
  m ≫= k = Ok b → ∃ a, m = Ok a ∧ k a = Ok b.
Proof. destruct m as [a|e]; [by exists a | done]. Qed.

Lemma M_bind_Ok_inv {L S A B} (m : M L S A) (k : A → M L S B) s b s' t :
  (m ≫= k) s = (Ok b, s', t) →
  ∃ a s1 t1 t2, m s = (Ok a, s1, t1) ∧ k a s1 = (Ok b, s', t2) ∧ t = t1 ++ t2.
Proof. intros [?|(e & _ & [=])]%M_bind_inv. done. Qed.

(** Evaluate the run of one primitive step. *)
Ltac run_prim H :=
  cbv [__reset_comp_features __get_attr_map get_self modify_comp lift_outcome
       remote call_definition call_query_features_batch
       call_add_features_batch call_delete_features
       mret M_ret mbind M_bind] in H;
  repeat match type of H with
  | context [definition ?l ?w] =>
      let E := fresh "Hdef" in destruct (definition l w) as [? ?] eqn:E
  | context [query_features_batch ?l ?a ?b ?w] =>
      let E := fresh "Hqry" in
      destruct (query_features_batch l a b w) as [? ?] eqn:E
  | context [add_features_batch ?l ?a ?w] =>
      let E := fresh "Hadd" in
      destruct (add_features_batch l a w) as [? ?] eqn:E
  | context [delete_features ?l ?a ?w] =>
      let E := fresh "Hdel" in
      destruct (delete_features l a w) as [? ?] eqn:E
  end;
  simpl in H; simplify_eq.

(** Split the run of a sequence that returned into the run of its head and
    the run of its rest. *)
Ltac run_ok H :=
  lazymatch type of H with
  | mbind _ _ _ = _ =>
      let Hm := fresh "Hm" in
      apply M_bind_Ok_inv in H as (? & ? & ? & ? & Hm & H & ->);
      run_prim Hm
  end.

(** The same when the sequence may have raised: the head raised, or the head
    returned and the rest ran. *)
Ltac run_any H :=
  lazymatch type of H with
  | mbind _ _ _ = _ =>
      let Hm := fresh "Hm" in
      apply M_bind_inv in H as [(? & ? & ? & ? & Hm & H & ->) | (? & Hm & ->)];
      run_prim Hm
  end.

Lemma silent_ret {L S A} (a : A) : silent (mret a : M L S A).
Proof. by intros s r s' t [= _ _ <-]. Qed.

Lemma silent_lift_outcome {L S A} (o : outcome A) :
  silent (lift_outcome o : M L S A).
Proof. by intros s r s' t [= _ _ <-]. Qed.

Lemma silent_bind {L S A B} (m : M L S A) (k : A → M L S B) :
  silent m → (∀ a, silent (k a)) → silent (m ≫= k).
Proof.
  intros Hm Hk s r s' t
    [(a & s1 & t1 & t2 & H1 & H2 & ->)|(e & H1 & _)]%M_bind_inv.
  - by rewrite (Hm _ _ _ _ H1), (Hk _ _ _ _ _ H2).
  - by eapply Hm.
Qed.

Create HintDb silent discriminated.
#[export] Hint Resolve silent_ret silent_lift_outcome silent_bind : silent.

(** ** Dictionaries and comprehensions *)

Lemma getitem_Ok {V} (d : gmap string V) k v :
  getitem d k = Ok v ↔ d !! k = Some v.
Proof. unfold getitem. destruct (d !! k); naive_solver. Qed.

Lemma classified_iff uid member idx f u :
  attributes f !! uid = Some u →
  classified uid member idx f ↔ contains idx u = member.
Proof. unfold classified. intros ->. simpl. naive_solver. Qed.

Lemma select_Ok uid member idx fs l :
  select uid member idx fs = Ok l →
  l = filter (classified uid member idx) fs
  ∧ Forall (λ f, is_Some (attributes f !! uid)) fs.
Proof.
  revert l. induction fs as [|f fs IH]; intros l; simpl.
  { intros [= <-]. by split. }
  intros (u & Hu%getitem_Ok & H)%outcome_bind_Ok.
  apply outcome_bind_Ok in H as (rest & Hrest & [= <-]).
  destruct (IH _ Hrest) as [-> Hall]. split; [|constructor; eauto].
  rewrite filter_cons. pose proof (classified_iff uid member idx f u Hu).
  case_bool_decide; case_decide; naive_solver.
Qed.

Lemma select_total uid member idx fs :
  Forall (λ f, is_Some (attributes f !! uid)) fs →
  select uid member idx fs = Ok (filter (classified uid member idx) fs).
Proof.
  induction 1 as [|f fs [u Hu] _ IH]; [done|]. simpl.
  unfold getitem. rewrite Hu. simpl. rewrite IH. simpl.
  rewrite filter_cons. pose proof (classified_iff uid member idx f u Hu).
  case_bool_decide; case_decide; naive_solver.
Qed.

Lemma build_index_Ok uid oid fs acc m :
  build_index uid oid fs acc = Ok m →
  Forall (λ f, is_Some (attributes f !! uid) ∧ is_Some (attributes f !! oid)) fs
  ∧ ∀ u, m !! u =
      match last (filter (λ f, attributes f !! uid = Some u) fs) with
      | Some f => attributes f !! oid
      | None => acc !! u
      end.
Proof.
  revert acc. induction fs as [|f fs IH]; intros acc; simpl.
  { intros [= <-]. by split. }
  intros (k & Hk%getitem_Ok & H)%outcome_bind_Ok.
  apply outcome_bind_Ok in H as (v & Hv%getitem_Ok & H).
  destruct (IH _ H) as [Hall Hm]. split; [constructor; eauto|].
  intros u. rewrite Hm, filter_cons. clear Hm.
  destruct (last (filter _ fs)) as [g|] eqn:Hlast.
  - case_decide; [|by rewrite Hlast].
    destruct (filter _ fs) as [|g' gs] eqn:Hf; [done|].
    change (last (f :: g' :: gs)) with (last (g' :: gs)). by rewrite Hlast.
  - case_decide as Hu.
    + apply last_None in Hlast as ->. simpl.
      rewrite Hk in Hu. injection Hu as ->. by rewrite lookup_insert_eq.
    + rewrite Hlast. rewrite lookup_insert_ne; [done|]. congruence.
Qed.

Lemma build_index_total uid oid fs acc :
  Forall (λ f, is_Some (attributes f !! uid) ∧ is_Some (attributes f !! oid)) fs →
  ∃ m, build_index uid oid fs acc = Ok m.
Proof.
  intros Hall. revert acc.
  induction Hall as [|f fs [[u Hu] [o Ho]] _ IH]; intros acc; simpl; [eauto|].
  unfold getitem. rewrite Hu, Ho. simpl. apply IH.
Qed.

Lemma build_index_dom uid oid fs m :
  build_index uid oid fs ∅ = Ok m →
  ∀ u, is_Some (m !! u) ↔ ∃ f, f ∈ fs ∧ attributes f !! uid = Some u.
Proof.
  intros [Hall Hm]%build_index_Ok u. rewrite Hm.
  destruct (last _) as [g|] eqn:Hlast.
  - apply last_Some_elem_of, list_elem_of_filter in Hlast as [Hg Hin].
    rewrite Forall_forall in Hall. split; [eauto|]. intros _.
    by destruct (Hall g Hin) as [_ ?].
  - rewrite lookup_empty. split; [by intros [? ?]|].
    intros (f & Hin & Hf). apply last_None in Hlast.
    assert (f ∈ filter (λ f, attributes f !! uid = Some u) fs) as Hmem
      by by apply list_elem_of_filter.
    rewrite Hlast in Hmem. by apply not_elem_of_nil in Hmem.
Qed.

(** A list splits into the elements that satisfy a test and the others. *)
Lemma filter_split_Permutation {A} (P Q : A → Prop)
    `{!∀ x, Decision (P x), !∀ x, Decision (Q x)} (l : list A) :
  Forall (λ x, P x ↔ ¬ Q x) l → filter P l ++ filter Q l ≡ₚ l.
Proof.
  induction 1 as [|x l Hx _ IH]; [done|]. rewrite !filter_cons.
  destruct (decide (P x)), (decide (Q x)); try tauto; simpl.
  - by f_equiv.
  - by rewrite <-Permutation_middle, IH.
Qed.

Lemma classified_cases uid idx f :
  is_Some (attributes f !! uid) →
  classified uid true idx f ↔ ¬ classified uid false idx f.
Proof.
  intros [u Hu]. rewrite !(classified_iff _ _ _ _ _ Hu).
  by destruct (contains idx u).
Qed.

(** ** Renaming and removing attributes *)

Lemma rename_attributes_lookup_Some m a k' v :
  rename_attributes m a !! k' = Some v →
  ∃ k, m !! k = Some k' ∧ a !! k = Some v.
Proof.
  unfold rename_attributes.
  assert (∀ kv, kv ∈ map_to_list a → a !! kv.1 = Some kv.2) as Hin.
  { intros [k w]. apply elem_of_map_to_list. }
  revert Hin. generalize (map_to_list a). intros l.
  induction l as [|[k w] l IH]; simpl; intros Hin.
  { by rewrite lookup_empty. }
  destruct (m !! k) as [k2|] eqn:Hk.
  - destruct (decide (k2 = k')) as [->|Hne].
    + rewrite lookup_insert_eq. intros [= ->]. exists k. split; [done|].
      apply (Hin (k, v)). left.
    + rewrite lookup_insert_ne by done. apply IH.
      intros kv ?. apply Hin. by right.
  - apply IH. intros kv ?. apply Hin. by right.
Qed.

Lemma rename_attributes_lookup m a k k' v :
  m !! k = Some k' →
  a !! k = Some v →
  (∀ k2, is_Some (a !! k2) → m !! k2 = Some k' → k2 = k) →
  rename_attributes m a !! k' = Some v.
Proof.
  intros Hm Ha Huniq. unfold rename_attributes.
  assert ((k, v) ∈ map_to_list a) as Hkv by by apply elem_of_map_to_list.
  assert (∀ kv, kv ∈ map_to_list a → m !! kv.1 = Some k' → kv = (k, v))
    as Hone.
  { intros [k2 v2] Hin%elem_of_map_to_list Hk2. simpl in Hk2.
    assert (k2 = k) as -> by eauto. congruence. }
  revert Hkv Hone. generalize (map_to_list a). intros l.
  induction l as [|[k2 v2] l IH]; simpl; intros Hkv Hone.
  { by apply elem_of_nil in Hkv. }
  destruct (m !! k2) as [k3|] eqn:Hk2.
  - destruct (decide (k3 = k')) as [->|Hne].
    + rewrite lookup_insert_eq.
      assert ((k2, v2) = (k, v)) as [= -> ->]; [|done].
      apply Hone; [left|done].
    + rewrite lookup_insert_ne by done. apply IH.
      * apply elem_of_cons in Hkv as [[= <- <-]|?]; [congruence|done].
      * intros kv ?. apply Hone. by right.
  - apply IH.
    + apply elem_of_cons in Hkv as [[= <- <-]|?]; [congruence|done].
    + intros kv ?. apply Hone. by right.
Qed.

Lemma insert_payload_length m oid fs :
  length (insert_payload m oid fs) = length fs.
Proof.
  unfold insert_payload, remove_attributes, replace_attributes.
  by rewrite !length_fmap.
Qed.

Lemma insert_payload_lookup m oid fs i :
  insert_payload m oid fs !! i
  = (λ f, Feature (delete oid (rename_attributes m (attributes f)))) <$> fs !! i.
Proof.
  unfold insert_payload, remove_attributes, replace_attributes.
  rewrite !list_lookup_fmap. by destruct (fs !! i).
Qed.

Lemma insert_payload_no_oid m oid fs :
  Forall (λ f, attributes f !! oid = None) (insert_payload m oid fs).
Proof.
  apply Forall_lookup. intros i f. rewrite insert_payload_lookup.
  destruct (fs !! i); intros [= <-]. simpl. apply lookup_delete_eq.
Qed.

(** Every attribute of an inserted record is an attribute of the source
    record it was made from, under the name the map gives it. *)
Lemma insert_payload_attributes m oid fs i f f' k' v :
  fs !! i = Some f →
  insert_payload m oid fs !! i = Some f' →
  attributes f' !! k' = Some v →
  k' ≠ oid ∧ ∃ k, m !! k = Some k' ∧ attributes f !! k = Some v.
Proof.
  intros Hf. rewrite insert_payload_lookup, Hf. intros [= <-]. simpl.
  intros [Hne Hv]%lookup_delete_Some. split; [done|].
  by apply rename_attributes_lookup_Some.
Qed.

(** ** Sorting the items of the attribute map *)

Global Instance item_le_total : Total item_le.
Proof.
  intros p q. unfold item_le.
  destruct (decide (p.1 = q.1)) as [Heq|Hne].
  - rewrite decide_True by done. apply (total String.le).
  - rewrite decide_False by done. apply (total String.le).
Qed.

Global Instance item_le_trans : Transitive item_le.
Proof.
  intros [k1 v1] [k2 v2] [k3 v3]. unfold item_le. simpl.
  repeat case_decide; subst; intros H12 H23; try done.
  - by etrans.
  - destruct H. by apply (anti_symm String.le).
  - by etrans.
Qed.

Global Instance item_le_antisymm : AntiSymm (=) item_le.
Proof.
  intros [k1 v1] [k2 v2]. unfold item_le. simpl.
  repeat case_decide; subst; intros H12 H21; try done.
  - f_equal. by apply (anti_symm String.le).
  - destruct H. by apply (anti_symm String.le).
Qed.

Lemma sorted_items_Permutation m : sorted_items m ≡ₚ map_to_list m.
Proof. apply merge_sort_Permutation. Qed.

Lemma sorted_items_Sorted m : Sorted item_le (sorted_items m).
Proof. apply (Sorted_merge_sort item_le). Qed.

(** Any way of sorting the items gives this list. *)
Lemma sorted_items_unique m l :
  l ≡ₚ map_to_list m → Sorted item_le l → l = sorted_items m.
Proof.
  intros Hperm Hsorted. apply (Sorted_unique item_le); [done| |].
  - apply sorted_items_Sorted.
  - by rewrite sorted_items_Permutation.
Qed.

Lemma elem_of_sorted_items m k v :
  (k, v) ∈ sorted_items m ↔ m !! k = Some v.
Proof. by rewrite sorted_items_Permutation, elem_of_map_to_list. Qed.

Lemma sorted_items_keys_Sorted m : Sorted String.le (sorted_items m).*1.
Proof.
  apply (Sorted_fmap fst item_le), sorted_items_Sorted.
  intros p q. unfold item_le. case_decide as Heq; [|done].
  intros _. by rewrite Heq.
Qed.

Lemma sorted_items_keys_NoDup m : NoDup (sorted_items m).*1.
Proof. rewrite sorted_items_Permutation. apply NoDup_fst_map_to_list. Qed.

Lemma elem_of_sorted_items_keys m k :
  k ∈ (sorted_items m).*1 ↔ k ∈ dom m.
Proof.
  rewrite elem_of_dom, list_elem_of_fmap. split.
  - intros ([k' v] & -> & Hin). apply elem_of_sorted_items in Hin. by exists v.
  - intros [v Hv]. exists (k, v). split; [done|]. by apply elem_of_sorted_items.
Qed.

(** The two field lists are paired by position. *)
Lemma sorted_items_paired m i k :
  (sorted_items m).*1 !! i = Some k →
  (sorted_items m).*2 !! i = m !! k.
Proof.
  rewrite !list_lookup_fmap.
  destruct (sorted_items m !! i) as [[k' v]|] eqn:Hi; [|done].
  simpl. intros [= ->]. symmetry. apply elem_of_sorted_items.
  by eapply list_elem_of_lookup_2.
Qed.

(** ** The methods of the importer *)

Section importer_facts.
Context {L W : Type} `{!FeatureLayer L W}.
Implicit Types (self : FeatureImporter L) (w : W).

Lemma get_attr_map_run self w :
  __get_attr_map (self, w) = (Ok (effective_map self), (self, w), []).
Proof. reflexivity. Qed.

Lemma comp_features_Ok us ut self w self' w' t :
  __comp_features us ut (self, w) = (Ok tt, (self', w'), t) →
  ∃ sd td S T w1 w2 w3 c,
    definition (src_feat_layer self) w = (Ok sd, w1)
    ∧ definition (tgt_feat_layer self) w1 = (Ok td, w2)
    ∧ query_features_batch (src_feat_layer self) "1=1"
        (src_out_fields self) w2 = (Ok S, w3)
    ∧ query_features_batch (tgt_feat_layer self) "1=1"
        (tgt_out_fields self) w3 = (Ok T, w')
    ∧ t = [EDefinition (src_feat_layer self) (Ok sd);
           EDefinition (tgt_feat_layer self) (Ok td);
           EQuery (src_feat_layer self) "1=1" (src_out_fields self) (Ok S);
           EQuery (tgt_feat_layer self) "1=1" (tgt_out_fields self) (Ok T)]
    ∧ compare_records us ut (objectIdField sd) (objectIdField td) S T = Ok c
    ∧ self' = set_comp_features c self.
Proof.
  unfold __comp_features. intros H.
  repeat run_ok H. try run_prim H.
  eexists _, _, _, _, _, _, _, _. split_and!; [done..| |].
  - unfold compare_records.
    repeat match goal with
           | Hx : build_index _ _ _ _ = Ok _ |- _ => rewrite Hx; clear Hx; simpl
           | Hx : select _ _ _ _ = Ok _ |- _ => rewrite Hx; clear Hx; simpl
           end.
    reflexivity.
  - reflexivity.
Qed.

Lemma compare_records_Ok us ut os ot S T c :
  compare_records us ut os ot S T = Ok c →
  build_index us os S ∅ = Ok (index (src c))
  ∧ build_index ut ot T ∅ = Ok (index (tgt c))
  ∧ matched (src c) = filter (classified us true (index (tgt c))) S
  ∧ unmatched (src c) = filter (classified us false (index (tgt c))) S
  ∧ matched (tgt c) = filter (classified ut true (index (src c))) T
  ∧ unmatched (tgt c) = filter (classified ut false (index (src c))) T
  ∧ Forall (λ f, is_Some (attributes f !! us)) S
  ∧ Forall (λ f, is_Some (attributes f !! ut)) T.
Proof.
  unfold compare_records. intros H.
  apply outcome_bind_Ok in H as (si & Hsi & H).
  apply outcome_bind_Ok in H as (ti & Hti & H).
  apply outcome_bind_Ok in H as (sm & [-> HS]%select_Ok & H).
  apply outcome_bind_Ok in H as (su & [-> _]%select_Ok & H).
  apply outcome_bind_Ok in H as (tm & [-> HT]%select_Ok & H).
  apply outcome_bind_Ok in H as (tu & [-> _]%select_Ok & [= <-]).
  by split_and!.
Qed.

Lemma filter_splits uid idx (fs : list feature) :
  Forall (λ f, is_Some (attributes f !! uid)) fs →
  splits fs (filter (classified uid true idx) fs)
            (filter (classified uid false idx) fs).
Proof.
  intros Hall.
  assert (filter (classified uid true idx) fs
          ++ filter (classified uid false idx) fs ≡ₚ fs) as Hperm.
  { apply filter_split_Permutation. eapply Forall_impl; [done|].
    intros f. apply classified_cases. }
  rewrite Forall_forall in Hall. split_and!.
  - done.
  - by rewrite <-length_app, Hperm.
  - intros f Hf. rewrite !list_elem_of_filter.
    pose proof (classified_cases uid idx f (Hall f Hf)).
    destruct (decide (classified uid true idx f)),
      (decide (classified uid false idx f)); [tauto|left|right|]; tauto.
  - intros f. rewrite !list_elem_of_filter. intros [[H1 Hf] [H2 _]].
    pose proof (classified_cases uid idx f (Hall f Hf)). tauto.
Qed.

(** C2. After a comparison, on each side the matched and the unmatched list
    split the list of fetched records: every fetched record is in exactly
    one of the two, the two lengths add up to the number of fetched records
    and no record is in both lists. *)
Theorem comp_features_partition us ut self w self' w' t :
  __comp_features us ut (self, w) = (Ok tt, (self', w'), t) →
  ∃ sd td S T,
    t = [EDefinition (src_feat_layer self) (Ok sd);
         EDefinition (tgt_feat_layer self) (Ok td);
         EQuery (src_feat_layer self) "1=1" (src_out_fields self) (Ok S);
         EQuery (tgt_feat_layer self) "1=1" (tgt_out_fields self) (Ok T)]
    ∧ splits S (matched (src (comp_features self')))
               (unmatched (src (comp_features self')))
    ∧ splits T (matched (tgt (comp_features self')))
               (unmatched (tgt (comp_features self'))).
Proof.
  intros (sd & td & S & T & w1 & w2 & w3 & c & _ & _ & _ & _ & -> & Hc & ->)
    %comp_features_Ok.
  exists sd, td, S, T. split; [done|]. simpl.
  apply compare_records_Ok in Hc
    as (_ & _ & -> & -> & -> & -> & HS & HT).
  split; by apply filter_splits.
Qed.

(** A fetched record is in the matched list of its side exactly when its
    uid value is a key of the other index, and in the unmatched list exactly
    when it is not. *)
Lemma filter_classified_member uid idx (fs : list feature) f :
  Forall (λ f, is_Some (attributes f !! uid)) fs →
  f ∈ fs →
  ∃ u, attributes f !! uid = Some u
    ∧ (f ∈ filter (classified uid true idx) fs ↔ is_Some (idx !! u))
    ∧ (f ∈ filter (classified uid false idx) fs ↔ idx !! u = None).
Proof.
  intros Hall Hf. rewrite Forall_forall in Hall. destruct (Hall f Hf) as [u Hu].
  exists u. split; [done|].
  rewrite !list_elem_of_filter, !(classified_iff _ _ _ _ _ Hu).
  unfold contains. rewrite bool_decide_eq_true, bool_decide_eq_false.
  rewrite <-eq_None_not_Some. tauto.
Qed.

(** C7. The index of a side holds, for every uid value, the internal id of
    the last fetched record of that side with this uid value (one id per uid
    value, the last one written).  Every fetched record carries a uid value
    and is classified by it alone: it is in the matched list of its side
    exactly when the value is a key of the index of the other side, and in
    the unmatched list exactly when it is not.  So two records of one side
    with the same uid value are both matched and neither is unmatched, or
    both are unmatched and neither is matched. *)
Theorem comp_features_duplicate_uid us ut self w self' w' t :
  __comp_features us ut (self, w) = (Ok tt, (self', w'), t) →
  ∃ sd td S T,
    t = [EDefinition (src_feat_layer self) (Ok sd);
         EDefinition (tgt_feat_layer self) (Ok td);
         EQuery (src_feat_layer self) "1=1" (src_out_fields self) (Ok S);
         EQuery (tgt_feat_layer self) "1=1" (tgt_out_fields self) (Ok T)]
    ∧ (∀ u, index (src (comp_features self')) !! u
            = last_oid us (objectIdField sd) S u)
    ∧ (∀ u, index (tgt (comp_features self')) !! u
            = last_oid ut (objectIdField td) T u)
    ∧ (∀ f, f ∈ S →
         ∃ u, attributes f !! us = Some u
           ∧ (f ∈ matched (src (comp_features self'))
              ↔ is_Some (index (tgt (comp_features self')) !! u))
           ∧ (f ∈ unmatched (src (comp_features self'))
              ↔ index (tgt (comp_features self')) !! u = None))
    ∧ (∀ g, g ∈ T →
         ∃ u, attributes g !! ut = Some u
           ∧ (g ∈ matched (tgt (comp_features self'))
              ↔ is_Some (index (src (comp_features self')) !! u))
           ∧ (g ∈ unmatched (tgt (comp_features self'))
              ↔ index (src (comp_features self')) !! u = None))
    ∧ (∀ f g, f ∈ S → g ∈ S →
         attributes f !! us = attributes g !! us →
         (f ∈ matched (src (comp_features self'))
          ∧ g ∈ matched (src (comp_features self'))
          ∧ (f ∉ unmatched (src (comp_features self')))
          ∧ (g ∉ unmatched (src (comp_features self'))))
         ∨ (f ∈ unmatched (src (comp_features self'))
            ∧ g ∈ unmatched (src (comp_features self'))
            ∧ (f ∉ matched (src (comp_features self')))
            ∧ (g ∉ matched (src (comp_features self')))))
    ∧ (∀ f g, f ∈ T → g ∈ T →
         attributes f !! ut = attributes g !! ut →
         (f ∈ matched (tgt (comp_features self'))
          ∧ g ∈ matched (tgt (comp_features self'))
          ∧ (f ∉ unmatched (tgt (comp_features self')))
          ∧ (g ∉ unmatched (tgt (comp_features self'))))
         ∨ (f ∈ unmatched (tgt (comp_features self'))
            ∧ g ∈ unmatched (tgt (comp_features self'))
            ∧ (f ∉ matched (tgt (comp_features self')))
            ∧ (g ∉ matched (tgt (comp_features self'))))).
Proof.
  intros (sd & td & S & T & w1 & w2 & w3 & c & _ & _ & _ & _ & -> & Hc & ->)
    %comp_features_Ok.
  exists sd, td, S, T. split; [done|]. simpl.
  apply compare_records_Ok in Hc
    as (Hsi & Hti & -> & -> & -> & -> & HS & HT).
  apply build_index_Ok in Hsi as [_ Hsi], Hti as [_ Hti].
  assert (∀ uid idx (fs : list feature) f g,
            Forall (λ f, is_Some (attributes f !! uid)) fs →
            f ∈ fs → g ∈ fs →
            attributes f !! uid = attributes g !! uid →
            (f ∈ filter (classified uid true idx) fs
             ∧ g ∈ filter (classified uid true idx) fs
             ∧ (f ∉ filter (classified uid false idx) fs)
             ∧ (g ∉ filter (classified uid false idx) fs))
            ∨ (f ∈ filter (classified uid false idx) fs
               ∧ g ∈ filter (classified uid false idx) fs
               ∧ (f ∉ filter (classified uid true idx) fs)
               ∧ (g ∉ filter (classified uid true idx) fs))) as Hpair.
  { intros uid idx fs f g Hall Hf Hg Huid.
    destruct (filter_classified_member uid idx fs f Hall Hf)
      as (u & Hu & Hfm & Hfu).
    destruct (filter_classified_member uid idx fs g Hall Hg)
      as (u' & Hu' & Hgm & Hgu).
    assert (u' = u) as -> by congruence.
    rewrite Hfm, Hfu, Hgm, Hgu. rewrite <-!eq_None_not_Some.
    destruct (idx !! u) as [o|]; [left|right]; split_and!; eauto; congruence. }
  split_and!.
  - intros u. rewrite Hsi. unfold last_oid. by destruct (last _).
  - intros u. rewrite Hti. unfold last_oid. by destruct (last _).
  - intros f Hf. by apply filter_classified_member.
  - intros g Hg. by apply filter_classified_member.
  - intros f g. by apply Hpair.
  - intros f g. by apply Hpair.
Qed.

Lemma silent_get_self : silent (get_self (L:=L) (W:=W)).
Proof. by intros [self w] r s' t [= _ _ <-]. Qed.

Lemma silent_modify_comp f : silent (modify_comp (L:=L) (W:=W) f).
Proof. by intros [self w] r s' t [= _ _ <-]. Qed.

Hint Resolve silent_get_self silent_modify_comp : silent.

Lemma build_auto_attr_mapper_run ls lt w sd td w1 w2 :
  definition ls w = (Ok sd, w1) →
  definition lt w1 = (Ok td, w2) →
  __build_auto_attr_mapper ls lt w
  = (Ok (auto_mapper_of sd td), w2,
     [EDefinition ls (Ok sd); EDefinition lt (Ok td)]).
Proof.
  intros H1 H2. unfold __build_auto_attr_mapper.
  cbv [mbind M_bind call_definition mret M_ret]. by rewrite H1, H2.
Qed.

Lemma init_run ls lt o w sd td w1 w2 :
  definition ls w = (Ok sd, w1) →
  definition lt w1 = (Ok td, w2) →
  __init__ ls lt o w
  = (Ok (MkFeatureImporter ls lt (custom_mapper_of o) (auto_mapper_of sd td)
           empty_comp), w2,
     [EDefinition ls (Ok sd); EDefinition lt (Ok td)]).
Proof.
  intros H1 H2. unfold __init__.
  rewrite (M_bind_Ok _ _ _ _ _ _ (build_auto_attr_mapper_run _ _ _ _ _ _ _ H1 H2)).
  by destruct o.
Qed.

(** The automatic map is the identity on the field names both layers have. *)
Lemma auto_mapper_of_lookup sd td k :
  attribute_map (auto_mapper_of sd td) !! k
  = if decide (k ∈ name <$> fields sd ∧ k ∈ name <$> fields td)
    then Some k else None.
Proof.
  unfold auto_mapper_of.
  set (common := list_to_set _ ∩ list_to_set _ : gset string).
  assert (∀ l acc, attribute_map
            (foldl (λ m f_name, add_mapping f_name f_name m) acc l) !! k
          = if decide (k ∈ l) then Some k else attribute_map acc !! k) as Hfold.
  { induction l as [|x l IH]; intros acc; cbn [foldl].
    - by destruct (decide (k ∈ [])) as [?%not_elem_of_nil|].
    - rewrite IH.
      change (attribute_map (add_mapping x x acc))
        with (<[x:=x]> (attribute_map acc)).
      destruct (decide (k ∈ l)) as [Hl|Hl],
        (decide (k ∈ x :: l)) as [Hxl|Hxl]; try done.
      + destruct Hxl. by right.
      + apply elem_of_cons in Hxl as [->|?]; [|done]. by rewrite lookup_insert_eq.
      + rewrite lookup_insert_ne; [done|]. intros ->. apply Hxl. left. }
  rewrite Hfold. change (attribute_map AttributeMapper_new) with (∅ : gmap string string).
  rewrite lookup_empty.
  assert (k ∈ elements common ↔
          k ∈ name <$> fields sd ∧ k ∈ name <$> fields td) as Hiff.
  { unfold common. rewrite elem_of_elements, elem_of_intersection.
    by rewrite !elem_of_list_to_set. }
  repeat case_decide; tauto || done.
Qed.

(** C5. The effective map holds, for every key, the custom map's value where
    the custom map has the key and the automatic map's value otherwise: for a
    key in both maps the custom value, for a key in one map that map's value;
    and its keys are the keys of the two maps together. *)
Theorem get_attr_map_precedence self w :
  let auto := attribute_map (auto_attr_mapper self) in
  let cust := attribute_map (cust_attr_mapper self) in
  ∃ m, __get_attr_map (self, w) = (Ok m, (self, w), [])
    ∧ (∀ k, m !! k = match cust !! k with
                     | Some v => Some v
                     | None => auto !! k
                     end)
    ∧ (∀ k a c, auto !! k = Some a → cust !! k = Some c → m !! k = Some c)
    ∧ (∀ k c, auto !! k = None → cust !! k = Some c → m !! k = Some c)
    ∧ (∀ k a, auto !! k = Some a → cust !! k = None → m !! k = Some a)
    ∧ dom m = dom auto ∪ dom cust.
Proof.
  intros auto cust. exists (effective_map self).
  assert (∀ k, effective_map self !! k
               = match cust !! k with Some v => Some v | None => auto !! k end)
    as Hlookup.
  { intros k. unfold effective_map, merge_dicts. rewrite lookup_union.
    fold auto cust. by destruct (cust !! k), (auto !! k). }
  split_and!; [done|done|..].
  - intros k a c _ Hc. by rewrite Hlookup, Hc.
  - intros k c _ Hc. by rewrite Hlookup, Hc.
  - intros k a Ha Hc. by rewrite Hlookup, Hc.
  - unfold effective_map, merge_dicts. rewrite dom_union_L. fold auto cust.
    set_solver.
Qed.

(** C10. When the [custom_attr_mapper] argument is not an [AttributeMapper]
    the constructor runs exactly as it does for a new, empty mapper: it raises
    nothing for the argument, and where the two layer definitions can be read
    it returns an instance whose custom mapper is empty. *)
Theorem init_substitutes_empty_mapper ls lt o w :
  isinstance_AttributeMapper o = false →
  __init__ ls lt o w = __init__ ls lt (PyAttributeMapper AttributeMapper_new) w
  ∧ ∀ sd td w1 w2,
      definition ls w = (Ok sd, w1) →
      definition lt w1 = (Ok td, w2) →
      ∃ self,
        __init__ ls lt o w
        = (Ok self, w2, [EDefinition ls (Ok sd); EDefinition lt (Ok td)])
        ∧ cust_attr_mapper self = AttributeMapper_new.
Proof.
  intros Ho. split; [by destruct o|].
  intros sd td w1 w2 H1 H2. eexists. split; [by eapply init_run|].
  by destruct o.
Qed.

(** C8, as the code has it. The constructor does not compare the custom
    mapper with the layer definitions: where the two definitions can be read
    it returns, having made these two calls only, and the instance keeps the
    custom mapper as it was given, so that each of its entries is an entry of
    the effective map. *)
Theorem init_keeps_custom_mapper ls lt m w sd td w1 w2 :
  definition ls w = (Ok sd, w1) →
  definition lt w1 = (Ok td, w2) →
  ∃ self,
    __init__ ls lt (PyAttributeMapper m) w
    = (Ok self, w2, [EDefinition ls (Ok sd); EDefinition lt (Ok td)])
    ∧ cust_attr_mapper self = m
    ∧ ∀ k v, attribute_map m !! k = Some v → effective_map self !! k = Some v.
Proof.
  intros H1 H2. eexists. split; [by eapply init_run|]. split; [done|].
  intros k v Hk. unfold effective_map, merge_dicts. simpl.
  by apply lookup_union_Some_l.
Qed.

Lemma reset_comp_features_run self w :
  __reset_comp_features (self, w)
  = (Ok tt, (set_comp_features empty_comp self, w), []).
Proof. reflexivity. Qed.

(** C9. A comparison first replaces the comparison state it finds by the
    empty one: its run does not depend on the state a previous run left; if
    a layer call of the comparison raises, the empty state is what is left;
    and if the comparison returns, the new state is computed from the
    records fetched in this call. *)
Theorem comp_features_discards_previous us ut self w c :
  __comp_features us ut (set_comp_features c self, w)
    = __comp_features us ut (self, w)
  ∧ ∀ r self' w' t,
      __comp_features us ut (self, w) = (r, (self', w'), t) →
      (Exists event_raised t → comp_features self' = empty_comp)
      ∧ (r = Ok tt →
         ∃ sd td S T,
           t = [EDefinition (src_feat_layer self) (Ok sd);
                EDefinition (tgt_feat_layer self) (Ok td);
                EQuery (src_feat_layer self) "1=1" (src_out_fields self) (Ok S);
                EQuery (tgt_feat_layer self) "1=1" (tgt_out_fields self) (Ok T)]
           ∧ compare_records us ut (objectIdField sd) (objectIdField td) S T
             = Ok (comp_features self')).
Proof.
  split.
  { unfold __comp_features.
    rewrite (M_bind_Ok _ _ (set_comp_features c self, w) _ _ _
               (reset_comp_features_run _ _)).
    by rewrite (M_bind_Ok _ _ (self, w) _ _ _ (reset_comp_features_run _ _)). }
  intros r self' w' t H. split.
  - unfold __comp_features in H. intros Hex.
    do 7 (run_any H; [|done..]).
    match type of H with
    | ?m _ = _ => assert (silent m) as Hs by auto 30 with silent
    end.
    rewrite (Hs _ _ _ _ H) in Hex. simpl in Hex.
    rewrite ?Exists_cons, Exists_nil in Hex. simpl in Hex. tauto.
  - intros ->.
    apply comp_features_Ok in H
      as (sd & td & S & T & w1 & w2 & w3 & c' & _ & _ & _ & _ & -> & Hc & ->).
    by exists sd, td, S, T.
Qed.

(** C4, as the code has it. Every query of a comparison asks for all records
    ([1=1]); the query on the source layer names the keys of the effective
    map, sorted, joined by a comma and a blank, and the query on the target
    layer names the values in the order of their keys, so that the two lists
    are paired by position.  The internal-id field names are read from the
    layer definitions and are not added to either list. *)
Theorem comp_features_queries us ut self w r st' t :
  __comp_features us ut (self, w) = (r, st', t) →
  let items := sorted_items (effective_map self) in
  (∀ l where_ outFields res,
     EQuery l where_ outFields res ∈ t →
     where_ = "1=1"
     ∧ ((l = src_feat_layer self ∧ outFields = join ", " items.*1)
        ∨ (l = tgt_feat_layer self ∧ outFields = join ", " items.*2)))
  ∧ (r = Ok tt →
     ∃ sd td S T,
       t = [EDefinition (src_feat_layer self) (Ok sd);
            EDefinition (tgt_feat_layer self) (Ok td);
            EQuery (src_feat_layer self) "1=1" (join ", " items.*1) (Ok S);
            EQuery (tgt_feat_layer self) "1=1" (join ", " items.*2) (Ok T)])
  ∧ Sorted String.le items.*1
  ∧ NoDup items.*1
  ∧ (∀ k, k ∈ items.*1 ↔ k ∈ dom (effective_map self))
  ∧ (∀ i k, items.*1 !! i = Some k → items.*2 !! i = effective_map self !! k).
Proof.
  intros H items. split_and!.
  - unfold __comp_features in H. intros l where_ outFields res Hin.
    do 7 (run_any H;
          [|(simpl in Hin; rewrite ?elem_of_cons, ?elem_of_nil in Hin;
             naive_solver)..]).
    match type of H with
    | ?m _ = _ => assert (silent m) as Hs by auto 30 with silent
    end.
    rewrite (Hs _ _ _ _ H) in Hin. simpl in Hin.
    rewrite ?elem_of_cons, ?elem_of_nil in Hin. naive_solver.
  - intros ->. destruct st' as [self' w'].
    apply comp_features_Ok in H
      as (sd & td & S & T & w1 & w2 & w3 & c' & _ & _ & _ & _ & -> & _).
    by exists sd, td, S, T.
  - apply sorted_items_keys_Sorted.
  - apply sorted_items_keys_NoDup.
  - apply elem_of_sorted_items_keys.
  - apply sorted_items_paired.
Qed.

(** A comparison only reads the layers, and of the instance it only changes
    the comparison state. *)
Lemma comp_features_frame us ut self w r self' w' t :
  __comp_features us ut (self, w) = (r, (self', w'), t) →
  (∃ c, self' = set_comp_features c self) ∧ Forall is_read t.
Proof.
  unfold __comp_features. intros H.
  repeat (run_any H;
          [|(split; [by eexists|by repeat constructor])..]).
  try run_prim H. split; [by eexists|by repeat constructor].
Qed.

(** *** The import *)

Lemma import_features_blocks us ut :
  import_features (L:=L) (W:=W) us ut
  = (__comp_features us ut;;
     attr_map ← __get_attr_map;
     self ← get_self;
     sd ← remote (call_definition (src_feat_layer self));
     td ← remote (call_definition (tgt_feat_layer self));
     add_block self attr_map (objectIdField sd)
       (unmatched (src (comp_features self)));;
     stale_block self (objectIdField sd)
       (matched (src (comp_features self)))).
Proof. reflexivity. Qed.

Lemma length_pos_nil {A} (l : list A) : (0 <? length l) = false ↔ l = [].
Proof. destruct l; simpl; naive_solver. Qed.

(** The runs of the insert block: nothing to insert; the ids cannot be read;
    the insert raises, and nothing follows; the insert returns and the delete
    of the captured ids follows. *)
Lemma add_block_run self0 attr_map oid U self w r s' t :
  add_block self0 attr_map oid U (self, w) = (r, s', t) →
  (U = [] ∧ r = Ok tt ∧ s' = (self, w) ∧ t = [])
  ∨ (U ≠ [] ∧ ∃ e, oids_of oid U = Raise e
       ∧ r = Raise e ∧ s' = (self, w) ∧ t = [])
  ∨ (U ≠ [] ∧ ∃ ids ra wa,
       oids_of oid U = Ok ids
       ∧ add_features_batch (tgt_feat_layer self0)
           (insert_payload attr_map oid U) w = (ra, wa)
       ∧ let add := EAddFeatures (tgt_feat_layer self0)
                      (insert_payload attr_map oid U) in
         (∃ e, ra = Raise e ∧ r = Raise e ∧ s' = (self, wa)
               ∧ t = [add (Raise e)])
         ∨ (ra = Ok tt ∧ ∃ wd,
              delete_features (src_feat_layer self0)
                (join ", " (py_str <$> ids)) wa = (r, wd)
              ∧ s' = (self, wd)
              ∧ t = [add (Ok tt);
                     EDeleteFeatures (src_feat_layer self0)
                       (join ", " (py_str <$> ids)) r])).
Proof.
  unfold add_block. destruct (0 <? length U) eqn:HU.
  2: { apply length_pos_nil in HU. intros [= <- <- <-]. by left. }
  assert (U ≠ []) as Hne by (intros ->; done).
  intros H. right. run_any H.
  2: { left. split; [done|]. eexists. by split_and!. }
  right. split; [done|]. run_any H.
  - run_prim H.
    match goal with u : unit |- _ => destruct u end.
    eexists _, _, _. split_and!; [done..|]. right. split; [done|].
    by eexists.
  - eexists _, _, _. split_and!; [done..|]. left. by eexists.
Qed.

Lemma stale_block_run self0 oid Ms self w r s' t :
  stale_block self0 oid Ms (self, w) = (r, s', t) →
  (Ms = [] ∧ r = Ok tt ∧ s' = (self, w) ∧ t = [])
  ∨ (Ms ≠ [] ∧ ∃ e, oids_of oid Ms = Raise e
       ∧ r = Raise e ∧ s' = (self, w) ∧ t = [])
  ∨ (Ms ≠ [] ∧ ∃ ids wd,
       oids_of oid Ms = Ok ids
       ∧ delete_features (src_feat_layer self0)
           (join ", " (py_str <$> ids)) w = (r, wd)
       ∧ s' = (self, wd)
       ∧ t = [EDeleteFeatures (src_feat_layer self0)
                (join ", " (py_str <$> ids)) r]).
Proof.
  unfold stale_block. destruct (0 <? length Ms) eqn:HM.
  2: { apply length_pos_nil in HM. intros [= <- <- <-]. by left. }
  assert (Ms ≠ []) as Hne by (intros ->; done).
  intros H. right. run_any H.
  2: { left. split; [done|]. eexists. by split_and!. }
  right. split; [done|]. run_prim H. by eexists _, _.
Qed.

(** A run of the import: the comparison and the two reads of the layer
    definitions, then the insert block, then, unless that raised, the block
    for the stale records. *)
Lemma import_features_inv us ut self w r self' w' t :
  import_features us ut (self, w) = (r, (self', w'), t) →
  ∃ pre, Forall is_read pre ∧
    ((t = pre ∧ raised r)
     ∨ ∃ pre0 c sd td w3 ra sa ta,
         pre = pre0 ++ [EDefinition (src_feat_layer self) (Ok sd);
                        EDefinition (tgt_feat_layer self) (Ok td)]
         ∧ self' = set_comp_features c self
         ∧ add_block (set_comp_features c self) (effective_map self)
             (objectIdField sd) (unmatched (src c))
             (set_comp_features c self, w3) = (ra, sa, ta)
         ∧ ((raised ra ∧ r = ra ∧ sa = (self', w') ∧ t = pre ++ ta)
            ∨ (ra = Ok tt ∧ ∃ tb,
                 stale_block (set_comp_features c self) (objectIdField sd)
                   (matched (src c)) sa = (r, (self', w'), tb)
                 ∧ t = pre ++ ta ++ tb))).
Proof.
  rewrite import_features_blocks. intros H.
  apply M_bind_inv in H
    as [(? & [self1 w1] & t1 & t2 & Hc & H & ->) | (? & Hc & ->)].
  2: { apply comp_features_frame in Hc as [_ Hread]. exists t.
       split; [done|]. by left. }
  apply comp_features_frame in Hc as [[c ->] Hread].
  do 2 (run_any H; [|done..]).
  run_any H.
  2: { eexists. split; [|by left]. apply Forall_app. split; [done|].
       by repeat constructor. }
  run_any H.
  2: { eexists. split; [|by left]. apply Forall_app. split; [done|].
       by repeat constructor. }
  match goal with
  | Hs : definition _ _ = (Ok ?sd, _), Ht : definition _ ?w2 = (Ok ?td, ?w3) |- _ =>
      exists (t1 ++ [EDefinition (src_feat_layer self) (Ok sd);
                     EDefinition (tgt_feat_layer self) (Ok td)]);
      split; [apply Forall_app; split; [done|by repeat constructor]|];
      right; exists t1, c, sd, td, w3
  end.
  apply M_bind_inv in H
    as [([] & sa & ta & tb & Ha & Hb & ->) | (e & Ha & ->)].
  - exists (Ok tt), sa, ta. split; [done|].
    assert (self' = set_comp_features c self) as ->.
    { apply add_block_run in Ha.
      destruct sa as [selfa wa]. apply stale_block_run in Hb.
      naive_solver. }
    split; [done|]. split; [done|]. right. split; [done|].
    exists tb. split; [done|]. simpl. by rewrite <-!app_assoc.
  - assert (self' = set_comp_features c self) as ->.
    { apply add_block_run in Ha. naive_solver. }
    eexists (Raise e), _, _. split; [done|]. split; [done|].
    split; [exact Ha|]. left.
    split_and!; [done..|]. simpl. by rewrite <-!app_assoc.
Qed.

Lemma is_read_not_add (pre : list (event L)) l fs res :
  Forall is_read pre → EAddFeatures l fs res ∉ pre.
Proof.
  rewrite Forall_forall. intros Hread Hin. by destruct (Hread _ Hin).
Qed.

(** No insert, or no raising insert, among reads and deletes. *)
Ltac no_add Hin :=
  simpl in Hin; rewrite ?app_nil_r in Hin;
  rewrite ?elem_of_app, ?elem_of_cons, ?elem_of_nil in Hin;
  repeat match type of Hin with _ ∨ _ => destruct Hin as [Hin|Hin] end;
  first [ by apply is_read_not_add in Hin | done ].

Lemma is_read_not_delete (pre : list (event L)) :
  Forall is_read pre → Forall (λ ev, is_delete ev = false) pre.
Proof. intros H. eapply Forall_impl; [done|]. by intros ev [_ ?]. Qed.

(** C3. When the insert of the unmatched source records raises, the import
    raises the same exception, the failed insert is its last layer call, and
    no delete call is made in this run. *)
Theorem import_features_no_premature_delete us ut self w r self' w' t l fs e :
  import_features us ut (self, w) = (r, (self', w'), t) →
  EAddFeatures l fs (Raise e) ∈ t →
  r = Raise e
  ∧ Forall (λ ev, is_delete ev = false) t
  ∧ ∃ pre, t = pre ++ [EAddFeatures l fs (Raise e)].
Proof.
  intros (pre & Hread & Hcases)%import_features_inv Hin.
  destruct Hcases as [[-> _]|Hcases].
  { by apply is_read_not_add in Hin. }
  destruct Hcases as (pre0 & c & sd & td & w3 & ra & sa & ta & Hpre & -> & Ha & Hrest).
  apply add_block_run in Ha as [(_ & -> & -> & ->)|[(_ & e' & _ & -> & -> & ->)|Ha]].
  - destruct Hrest as [([] & _)|(_ & tb & Hb & ->)].
    apply stale_block_run in Hb
      as [(_ & _ & _ & ->)|[(_ & ? & _ & _ & _ & ->)|(_ & ? & ? & _ & _ & _ & ->)]];
      no_add Hin.
  - destruct Hrest as [(_ & _ & _ & ->)|([=] & _)].
    rewrite app_nil_r in Hin. by apply is_read_not_add in Hin.
  - destruct Ha as (_ & ids & ra' & wa & _ & _ & [(e' & -> & -> & -> & ->)|Ha]).
    + destruct Hrest as [(_ & <- & _ & ->)|([=] & _)].
      apply elem_of_app in Hin as [Hin|Hin]; [by apply is_read_not_add in Hin|].
      apply list_elem_of_singleton in Hin as [= -> -> ->].
      split; [done|]. split; [|by eexists].
      apply Forall_app. split; [by apply is_read_not_delete|by repeat constructor].
    + destruct Ha as (_ & wd & _ & -> & ->).
      destruct Hrest as [(_ & _ & _ & ->)|(_ & tb & Hb & ->)]; [no_add Hin|].
      apply stale_block_run in Hb
        as [(_ & _ & _ & ->)|[(_ & ? & _ & _ & _ & ->)|(_ & ? & ? & _ & _ & _ & ->)]];
        no_add Hin.
Qed.

(** A run of the import that returns. *)
Lemma import_features_Ok us ut self w self' w' t :
  import_features us ut (self, w) = (Ok tt, (self', w'), t) →
  ∃ c w1 t1 sd td w2 w3 sa ta tb,
    __comp_features us ut (self, w)
      = (Ok tt, (set_comp_features c self, w1), t1)
    ∧ definition (src_feat_layer self) w1 = (Ok sd, w2)
    ∧ definition (tgt_feat_layer self) w2 = (Ok td, w3)
    ∧ add_block (set_comp_features c self) (effective_map self)
        (objectIdField sd) (unmatched (src c))
        (set_comp_features c self, w3) = (Ok tt, sa, ta)
    ∧ stale_block (set_comp_features c self) (objectIdField sd)
        (matched (src c)) sa = (Ok tt, (self', w'), tb)
    ∧ self' = set_comp_features c self
    ∧ t = t1 ++ [EDefinition (src_feat_layer self) (Ok sd);
                 EDefinition (tgt_feat_layer self) (Ok td)] ++ ta ++ tb.
Proof.
  rewrite import_features_blocks. intros H.
  apply M_bind_Ok_inv in H as ([] & [self1 w1] & t1 & t2 & Hc & H & ->).
  pose proof Hc as [[c ->] _]%comp_features_frame.
  do 4 run_ok H.
  apply M_bind_Ok_inv in H as ([] & sa & ta & tb & Ha & Hb & ->).
  assert (self' = set_comp_features c self) as ->.
  { apply add_block_run in Ha. destruct sa as [selfa wa].
    apply stale_block_run in Hb. naive_solver. }
  by eexists c, _, _, _, _, _, _, sa, ta, tb.
Qed.

(** Where reading a layer leaves the world as it is, so does a comparison,
    whether it returns or raises. *)
Lemma comp_features_keeps_world us ut self w r self' w' t :
  (∀ l w0 r0 w1, definition l w0 = (r0, w1) → w1 = w0) →
  (∀ l a b w0 r0 w1, query_features_batch l a b w0 = (r0, w1) → w1 = w0) →
  __comp_features us ut (self, w) = (r, (self', w'), t) →
  w' = w.
Proof.
  intros Hdefs Hqrys. unfold __comp_features. intros H.
  repeat (run_any H;
          [|(repeat match goal with
                    | Hd : definition _ _ = _ |- _ => apply Hdefs in Hd
                    | Hq : query_features_batch _ _ _ _ = _ |- _ =>
                        apply Hqrys in Hq
                    end; by subst)..]).
  try run_prim H.
  repeat match goal with
         | Hd : definition _ _ = _ |- _ => apply Hdefs in Hd
         | Hq : query_features_batch _ _ _ _ = _ |- _ => apply Hqrys in Hq
         end.
  by subst.
Qed.

(** An import that returns with unmatched source records has inserted them
    and has then deleted them from the source. *)
Lemma import_features_inserts_unmatched us ut self w self' w' t :
  import_features us ut (self, w) = (Ok tt, (self', w'), t) →
  unmatched (src (comp_features self')) ≠ [] →
  ∃ pre sd ids post,
    oids_of (objectIdField sd) (unmatched (src (comp_features self'))) = Ok ids
    ∧ t = pre
          ++ [EAddFeatures (tgt_feat_layer self)
                (insert_payload (effective_map self) (objectIdField sd)
                   (unmatched (src (comp_features self')))) (Ok tt);
              EDeleteFeatures (src_feat_layer self)
                (join ", " (py_str <$> ids)) (Ok tt)]
          ++ post.
Proof.
  intros H HU.
  apply import_features_Ok in H
    as (c & w1 & t1 & sd & td & w2 & w3 & sa & ta & tb
        & _ & _ & _ & Ha & _ & -> & ->).
  simpl in HU.
  apply add_block_run in Ha
    as [(HU' & _)|[(_ & e & _ & [=] & _)|(_ & ids & ra & wa & Hids & _ & Ha)]];
    [by destruct HU|].
  destruct Ha as [(e & _ & [=] & _)|(_ & wd & _ & _ & ->)].
  exists (t1 ++ [EDefinition (src_feat_layer self) (Ok sd);
                 EDefinition (tgt_feat_layer self) (Ok td)]), sd, ids, tb.
  split; [done|]. by rewrite <-!app_assoc.
Qed.

(** A comparison returns when the four reads return and every fetched record
    carries the uid field and the internal-id field of its side. *)
Lemma comp_features_returns us ut self w sd td S T w1 w2 w3 w4 :
  definition (src_feat_layer self) w = (Ok sd, w1) →
  definition (tgt_feat_layer self) w1 = (Ok td, w2) →
  query_features_batch (src_feat_layer self) "1=1" (src_out_fields self) w2
    = (Ok S, w3) →
  query_features_batch (tgt_feat_layer self) "1=1" (tgt_out_fields self) w3
    = (Ok T, w4) →
  Forall (λ f, is_Some (attributes f !! us)
               ∧ is_Some (attributes f !! objectIdField sd)) S →
  Forall (λ f, is_Some (attributes f !! ut)
               ∧ is_Some (attributes f !! objectIdField td)) T →
  ∃ c, compare_records us ut (objectIdField sd) (objectIdField td) S T = Ok c
    ∧ __comp_features us ut (self, w)
      = (Ok tt, (set_comp_features c self, w4),
         [EDefinition (src_feat_layer self) (Ok sd);
          EDefinition (tgt_feat_layer self) (Ok td);
          EQuery (src_feat_layer self) "1=1" (src_out_fields self) (Ok S);
          EQuery (tgt_feat_layer self) "1=1" (tgt_out_fields self) (Ok T)]).
Proof.
  intros Hd1 Hd2 Hq1 Hq2 HS HT.
  destruct (build_index_total us (objectIdField sd) S ∅ HS) as [si Hsi].
  destruct (build_index_total ut (objectIdField td) T ∅ HT) as [ti Hti].
  assert (Forall (λ f, is_Some (attributes f !! us)) S) as HS'
    by (eapply Forall_impl; [done|]; by intros f [? _]).
  assert (Forall (λ f, is_Some (attributes f !! ut)) T) as HT'
    by (eapply Forall_impl; [done|]; by intros f [? _]).
  eexists. split.
  - unfold compare_records. rewrite Hsi, Hti. simpl.
    rewrite !(select_total us _ _ S HS'). simpl.
    rewrite !(select_total ut _ _ T HT'). simpl. reflexivity.
  - unfold __comp_features, src_out_fields, tgt_out_fields, effective_map in *.
    cbv [mbind M_bind __reset_comp_features __get_attr_map get_self modify_comp
         lift_outcome remote call_definition call_query_features_batch
         mret M_ret].
    simpl. rewrite Hd1. simpl. rewrite Hd2. simpl. rewrite Hq1. simpl.
    rewrite Hq2. simpl. rewrite Hsi, Hti. simpl.
    rewrite !(select_total us _ _ S HS'). simpl.
    rewrite !(select_total ut _ _ T HT'). simpl. reflexivity.
Qed.

End importer_facts.

(** ** Exceptions of the layer calls *)

Lemma stops_at_raise_app {L A B} (a : A) (r : outcome B) (t1 t2 : list (event L)) :
  stops_at_raise (Ok a) t1 → stops_at_raise r t2 → stops_at_raise r (t1 ++ t2).
Proof.
  simpl. intros H1. destruct r as [b|e]; simpl.
  - intros H2. by apply Forall_app.
  - intros [H2|(pre & ev & -> & Hpre & Hev)].
    + left. by apply Forall_app.
    + right. exists (t1 ++ pre), ev. rewrite <-app_assoc.
      split; [done|]. split; [by apply Forall_app|done].
Qed.

Lemma fail_fast_bind {L S A B} (m : M L S A) (k : A → M L S B) :
  fail_fast m → (∀ a, fail_fast (k a)) → fail_fast (m ≫= k).
Proof.
  intros Hm Hk s r s' t
    [(a & s1 & t1 & t2 & H1 & H2 & ->)|(e & H1 & ->)]%M_bind_inv.
  - eapply stops_at_raise_app; [by eapply Hm|by eapply Hk].
  - destruct (Hm _ _ _ _ H1) as [?|?]; [by left|by right].
Qed.

Lemma fail_fast_silent {L S A} (m : M L S A) : silent m → fail_fast m.
Proof.
  intros Hm s r s' t H. rewrite (Hm _ _ _ _ H).
  destruct r; simpl; [done|by left].
Qed.

Lemma fail_fast_ret {L S A} (a : A) : fail_fast (mret a : M L S A).
Proof. apply fail_fast_silent, silent_ret. Qed.

Lemma fail_fast_lift_outcome {L S A} (o : outcome A) :
  fail_fast (lift_outcome o : M L S A).
Proof. apply fail_fast_silent, silent_lift_outcome. Qed.

Lemma stops_at_raise_single {L A} (r : outcome A) (ev : event L) :
  event_exn ev = match r with Ok _ => None | Raise e => Some e end →
  stops_at_raise r [ev].
Proof.
  destruct r as [a|e]; simpl; intros Hev.
  - by repeat constructor.
  - right. by exists [], ev.
Qed.

Create HintDb fail_fast discriminated.
#[export] Hint Resolve fail_fast_bind fail_fast_ret fail_fast_lift_outcome
  : fail_fast.

Section importer_exceptions.
Context {L W : Type} `{!FeatureLayer L W}.
Implicit Types (self : FeatureImporter L) (w : W).

Lemma fail_fast_call_definition l : fail_fast (call_definition (W:=W) l).
Proof.
  intros w r w' t. unfold call_definition.
  destruct (definition l w) as [r0 w0]. intros [= <- <- <-].
  apply stops_at_raise_single. by destruct r0.
Qed.

Lemma fail_fast_call_query l a b :
  fail_fast (call_query_features_batch (W:=W) l a b).
Proof.
  intros w r w' t. unfold call_query_features_batch.
  destruct (query_features_batch l a b w) as [r0 w0]. intros [= <- <- <-].
  apply stops_at_raise_single. by destruct r0.
Qed.

Lemma fail_fast_call_add l fs : fail_fast (call_add_features_batch (W:=W) l fs).
Proof.
  intros w r w' t. unfold call_add_features_batch.
  destruct (add_features_batch l fs w) as [r0 w0]. intros [= <- <- <-].
  apply stops_at_raise_single. by destruct r0.
Qed.

Lemma fail_fast_call_delete l ids :
  fail_fast (call_delete_features (W:=W) l ids).
Proof.
  intros w r w' t. unfold call_delete_features.
  destruct (delete_features l ids w) as [r0 w0]. intros [= <- <- <-].
  apply stops_at_raise_single. by destruct r0.
Qed.

Lemma fail_fast_remote {A} (m : M L W A) : fail_fast m → fail_fast (remote m).
Proof.
  intros Hm [self w] r s' t. unfold remote.
  destruct (m w) as [[r0 w0] t0] eqn:Hrun. intros [= <- <- <-].
  by eapply Hm.
Qed.

Lemma fail_fast_get_self : fail_fast (get_self (L:=L) (W:=W)).
Proof. apply fail_fast_silent, silent_get_self. Qed.

Lemma fail_fast_modify_comp f : fail_fast (modify_comp (L:=L) (W:=W) f).
Proof. apply fail_fast_silent, silent_modify_comp. Qed.

Hint Resolve fail_fast_call_definition fail_fast_call_query fail_fast_call_add
  fail_fast_call_delete fail_fast_remote fail_fast_get_self
  fail_fast_modify_comp : fail_fast.

Lemma fail_fast_init ls lt o : fail_fast (__init__ (W:=W) ls lt o).
Proof. unfold __init__, __build_auto_attr_mapper. auto 20 with fail_fast. Qed.

Lemma fail_fast_comp_features us ut :
  fail_fast (__comp_features (L:=L) (W:=W) us ut).
Proof.
  unfold __comp_features, __reset_comp_features, __get_attr_map.
  auto 40 with fail_fast.
Qed.

Lemma fail_fast_import_features us ut :
  fail_fast (import_features (L:=L) (W:=W) us ut).
Proof.
  rewrite import_features_blocks.
  apply fail_fast_bind; [apply fail_fast_comp_features|intros _].
  unfold __get_attr_map.
  do 4 (apply fail_fast_bind; [by auto 10 with fail_fast|intros ?]).
  apply fail_fast_bind; [|intros _].
  - unfold add_block. case_match; auto 10 with fail_fast.
  - unfold stale_block. case_match; auto 10 with fail_fast.
Qed.

Lemma stops_at_raise_last {A} (r : outcome A) (t pre post : list (event L)) ev e :
  stops_at_raise r t →
  t = pre ++ ev :: post →
  event_exn ev = Some e →
  post = [] ∧ r = Raise e.
Proof.
  intros Hstop -> Hev.
  assert (¬ Forall (λ ev0 : event L, event_exn ev0 = None) (pre ++ ev :: post))
    as Hno.
  { rewrite Forall_app, Forall_cons. intros (_ & Hnone & _). congruence. }
  destruct r as [a|e']; simpl in Hstop; [done|].
  destruct Hstop as [?|(pre' & ev' & Heq & Hpre' & Hev')]; [done|].
  destruct post as [|ev2 post _] using rev_ind.
  - apply app_inj_tail in Heq as [-> ->]. split; [done|]. congruence.
  - exfalso. rewrite app_comm_cons, app_assoc in Heq.
    apply app_inj_tail in Heq as [<- _].
    rewrite Forall_app, Forall_cons in Hpre'.
    destruct Hpre' as (_ & Hnone & _). congruence.
Qed.

(** X1. An import stops at the first layer call that raises: a call that
    raised is the last call of the run and the run raises its exception, and
    a run that returns has no call that raised. *)
Theorem import_features_fail_fast us ut self w r st' t :
  import_features us ut (self, w) = (r, st', t) →
  (∀ pre ev post e,
     t = pre ++ ev :: post → event_exn ev = Some e →
     post = [] ∧ r = Raise e)
  ∧ (r = Ok tt → Forall (λ ev, event_exn ev = None) t).
Proof.
  intros H. pose proof (fail_fast_import_features us ut _ _ _ _ H) as Hstop.
  split.
  - intros pre ev post e. by apply stops_at_raise_last.
  - by intros ->.
Qed.

(** X2. The constructor reads the source layer first: when that read raises,
    the constructor raises the same exception, the target layer is not
    called and no instance is built. *)
Theorem init_source_definition_raises ls lt o w e w1 :
  definition ls w = (Raise e, w1) →
  __init__ ls lt o w = (Raise e, w1, [EDefinition ls (Raise e)]).
Proof.
  intros H1. unfold __init__, __build_auto_attr_mapper.
  cbv [mbind M_bind call_definition mret M_ret]. by rewrite H1.
Qed.

End importer_exceptions.

(** ** More on the comparison *)

Lemma build_index_size uid oid fs acc m :
  build_index uid oid fs acc = Ok m → size m ≤ size acc + length fs.
Proof.
  revert acc. induction fs as [|f fs IH]; intros acc; simpl.
  { intros [= <-]. lia. }
  intros (k & _ & H)%outcome_bind_Ok.
  apply outcome_bind_Ok in H as (v & _ & H). apply IH in H.
  rewrite map_size_insert in H. destruct (acc !! k); simpl in H; lia.
Qed.

(** The index cannot be built when a record lacks one of the two fields: the
    first such record decides which [KeyError] is raised. *)
Lemma build_index_raise uid oid fs acc :
  Exists (λ f, attributes f !! uid = None ∨ attributes f !! oid = None) fs →
  ∃ k, (k = uid ∨ k = oid) ∧ build_index uid oid fs acc = Raise (KeyError k).
Proof.
  revert acc. induction fs as [|f fs IH]; intros acc Hex.
  { by apply Exists_nil in Hex. }
  simpl. unfold getitem.
  destruct (attributes f !! uid) as [u|] eqn:Hu; simpl.
  2: { exists uid. by split; [left|]. }
  destruct (attributes f !! oid) as [o|] eqn:Ho; simpl.
  2: { exists oid. by split; [right|]. }
  apply IH. apply Exists_cons in Hex as [[?|?]|?]; congruence || done.
Qed.

Section importer_comparison.
Context {L W : Type} `{!FeatureLayer L W}.
Implicit Types (self : FeatureImporter L) (w : W).

Lemma classified_true_iff us ut oid T idx f :
  build_index ut oid T ∅ = Ok idx →
  classified us true idx f
  ↔ ∃ g u, g ∈ T ∧ attributes f !! us = Some u ∧ attributes g !! ut = Some u.
Proof.
  intros Hidx. unfold classified, contains.
  pose proof (build_index_dom _ _ _ _ Hidx) as Hdom. split.
  - destruct (attributes f !! us) as [u|] eqn:Hu; [|done]. simpl.
    intros [= Hc%bool_decide_eq_true]. apply Hdom in Hc as (g & Hg & Hgu).
    by exists g, u.
  - intros (g & u & Hg & -> & Hgu). simpl. f_equal.
    apply bool_decide_eq_true, Hdom. by exists g.
Qed.

(** X3. After a comparison a source record is matched exactly when some
    fetched target record carries its uid value, and unmatched exactly when
    none does; the same holds for the target records against the source
    records; and the two matched lists are empty together. *)
Theorem comp_features_matched_iff us ut self w self' w' t :
  __comp_features us ut (self, w) = (Ok tt, (self', w'), t) →
  ∃ sd td S T,
    t = [EDefinition (src_feat_layer self) (Ok sd);
         EDefinition (tgt_feat_layer self) (Ok td);
         EQuery (src_feat_layer self) "1=1" (src_out_fields self) (Ok S);
         EQuery (tgt_feat_layer self) "1=1" (tgt_out_fields self) (Ok T)]
    ∧ (∀ f, f ∈ matched (src (comp_features self'))
            ↔ f ∈ S ∧ ∃ g u, g ∈ T ∧ attributes f !! us = Some u
                             ∧ attributes g !! ut = Some u)
    ∧ (∀ f, f ∈ unmatched (src (comp_features self'))
            ↔ f ∈ S ∧ ¬ ∃ g u, g ∈ T ∧ attributes f !! us = Some u
                               ∧ attributes g !! ut = Some u)
    ∧ (∀ g, g ∈ matched (tgt (comp_features self'))
            ↔ g ∈ T ∧ ∃ f u, f ∈ S ∧ attributes g !! ut = Some u
                             ∧ attributes f !! us = Some u)
    ∧ (∀ g, g ∈ unmatched (tgt (comp_features self'))
            ↔ g ∈ T ∧ ¬ ∃ f u, f ∈ S ∧ attributes g !! ut = Some u
                               ∧ attributes f !! us = Some u)
    ∧ (matched (src (comp_features self')) = []
       ↔ matched (tgt (comp_features self')) = []).
Proof.
  intros (sd & td & S & T & w1 & w2 & w3 & c & _ & _ & _ & _ & -> & Hc & ->)
    %comp_features_Ok.
  exists sd, td, S, T. split; [done|]. simpl.
  apply compare_records_Ok in Hc
    as (Hsi & Hti & HsM & HsU & HtM & HtU & HS & HT).
  rewrite Forall_forall in HS, HT.
  assert (∀ f, f ∈ matched (src c)
            ↔ f ∈ S ∧ ∃ g u, g ∈ T ∧ attributes f !! us = Some u
                             ∧ attributes g !! ut = Some u) as HM1.
  { intros f. rewrite HsM, list_elem_of_filter.
    rewrite (classified_true_iff us ut _ T _ f Hti). tauto. }
  assert (∀ g, g ∈ matched (tgt c)
            ↔ g ∈ T ∧ ∃ f u, f ∈ S ∧ attributes g !! ut = Some u
                             ∧ attributes f !! us = Some u) as HM2.
  { intros g. rewrite HtM, list_elem_of_filter.
    rewrite (classified_true_iff ut us _ S _ g Hsi). tauto. }
  split_and!; [done| |done| |].
  - intros f. rewrite HsU, list_elem_of_filter.
    rewrite <-(classified_true_iff us ut _ T _ f Hti). split.
    + intros [Hf Hin]. split; [done|].
      pose proof (classified_cases us (index (tgt c)) f (HS f Hin)). tauto.
    + intros [Hin Hf]. split; [|done].
      pose proof (classified_cases us (index (tgt c)) f (HS f Hin)).
      destruct (decide (classified us false (index (tgt c)) f)); [done|].
      tauto.
  - intros g. rewrite HtU, list_elem_of_filter.
    rewrite <-(classified_true_iff ut us _ S _ g Hsi). split.
    + intros [Hg Hin]. split; [done|].
      pose proof (classified_cases ut (index (src c)) g (HT g Hin)). tauto.
    + intros [Hin Hg]. split; [|done].
      pose proof (classified_cases ut (index (src c)) g (HT g Hin)).
      destruct (decide (classified ut false (index (src c)) g)); [done|].
      tauto.
  - split; intros Hnil.
    + apply elem_of_nil_inv. intros g (Hg & f & u & Hf & Hgu & Hfu)%HM2.
      assert (f ∈ matched (src c)) as Hin by (apply HM1; eauto 7).
      rewrite Hnil in Hin. by apply elem_of_nil in Hin.
    + apply elem_of_nil_inv. intros f (Hf & g & u & Hg & Hfu & Hgu)%HM1.
      assert (g ∈ matched (tgt c)) as Hin by (apply HM2; eauto 7).
      rewrite Hnil in Hin. by apply elem_of_nil in Hin.
Qed.

(** X4. After a comparison the keys of the index of a side are exactly the
    uid values of the records fetched from that side, so the index has at
    most as many entries as records were fetched, and every entry holds the
    internal id of a fetched record with that uid value. *)
Theorem comp_features_index_keys us ut self w self' w' t :
  __comp_features us ut (self, w) = (Ok tt, (self', w'), t) →
  ∃ sd td S T,
    t = [EDefinition (src_feat_layer self) (Ok sd);
         EDefinition (tgt_feat_layer self) (Ok td);
         EQuery (src_feat_layer self) "1=1" (src_out_fields self) (Ok S);
         EQuery (tgt_feat_layer self) "1=1" (tgt_out_fields self) (Ok T)]
    ∧ (∀ u, u ∈ dom (index (src (comp_features self')))
            ↔ ∃ f, f ∈ S ∧ attributes f !! us = Some u)
    ∧ (∀ u, u ∈ dom (index (tgt (comp_features self')))
            ↔ ∃ g, g ∈ T ∧ attributes g !! ut = Some u)
    ∧ size (index (src (comp_features self'))) ≤ length S
    ∧ size (index (tgt (comp_features self'))) ≤ length T
    ∧ (∀ u o, index (src (comp_features self')) !! u = Some o →
         ∃ f, f ∈ S ∧ attributes f !! us = Some u
              ∧ attributes f !! objectIdField sd = Some o)
    ∧ (∀ u o, index (tgt (comp_features self')) !! u = Some o →
         ∃ g, g ∈ T ∧ attributes g !! ut = Some u
              ∧ attributes g !! objectIdField td = Some o).
Proof.
  intros (sd & td & S & T & w1 & w2 & w3 & c & _ & _ & _ & _ & -> & Hc & ->)
    %comp_features_Ok.
  exists sd, td, S, T. split; [done|]. simpl.
  apply compare_records_Ok in Hc as (Hsi & Hti & _).
  assert (∀ uid oid fs m u o,
            build_index uid oid fs ∅ = Ok m → m !! u = Some o →
            ∃ f, f ∈ fs ∧ attributes f !! uid = Some u
                 ∧ attributes f !! oid = Some o) as Hval.
  { intros uid oid fs m u o [_ Hm]%build_index_Ok. rewrite Hm.
    destruct (last _) as [f|] eqn:Hlast; [|by rewrite lookup_empty].
    apply last_Some_elem_of, list_elem_of_filter in Hlast as [Hf Hin].
    intros Ho. by exists f. }
  split_and!.
  - intros u. rewrite elem_of_dom. by eapply build_index_dom.
  - intros u. rewrite elem_of_dom. by eapply build_index_dom.
  - apply build_index_size in Hsi. by rewrite map_size_empty in Hsi.
  - apply build_index_size in Hti. by rewrite map_size_empty in Hti.
  - intros u o. by eapply Hval.
  - intros u o. by eapply Hval.
Qed.

(** X5. The matched and the unmatched list of a side keep the order in which
    the records were fetched: each is a subsequence of the fetched list. *)
Theorem comp_features_keeps_order us ut self w self' w' t :
  __comp_features us ut (self, w) = (Ok tt, (self', w'), t) →
  ∃ sd td S T,
    t = [EDefinition (src_feat_layer self) (Ok sd);
         EDefinition (tgt_feat_layer self) (Ok td);
         EQuery (src_feat_layer self) "1=1" (src_out_fields self) (Ok S);
         EQuery (tgt_feat_layer self) "1=1" (tgt_out_fields self) (Ok T)]
    ∧ matched (src (comp_features self')) `sublist_of` S
    ∧ unmatched (src (comp_features self')) `sublist_of` S
    ∧ matched (tgt (comp_features self')) `sublist_of` T
    ∧ unmatched (tgt (comp_features self')) `sublist_of` T.
Proof.
  intros (sd & td & S & T & w1 & w2 & w3 & c & _ & _ & _ & _ & -> & Hc & ->)
    %comp_features_Ok.
  exists sd, td, S, T. split; [done|]. simpl.
  apply compare_records_Ok in Hc as (_ & _ & -> & -> & -> & -> & _).
  split_and!; apply sublist_filter.
Qed.

(** X6. When the four reads of a comparison return and a fetched source
    record lacks the source uid field or the source internal-id field, the
    comparison raises a [KeyError] for one of these two field names, after
    both queries, and leaves the empty comparison state. *)
Theorem comp_features_source_key_error us ut self w sd td S T w1 w2 w3 w4 :
  definition (src_feat_layer self) w = (Ok sd, w1) →
  definition (tgt_feat_layer self) w1 = (Ok td, w2) →
  query_features_batch (src_feat_layer self) "1=1" (src_out_fields self) w2
    = (Ok S, w3) →
  query_features_batch (tgt_feat_layer self) "1=1" (tgt_out_fields self) w3
    = (Ok T, w4) →
  Exists (λ f, attributes f !! us = None
               ∨ attributes f !! objectIdField sd = None) S →
  ∃ k, (k = us ∨ k = objectIdField sd)
    ∧ __comp_features us ut (self, w)
      = (Raise (KeyError k), (set_comp_features empty_comp self, w4),
         [EDefinition (src_feat_layer self) (Ok sd);
          EDefinition (tgt_feat_layer self) (Ok td);
          EQuery (src_feat_layer self) "1=1" (src_out_fields self) (Ok S);
          EQuery (tgt_feat_layer self) "1=1" (tgt_out_fields self) (Ok T)]).
Proof.
  intros Hd1 Hd2 Hq1 Hq2 Hex.
  destruct (build_index_raise us (objectIdField sd) S ∅ Hex) as (k & Hk & Hb).
  exists k. split; [done|].
  unfold __comp_features, src_out_fields, tgt_out_fields, effective_map in *.
  cbv [mbind M_bind __reset_comp_features __get_attr_map get_self modify_comp
       lift_outcome remote call_definition call_query_features_batch
       mret M_ret].
  simpl. rewrite Hd1. simpl. rewrite Hd2. simpl. rewrite Hq1. simpl.
  rewrite Hq2. simpl. by rewrite Hb.
Qed.

(** X7. When the source records carry their two fields and a fetched target
    record lacks the target uid field or the target internal-id field, the
    comparison raises a [KeyError] for one of these two names and leaves a
    partly built state: the new source index, an empty target index and four
    empty lists. *)
Theorem comp_features_target_key_error us ut self w sd td S T w1 w2 w3 w4 :
  definition (src_feat_layer self) w = (Ok sd, w1) →
  definition (tgt_feat_layer self) w1 = (Ok td, w2) →
  query_features_batch (src_feat_layer self) "1=1" (src_out_fields self) w2
    = (Ok S, w3) →
  query_features_batch (tgt_feat_layer self) "1=1" (tgt_out_fields self) w3
    = (Ok T, w4) →
  Forall (λ f, is_Some (attributes f !! us)
               ∧ is_Some (attributes f !! objectIdField sd)) S →
  Exists (λ g, attributes g !! ut = None
               ∨ attributes g !! objectIdField td = None) T →
  ∃ k si, (k = ut ∨ k = objectIdField td)
    ∧ build_index us (objectIdField sd) S ∅ = Ok si
    ∧ __comp_features us ut (self, w)
      = (Raise (KeyError k),
         (set_comp_features (Comp (SideComp si [] []) (SideComp ∅ [] [])) self,
          w4),
         [EDefinition (src_feat_layer self) (Ok sd);
          EDefinition (tgt_feat_layer self) (Ok td);
          EQuery (src_feat_layer self) "1=1" (src_out_fields self) (Ok S);
          EQuery (tgt_feat_layer self) "1=1" (tgt_out_fields self) (Ok T)]).
Proof.
  intros Hd1 Hd2 Hq1 Hq2 HS Hex.
  destruct (build_index_total us (objectIdField sd) S ∅ HS) as [si Hsi].
  destruct (build_index_raise ut (objectIdField td) T ∅ Hex) as (k & Hk & Hb).
  exists k, si. split; [done|]. split; [done|].
  unfold __comp_features, src_out_fields, tgt_out_fields, effective_map in *.
  cbv [mbind M_bind __reset_comp_features __get_attr_map get_self modify_comp
       lift_outcome remote call_definition call_query_features_batch
       mret M_ret].
  simpl. rewrite Hd1. simpl. rewrite Hd2. simpl. rewrite Hq1. simpl.
  rewrite Hq2. simpl. rewrite Hsi. simpl. by rewrite Hb.
Qed.

(** X8. A comparison returns whenever its four reads return and every
    fetched record carries the uid field and the internal-id field of its
    side; the state it leaves is the comparison of the two fetched lists. *)
Theorem comp_features_total us ut self w sd td S T w1 w2 w3 w4 :
  definition (src_feat_layer self) w = (Ok sd, w1) →
  definition (tgt_feat_layer self) w1 = (Ok td, w2) →
  query_features_batch (src_feat_layer self) "1=1" (src_out_fields self) w2
    = (Ok S, w3) →
  query_features_batch (tgt_feat_layer self) "1=1" (tgt_out_fields self) w3
    = (Ok T, w4) →
  Forall (λ f, is_Some (attributes f !! us)
               ∧ is_Some (attributes f !! objectIdField sd)) S →
  Forall (λ f, is_Some (attributes f !! ut)
               ∧ is_Some (attributes f !! objectIdField td)) T →
  ∃ c, compare_records us ut (objectIdField sd) (objectIdField td) S T = Ok c
    ∧ __comp_features us ut (self, w)
      = (Ok tt, (set_comp_features c self, w4),
         [EDefinition (src_feat_layer self) (Ok sd);
          EDefinition (tgt_feat_layer self) (Ok td);
          EQuery (src_feat_layer self) "1=1" (src_out_fields self) (Ok S);
          EQuery (tgt_feat_layer self) "1=1" (tgt_out_fields self) (Ok T)]).
Proof. apply comp_features_returns. Qed.

End importer_comparison.

(** ** More on the import *)

Lemma oids_of_fmap oid fs ids :
  oids_of oid fs = Ok ids →
  ids = oid_of oid <$> fs ∧ Forall (λ f, is_Some (attributes f !! oid)) fs.
Proof.
  revert ids. induction fs as [|f fs IH]; simpl; intros ids.
  { by intros [= <-]. }
  intros (o & Ho%getitem_Ok & H)%outcome_bind_Ok.
  apply outcome_bind_Ok in H as (rest & Hrest & [= <-]).
  destruct (IH _ Hrest) as [-> Hall]. split.
  - simpl. f_equal. unfold oid_of. by rewrite Ho.
  - constructor; [by exists o|done].
Qed.

Lemma oids_of_total oid fs :
  Forall (λ f, is_Some (attributes f !! oid)) fs →
  oids_of oid fs = Ok (oid_of oid <$> fs).
Proof.
  induction 1 as [|f fs [o Ho] _ IH]; [done|]. simpl.
  unfold getitem. rewrite Ho. simpl. rewrite IH. simpl.
  do 2 f_equal. unfold oid_of. by rewrite Ho.
Qed.

(** The ids the comprehension reads are the values the records hold under
    the internal-id field, in the order of the records. *)
Lemma oids_of_Forall2 oid fs ids :
  oids_of oid fs = Ok ids →
  Forall2 (λ f o, attributes f !! oid = Some o) fs ids.
Proof.
  revert ids. induction fs as [|f fs IH]; simpl; intros ids.
  { intros [= <-]. constructor. }
  intros (o & Ho%getitem_Ok & H)%outcome_bind_Ok.
  apply outcome_bind_Ok in H as (rest & Hrest & [= <-]).
  constructor; [done|by apply IH].
Qed.

Section importer_import.
Context {L W : Type} `{!FeatureLayer L W}.
Implicit Types (self : FeatureImporter L) (w : W).

(** The runs of the import, with the run of its comparison. *)
Lemma import_features_cases us ut self w r self' w' t :
  import_features us ut (self, w) = (r, (self', w'), t) →
  (∃ e, __comp_features us ut (self, w) = (Raise e, (self', w'), t)
        ∧ r = Raise e)
  ∨ ∃ c w1 t1,
      __comp_features us ut (self, w)
        = (Ok tt, (set_comp_features c self, w1), t1)
      ∧ self' = set_comp_features c self
      ∧ ((∃ e, definition (src_feat_layer self) w1 = (Raise e, w')
               ∧ r = Raise e
               ∧ t = t1 ++ [EDefinition (src_feat_layer self) (Raise e)])
         ∨ ∃ sd w2,
             definition (src_feat_layer self) w1 = (Ok sd, w2)
             ∧ ((∃ e, definition (tgt_feat_layer self) w2 = (Raise e, w')
                      ∧ r = Raise e
                      ∧ t = t1 ++ [EDefinition (src_feat_layer self) (Ok sd);
                                   EDefinition (tgt_feat_layer self) (Raise e)])
                ∨ ∃ td w3 ra sa ta,
                    definition (tgt_feat_layer self) w2 = (Ok td, w3)
                    ∧ add_block (set_comp_features c self) (effective_map self)
                        (objectIdField sd) (unmatched (src c))
                        (set_comp_features c self, w3) = (ra, sa, ta)
                    ∧ ((raised ra ∧ r = ra
                        ∧ sa = (set_comp_features c self, w')
                        ∧ t = t1 ++ [EDefinition (src_feat_layer self) (Ok sd);
                                     EDefinition (tgt_feat_layer self) (Ok td)]
                                 ++ ta)
                       ∨ (ra = Ok tt ∧ ∃ tb,
                            stale_block (set_comp_features c self)
                              (objectIdField sd) (matched (src c)) sa
                            = (r, (set_comp_features c self, w'), tb)
                            ∧ t = t1
                                  ++ [EDefinition (src_feat_layer self) (Ok sd);
                                      EDefinition (tgt_feat_layer self) (Ok td)]
                                  ++ ta ++ tb)))).
Proof.
  rewrite import_features_blocks. intros H.
  apply M_bind_inv in H
    as [([] & [self1 w1] & t1 & t2 & Hc & H & ->) | (e & Hc & ->)].
  2: { left. by exists e. }
  right. pose proof Hc as [[c ->] _]%comp_features_frame.
  exists c, w1, t1. split; [done|].
  do 2 (run_any H; [|done..]).
  run_any H.
  2: { split; [done|]. left. eexists. by split_and!. }
  run_any H.
  2: { split; [done|]. right. eexists _, _. split; [done|]. left.
       eexists. by split_and!. }
  apply M_bind_inv in H
    as [([] & sa & ta & tb & Ha & Hb & ->) | (e & Ha & ->)].
  - assert (self' = set_comp_features c self) as ->.
    { apply add_block_run in Ha. destruct sa as [selfa wa].
      apply stale_block_run in Hb. naive_solver. }
    split; [done|]. right. eexists _, _. split; [done|]. right.
    eexists _, _, (Ok tt), sa, ta. split; [done|]. split; [done|].
    right. split; [done|]. exists tb. split; [done|].
    simpl. by rewrite <-?app_assoc.
  - assert (self' = set_comp_features c self) as ->.
    { apply add_block_run in Ha. naive_solver. }
    split; [done|]. right. eexists _, _. split; [done|]. right.
    eexists _, _, (Raise e), _, _. split; [done|]. split; [exact Ha|].
    left. split_and!; [done..|]. simpl. by rewrite <-?app_assoc.
Qed.

(** X9. Whatever its outcome, an import leaves the two layers and the two
    attribute mappers of the instance as they were: only the comparison
    state changes, and the effective attribute map stays the same. *)
Theorem import_features_frame us ut self w r self' w' t :
  import_features us ut (self, w) = (r, (self', w'), t) →
  src_feat_layer self' = src_feat_layer self
  ∧ tgt_feat_layer self' = tgt_feat_layer self
  ∧ cust_attr_mapper self' = cust_attr_mapper self
  ∧ auto_attr_mapper self' = auto_attr_mapper self
  ∧ effective_map self' = effective_map self.
Proof.
  intros [(e & Hc & _)|(c & w1 & t1 & _ & -> & _)]%import_features_cases.
  - by apply comp_features_frame in Hc as [[c ->] _].
  - done.
Qed.

Lemma reads_no_write (pre : list (event L)) ls lt :
  Forall is_read pre →
  Forall (λ ev, is_write ev = false) pre
  ∧ Forall (write_target ls lt) pre
  ∧ filter (λ ev, is_add ev = true) pre = []
  ∧ filter (λ ev, is_delete ev = true) pre = [].
Proof.
  induction 1 as [|ev pre [Ha Hd] _ (IH1 & IH2 & IH3 & IH4)]; [done|].
  split_and!.
  - constructor; [|done]. unfold is_write. by rewrite Ha, Hd.
  - constructor; [|done]. by destruct ev.
  - rewrite filter_cons. by rewrite decide_False by congruence.
  - rewrite filter_cons. by rewrite decide_False by congruence.
Qed.

(** The calls of the insert block. *)
Lemma add_block_events self0 attr_map oid U self w r s' ta :
  add_block self0 attr_map oid U (self, w) = (r, s', ta) →
  let add := EAddFeatures (tgt_feat_layer self0)
               (insert_payload attr_map oid U) in
  let del := EDeleteFeatures (src_feat_layer self0)
               (join ", " (py_str <$> (oid_of oid <$> U))) in
  (ta = [] ∧ (r = Ok tt → U = []))
  ∨ (∃ e, ta = [add (Raise e)] ∧ r = Raise e)
  ∨ (U ≠ [] ∧ ta = [add (Ok tt); del r]
     ∧ Forall (λ f, is_Some (attributes f !! oid)) U).
Proof.
  intros Ha add del.
  apply add_block_run in Ha
    as [(-> & -> & _ & ->)|[(_ & e & _ & -> & _ & ->)|Ha]].
  - by left.
  - by left.
  - destruct Ha as (HU & ids & ra & wa & Hids & _ & Ha).
    apply oids_of_fmap in Hids as [-> Hall].
    destruct Ha as [(e & -> & -> & _ & ->)|(-> & wd & _ & _ & ->)].
    + right. left. by exists e.
    + right. right. by split_and!.
Qed.

(** The calls of the block for the stale records. *)
Lemma stale_block_events self0 oid Ms self w r s' tb :
  stale_block self0 oid Ms (self, w) = (r, s', tb) →
  (tb = [] ∧ (r = Ok tt → Ms = []))
  ∨ (Ms ≠ []
     ∧ tb = [EDeleteFeatures (src_feat_layer self0)
               (join ", " (py_str <$> (oid_of oid <$> Ms))) r]
     ∧ Forall (λ f, is_Some (attributes f !! oid)) Ms).
Proof.
  intros Hb.
  apply stale_block_run in Hb
    as [(-> & -> & _ & ->)|[(_ & e & _ & -> & _ & ->)|Hb]].
  - by left.
  - by left.
  - destruct Hb as (HM & ids & wd & Hids & _ & _ & ->).
    apply oids_of_fmap in Hids as [-> Hall]. right. by split_and!.
Qed.

(** C6. When a comparison leaves a non-empty list of unmatched source
    records, the two layer definitions can be read and every unmatched record
    carries the source internal-id field, the import makes one insert call,
    on the target layer, right after these reads.  Its records are the
    unmatched source records renamed by the effective attribute map and then
    without the source internal-id field, one for one: an inserted record
    holds nothing but renamed attributes of its source record, and holds
    every mapped attribute whose new name is not shared and is not the
    internal-id field.  The captured ids are the values the unmatched records
    hold under the internal-id field as they were fetched, which the inserted
    records no longer hold.  When the insert raises, the run ends with its
    exception; when it returns, the next call is the delete of exactly the
    captured ids on the source layer, and no further insert follows. *)
Theorem import_features_insert_payload us ut self w self1 w1 t1 sd td w2 w3 :
  __comp_features us ut (self, w) = (Ok tt, (self1, w1), t1) →
  definition (src_feat_layer self) w1 = (Ok sd, w2) →
  definition (tgt_feat_layer self) w2 = (Ok td, w3) →
  unmatched (src (comp_features self1)) ≠ [] →
  Forall (λ f, is_Some (attributes f !! objectIdField sd))
    (unmatched (src (comp_features self1))) →
  ∃ fs ids res w4 r st' post,
    fs = remove_attributes [objectIdField sd]
           (replace_attributes (effective_map self)
              (unmatched (src (comp_features self1))))
    ∧ Forall2 (λ f o, attributes f !! objectIdField sd = Some o)
        (unmatched (src (comp_features self1))) ids
    ∧ add_features_batch (tgt_feat_layer self) fs w3 = (res, w4)
    ∧ import_features us ut (self, w)
      = (r, st',
         t1 ++ [EDefinition (src_feat_layer self) (Ok sd);
                EDefinition (tgt_feat_layer self) (Ok td);
                EAddFeatures (tgt_feat_layer self) fs res] ++ post)
    ∧ Forall is_read t1
    ∧ length fs = length (unmatched (src (comp_features self1)))
    ∧ Forall (λ f, attributes f !! objectIdField sd = None) fs
    ∧ (∀ i f f' k' v,
         unmatched (src (comp_features self1)) !! i = Some f →
         fs !! i = Some f' →
         attributes f' !! k' = Some v →
         k' ≠ objectIdField sd
         ∧ ∃ k, effective_map self !! k = Some k' ∧ attributes f !! k = Some v)
    ∧ (∀ i f f' k k' v,
         unmatched (src (comp_features self1)) !! i = Some f →
         fs !! i = Some f' →
         effective_map self !! k = Some k' →
         attributes f !! k = Some v →
         k' ≠ objectIdField sd →
         (∀ k2, is_Some (attributes f !! k2) →
                effective_map self !! k2 = Some k' → k2 = k) →
         attributes f' !! k' = Some v)
    ∧ ((∃ e, res = Raise e ∧ r = Raise e ∧ post = [])
       ∨ (res = Ok tt ∧ ∃ rd post',
            post = EDeleteFeatures (src_feat_layer self)
                     (join ", " (py_str <$> ids)) rd :: post'
            ∧ Forall (λ ev, is_add ev = false) post')).
Proof.
  intros Hc Hd1 Hd2 HU Hall.
  pose proof Hc as [_ Hread]%comp_features_frame.
  destruct (import_features us ut (self, w)) as [[r [self' w']] t] eqn:Hrun.
  apply import_features_cases in Hrun
    as [(e & Hc' & _)|(c & w1' & t1' & Hc' & -> & Hrest)]; [congruence|].
  rewrite Hc in Hc'. injection Hc' as -> <- <-.
  destruct Hrest as [(e & Hd & _)|(sd' & w2' & Hd1' & Hrest)]; [congruence|].
  rewrite Hd1 in Hd1'. injection Hd1' as <- <-.
  destruct Hrest
    as [(e & Hd & _)|(td' & w3' & ra & sa & ta & Hd2' & Ha & Hrest)];
    [congruence|].
  rewrite Hd2 in Hd2'. injection Hd2' as <- <-.
  cbn [comp_features set_comp_features] in HU, Hall |- *.
  apply add_block_run in Ha
    as [(HU0 & _)|[(_ & e & Hids & _)
                  |(_ & ids & ra' & wa & Hids & Hadd & Ha)]]; [done| |].
  { by rewrite (oids_of_total _ _ Hall) in Hids. }
  apply oids_of_Forall2 in Hids.
  cbn [src_feat_layer tgt_feat_layer set_comp_features] in Hadd, Ha.
  assert (∃ post,
            t = t1 ++ [EDefinition (src_feat_layer self) (Ok sd);
                       EDefinition (tgt_feat_layer self) (Ok td);
                       EAddFeatures (tgt_feat_layer self)
                         (insert_payload (effective_map self)
                            (objectIdField sd) (unmatched (src c))) ra']
                    ++ post
            ∧ ((∃ e, ra' = Raise e ∧ r = Raise e ∧ post = [])
               ∨ (ra' = Ok tt ∧ ∃ rd post',
                    post = EDeleteFeatures (src_feat_layer self)
                             (join ", " (py_str <$> ids)) rd :: post'
                    ∧ Forall (λ ev, is_add ev = false) post')))
    as (post & -> & Hpost).
  { destruct Ha as [(e & -> & -> & -> & ->)|(-> & wd & _ & -> & ->)].
    - destruct Hrest as [(_ & -> & _ & ->)|([=] & _)].
      exists []. split; [done|]. left. by exists e.
    - destruct Hrest as [(_ & _ & _ & ->)|(_ & tb & Hb & ->)].
      + eexists. split; [done|]. right. split; [done|]. by eexists _, [].
      + apply stale_block_events in Hb.
        eexists. split; [done|]. right. split; [done|]. eexists _, tb.
        split; [done|].
        destruct Hb as [[-> _]|(_ & -> & _)]; by repeat constructor. }
  exists (insert_payload (effective_map self) (objectIdField sd)
            (unmatched (src c))).
  eexists ids, ra', wa, r, _, post. split_and!; try done.
  - apply insert_payload_length.
  - apply insert_payload_no_oid.
  - intros i f f' k' v. apply insert_payload_attributes.
  - intros i f f' k k' v Hf. rewrite insert_payload_lookup, Hf.
    intros [= <-] Hk Hv Hne Huniq. simpl.
    rewrite lookup_delete_ne by done. by eapply rename_attributes_lookup.
Qed.

(** X10. An import writes only after it has read everything: when the log
    of a run holds an insert or a delete, the four reads of the comparison
    and the two reads of the layer definitions that follow have all
    returned, in this order, and every later call is a write. *)
Theorem import_features_writes_after_reads us ut self w r self' w' t :
  import_features us ut (self, w) = (r, (self', w'), t) →
  Exists (λ ev, is_write ev = true) t →
  ∃ sd0 td0 S T sd td rest,
    t = [EDefinition (src_feat_layer self) (Ok sd0);
         EDefinition (tgt_feat_layer self) (Ok td0);
         EQuery (src_feat_layer self) "1=1" (src_out_fields self) (Ok S);
         EQuery (tgt_feat_layer self) "1=1" (tgt_out_fields self) (Ok T);
         EDefinition (src_feat_layer self) (Ok sd);
         EDefinition (tgt_feat_layer self) (Ok td)] ++ rest
    ∧ rest ≠ []
    ∧ Forall (λ ev, is_write ev = true) rest.
Proof.
  intros Hrun Hex.
  assert (∀ l : list (event L),
            Forall (λ ev, is_write ev = false) l →
            ¬ Exists (λ ev, is_write ev = true) l) as Hno.
  { intros l Hall Hex'. apply Exists_exists in Hex' as (ev & Hin & Hev).
    rewrite Forall_forall in Hall. specialize (Hall _ Hin). congruence. }
  apply import_features_cases in Hrun
    as [(e & Hc & _)|(c & w1 & t1 & Hc & -> & Hrest)].
  { apply comp_features_frame in Hc as [_ Hread].
    destruct (Hno t); [|done].
    by apply (reads_no_write t (src_feat_layer self) (tgt_feat_layer self)). }
  apply comp_features_Ok in Hc
    as (sd0 & td0 & S & T & wa & wb & wc & c' & _ & _ & _ & _ & -> & _ & _).
  destruct Hrest as [(e & _ & _ & ->)|(sd & w2 & _ & Hrest)].
  { exfalso. revert Hex. apply Hno. simpl. by repeat constructor. }
  destruct Hrest as [(e & _ & _ & ->)|(td & w3 & ra & sa & ta & _ & Ha & Hrest)].
  { exfalso. revert Hex. apply Hno. simpl. by repeat constructor. }
  exists sd0, td0, S, T, sd, td.
  apply add_block_events in Ha.
  destruct Hrest as [(_ & _ & _ & ->)|(_ & tb & Hb & ->)].
  - exists ta. split; [done|].
    destruct Ha as [[-> _]|[(e & -> & _)|(_ & -> & _)]].
    + exfalso. revert Hex. apply Hno. simpl. by repeat constructor.
    + split; [done|]. by repeat constructor.
    + split; [done|]. by repeat constructor.
  - destruct sa as [selfa wa']. apply stale_block_events in Hb.
    exists (ta ++ tb). split; [done|].
    destruct Ha as [[-> _]|[(e & -> & _)|(_ & -> & _)]];
      destruct Hb as [[-> _]|(_ & -> & _)]; simpl.
    all: try (split; [done|]; by repeat constructor).
    exfalso. revert Hex. apply Hno. simpl. by repeat constructor.
Qed.

(** X11. Every insert of an import goes to the target layer and every delete
    to the source layer: the import never deletes from the target and never
    inserts into the source.  A run makes at most one insert call and at most
    two delete calls. *)
Theorem import_features_call_targets us ut self w r self' w' t :
  import_features us ut (self, w) = (r, (self', w'), t) →
  Forall (write_target (src_feat_layer self) (tgt_feat_layer self)) t
  ∧ length (filter (λ ev, is_add ev = true) t) ≤ 1
  ∧ length (filter (λ ev, is_delete ev = true) t) ≤ 2.
Proof.
  intros (pre & Hread & Hcases)%import_features_inv.
  destruct (reads_no_write pre (src_feat_layer self) (tgt_feat_layer self) Hread)
    as (_ & Htgt & Hadd & Hdel).
  destruct Hcases as [[-> _]|Hcases].
  { rewrite Hadd, Hdel. simpl. split_and!; [done|lia..]. }
  destruct Hcases as (pre0 & c & sd & td & w3 & ra & sa & ta & _ & -> & Ha & Hrest).
  apply add_block_events in Ha.
  assert (∀ tb,
            (tb = [] ∨ ∃ ids rd,
               tb = [EDeleteFeatures (src_feat_layer self) ids rd]) →
            Forall (write_target (src_feat_layer self) (tgt_feat_layer self))
              (pre ++ ta ++ tb)
            ∧ length (filter (λ ev, is_add ev = true) (pre ++ ta ++ tb)) ≤ 1
            ∧ length (filter (λ ev, is_delete ev = true) (pre ++ ta ++ tb)) ≤ 2)
    as Hgoal.
  { intros tb Htb. rewrite !filter_app, Hadd, Hdel, !Forall_app.
    destruct Ha as [[-> _]|[(e & -> & _)|(_ & -> & _)]];
      destruct Htb as [->|(ids & rd & ->)]; simpl;
      split_and!; try done; try lia; by repeat constructor. }
  destruct Hrest as [(_ & _ & _ & ->)|(_ & tb & Hb & ->)].
  - specialize (Hgoal [] ltac:(by left)). by rewrite app_nil_r in Hgoal.
  - destruct sa as [selfa wa']. apply stale_block_events in Hb.
    apply Hgoal. destruct Hb as [[-> _]|(_ & -> & _)]; [by left|].
    right. by eexists _, _.
Qed.

(** X12. An import that returns has asked the source layer to delete every
    record it fetched from it, each once: every fetched source record
    carries the internal-id field, the delete calls of the run are one call
    with the ids of the unmatched records, if there are any, followed by one
    call with the ids of the matched records, if there are any, and these ids
    together are the ids of the fetched source records. *)
Theorem import_features_deletes_fetched us ut self w self' w' t :
  import_features us ut (self, w) = (Ok tt, (self', w'), t) →
  ∃ sd0 td0 S T sd td rest,
    t = [EDefinition (src_feat_layer self) (Ok sd0);
         EDefinition (tgt_feat_layer self) (Ok td0);
         EQuery (src_feat_layer self) "1=1" (src_out_fields self) (Ok S);
         EQuery (tgt_feat_layer self) "1=1" (tgt_out_fields self) (Ok T);
         EDefinition (src_feat_layer self) (Ok sd);
         EDefinition (tgt_feat_layer self) (Ok td)] ++ rest
    ∧ Forall (λ f, is_Some (attributes f !! objectIdField sd)) S
    ∧ (oid_of (objectIdField sd) <$> unmatched (src (comp_features self')))
      ++ (oid_of (objectIdField sd) <$> matched (src (comp_features self')))
      ≡ₚ oid_of (objectIdField sd) <$> S
    ∧ omap delete_args rest
      = (λ fs, join ", " (py_str <$> (oid_of (objectIdField sd) <$> fs)))
        <$> filter (λ fs, fs ≠ [])
              [unmatched (src (comp_features self'));
               matched (src (comp_features self'))].
Proof.
  intros H.
  apply import_features_Ok in H
    as (c & w1 & t1 & sd & td & w2 & w3 & sa & ta & tb
        & Hc & _ & _ & Ha & Hb & -> & ->).
  apply comp_features_Ok in Hc
    as (sd0 & td0 & S & T & wa & wb & wc & c' & _ & _ & _ & _ & -> & Hcmp
        & [= <-]).
  exists sd0, td0, S, T, sd, td, (ta ++ tb). split; [done|]. simpl.
  apply compare_records_Ok in Hcmp as (_ & _ & HM & HU & _ & _ & Huid & _).
  pose proof (filter_splits us (index (tgt c)) S Huid) as (Hperm & _ & Hone & _).
  rewrite <-HM, <-HU in Hperm, Hone.
  destruct sa as [selfa wa']. apply add_block_events in Ha.
  apply stale_block_events in Hb.
  assert (ta = [] ∧ unmatched (src c) = []
          ∨ unmatched (src c) ≠ []
            ∧ ta = [EAddFeatures (tgt_feat_layer self)
                      (insert_payload (effective_map self) (objectIdField sd)
                         (unmatched (src c))) (Ok tt);
                    EDeleteFeatures (src_feat_layer self)
                      (join ", " (py_str <$> (oid_of (objectIdField sd)
                                                <$> unmatched (src c))))
                      (Ok tt)]
            ∧ Forall (λ f, is_Some (attributes f !! objectIdField sd))
                (unmatched (src c))) as Ha'.
  { destruct Ha as [[-> HU0]|[(e & _ & [=])|(? & -> & ?)]]; [|by right].
    left. split; [done|]. by apply HU0. }
  assert (tb = [] ∧ matched (src c) = []
          ∨ matched (src c) ≠ []
            ∧ tb = [EDeleteFeatures (src_feat_layer self)
                      (join ", " (py_str <$> (oid_of (objectIdField sd)
                                                <$> matched (src c))))
                      (Ok tt)]
            ∧ Forall (λ f, is_Some (attributes f !! objectIdField sd))
                (matched (src c))) as Hb'.
  { destruct Hb as [[-> HM0]|(? & -> & ?)]; [|by right].
    left. split; [done|]. by apply HM0. }
  clear Ha Hb. split_and!.
  - apply Forall_forall. intros f Hf.
    destruct (Hone f Hf) as [[Hin _]|[_ Hin]].
    + destruct Hb' as [[_ Hnil]|(_ & _ & Hall)].
      * rewrite Hnil in Hin. by apply elem_of_nil in Hin.
      * rewrite Forall_forall in Hall. by apply Hall.
    + destruct Ha' as [[_ Hnil]|(_ & _ & Hall)].
      * rewrite Hnil in Hin. by apply elem_of_nil in Hin.
      * rewrite Forall_forall in Hall. by apply Hall.
  - rewrite <-fmap_app, <-Hperm. apply fmap_Permutation, Permutation_app_comm.
  - rewrite omap_app, !filter_cons, filter_nil.
    destruct Ha' as [[-> HU0]|(HU1 & -> & _)];
      destruct Hb' as [[-> HM0]|(HM1 & -> & _)]; simpl.
    + rewrite HU0, HM0. by rewrite !decide_False by (by intros []).
    + rewrite HU0. rewrite decide_False by (by intros []).
      by rewrite decide_True by done.
    + rewrite HM0. rewrite decide_True by done.
      by rewrite decide_False by (by intros []).
    + by rewrite !decide_True by done.
Qed.

(** X13. When the source query of the comparison returns no record, the
    import makes no insert and no delete: every call of the run is a read;
    if it returns, no source record and no target record is matched. *)
Theorem import_features_empty_source us ut self w r self' w' t :
  import_features us ut (self, w) = (r, (self', w'), t) →
  t !! 2 = Some (EQuery (src_feat_layer self) "1=1" (src_out_fields self)
                   (Ok [])) →
  Forall is_read t
  ∧ (r = Ok tt →
     matched (src (comp_features self')) = []
     ∧ unmatched (src (comp_features self')) = []
     ∧ matched (tgt (comp_features self')) = []).
Proof.
  intros Hrun Hq.
  apply import_features_cases in Hrun
    as [(e & Hc & ->)|(c & w1 & t1 & Hc & -> & Hrest)].
  { apply comp_features_frame in Hc as [_ Hread]. by split. }
  apply comp_features_Ok in Hc
    as (sd0 & td0 & S & T & wa & wb & wc & c' & _ & _ & _ & _ & -> & Hcmp
        & [= <-]).
  assert (S = []) as ->.
  { destruct Hrest as [(e & _ & _ & ->)|(sd & w2 & _ & Hrest)];
      [by injection Hq|].
    destruct Hrest
      as [(e & _ & _ & ->)|(td & w3 & ra & sa & ta & _ & _ & Hrest)];
      [by injection Hq|].
    destruct Hrest as [(_ & _ & _ & ->)|(_ & tb & _ & ->)]; by injection Hq. }
  apply compare_records_Ok in Hcmp as (Hsi & _ & HM & HU & HtM & _).
  rewrite filter_nil in HM, HU. simpl in Hsi. injection Hsi as Hsi.
  assert (matched (tgt c) = []) as HtM0.
  { rewrite HtM, <-Hsi. apply elem_of_nil_inv. intros g.
    rewrite list_elem_of_filter. unfold classified, contains.
    intros [Hg _]. destruct (attributes g !! ut); [|done]. simpl in Hg.
    injection Hg as Hg. apply bool_decide_eq_true in Hg.
    rewrite lookup_empty in Hg. by destruct Hg. }
  simpl. split; [|done].
  assert (Forall is_read
            [EDefinition (src_feat_layer self) (Ok sd0);
             EDefinition (tgt_feat_layer self) (Ok td0);
             EQuery (src_feat_layer self) "1=1" (src_out_fields self) (Ok []);
             EQuery (tgt_feat_layer self) "1=1" (tgt_out_fields self) (Ok T)])
    as Hreads by by repeat constructor.
  destruct Hrest as [(e & _ & _ & ->)|(sd & w2 & _ & Hrest)].
  { apply Forall_app. split; [done|]. by repeat constructor. }
  destruct Hrest
    as [(e & _ & _ & ->)|(td & w3 & ra & sa & ta & _ & Ha & Hrest)].
  { apply Forall_app. split; [done|]. by repeat constructor. }
  apply add_block_run in Ha
    as [(_ & -> & -> & ->)|[(HU1 & _)|(HU1 & _)]]; [|done..].
  destruct Hrest as [([] & _)|(_ & tb & Hb & ->)].
  apply stale_block_run in Hb
    as [(_ & _ & _ & ->)|[(HM1 & _)|(HM1 & _)]]; [|done..].
  rewrite !app_nil_r. apply Forall_app. split; [done|]. by repeat constructor.
Qed.

End importer_import.

(** ** The effective map of a new instance *)

Section importer_init.
Context {L W : Type} `{!FeatureLayer L W}.
Implicit Types (self : FeatureImporter L) (w : W).

(** X14. Where the two layer definitions can be read, the constructor
    returns an instance whose effective attribute map sends a field name to
    what the custom mapper says, if it has the name, and otherwise to itself
    if both layers have a field of that name; other names are not mapped. *)
Theorem init_effective_map ls lt o w sd td w1 w2 :
  definition ls w = (Ok sd, w1) →
  definition lt w1 = (Ok td, w2) →
  ∃ self,
    __init__ ls lt o w
    = (Ok self, w2, [EDefinition ls (Ok sd); EDefinition lt (Ok td)])
    ∧ ∀ k, effective_map self !! k
           = match attribute_map (custom_mapper_of o) !! k with
             | Some v => Some v
             | None =>
                 if decide (k ∈ name <$> fields sd ∧ k ∈ name <$> fields td)
                 then Some k else None
             end.
Proof.
  intros H1 H2. eexists. split; [by eapply init_run|].
  intros k. unfold effective_map, merge_dicts. simpl.
  rewrite lookup_union, auto_mapper_of_lookup.
  destruct (attribute_map (custom_mapper_of o) !! k); [|by case_decide].
  by case_decide.
Qed.

(** X15. When the two layers share no field name and no custom mapper is
    given, the effective map of the new instance is empty, and both queries
    of a comparison go out with an empty field list. *)
Theorem init_no_common_field ls lt o w sd td w1 w2 :
  definition ls w = (Ok sd, w1) →
  definition lt w1 = (Ok td, w2) →
  isinstance_AttributeMapper o = false →
  (∀ k, k ∈ name <$> fields sd → k ∉ name <$> fields td) →
  ∃ self,
    __init__ ls lt o w
    = (Ok self, w2, [EDefinition ls (Ok sd); EDefinition lt (Ok td)])
    ∧ effective_map self = ∅
    ∧ src_out_fields self = ""
    ∧ tgt_out_fields self = "".
Proof.
  intros H1 H2 Ho Hdisj. eexists. split; [by eapply init_run|].
  assert (effective_map
            (MkFeatureImporter ls lt (custom_mapper_of o)
               (auto_mapper_of sd td) empty_comp) = ∅) as Hempty.
  { apply map_eq. intros k. unfold effective_map, merge_dicts. simpl.
    rewrite lookup_union, auto_mapper_of_lookup, lookup_empty.
    assert (attribute_map (custom_mapper_of o) !! k = None) as ->
      by by destruct o.
    rewrite decide_False; [done|]. intros [Hs Ht]. by apply (Hdisj k). }
  split; [done|]. unfold src_out_fields, tgt_out_fields. rewrite Hempty.
  unfold sorted_items. by rewrite map_to_list_empty.
Qed.

End importer_init.

(** ** The in-memory feature service *)

Import Service.

(** *** Comma separated lists *)

Lemma split_comma_nonempty s : split_comma s ≠ [].
Proof. destruct s as [|c s]; simpl; [done|]. destruct (Ascii.eqb c ","); [done|]. by destruct (split_comma s). Qed.

Lemma split_comma_clean s : all_chars field_char s = true → split_comma s = [s].
Proof.
  induction s as [|c s IH]; simpl; [done|].
  intros [Hc Hs]%andb_true_iff. rewrite (IH Hs).
  unfold field_char in Hc. apply andb_true_iff in Hc as [Hc _].
  by destruct (Ascii.eqb c ",").
Qed.

Lemma split_comma_app s rest :
  all_chars field_char s = true →
  split_comma (s +:+ String ","%char rest) = s :: split_comma rest.
Proof.
  induction s as [|c s IH]; simpl; [done|].
  intros [Hc Hs]%andb_true_iff. rewrite (IH Hs).
  unfold field_char in Hc. apply andb_true_iff in Hc as [Hc _].
  by destruct (Ascii.eqb c ",").
Qed.

Lemma lstrip_split_comma_blank s :
  lstrip <$> split_comma (String " "%char s) = lstrip <$> split_comma s.
Proof.
  simpl. pose proof (split_comma_nonempty s). by destruct (split_comma s).
Qed.

Lemma lstrip_clean s : clean s → lstrip s = s.
Proof.
  intros [Hne Hs]. destruct s as [|c s]; [done|]. simpl in *.
  apply andb_true_iff in Hs as [Hc _]. unfold field_char in Hc.
  apply andb_true_iff in Hc as [_ Hc]. by destruct (Ascii.eqb c " ").
Qed.

Lemma lstrip_split_comma_join l :
  Forall clean l → l ≠ [] → lstrip <$> split_comma (join ", " l) = l.
Proof.
  induction 1 as [|x l Hx Hl IH]; [done|]. intros _.
  destruct l as [|y l].
  - simpl. rewrite split_comma_clean by apply Hx. simpl. by rewrite lstrip_clean.
  - change (join ", " (x :: y :: l))
      with (x +:+ String ","%char (String " "%char (join ", " (y :: l)))).
    rewrite split_comma_app by apply Hx.
    rewrite fmap_cons, lstrip_split_comma_blank, IH by done.
    by rewrite lstrip_clean.
Qed.

Lemma filter_all {A} (P : A → Prop) `{!∀ x, Decision (P x)} (l : list A) :
  Forall P l → filter P l = l.
Proof.
  induction 1 as [|x l Hx _ IH]; [done|].
  by rewrite filter_cons, decide_True, IH.
Qed.

Lemma tokens_join l : Forall clean l → tokens (join ", " l) = l.
Proof.
  intros Hl. unfold tokens. destruct l as [|x l]; [done|].
  rewrite lstrip_split_comma_join by done.
  apply filter_all. eapply Forall_impl; [done|]. by intros s [? _].
Qed.

Lemma pretty_N_char_field x : field_char (pretty_N_char x) = true.
Proof. unfold pretty_N_char. by repeat case_match. Qed.

Lemma pretty_N_go_field x s :
  all_chars field_char s = true → all_chars field_char (pretty_N_go x s) = true.
Proof.
  revert s. induction (N.lt_wf_0 x) as [x _ IH]; intros s Hs.
  assert (x = 0 ∨ 0 < x)%N as [->|?] by lia.
  - by rewrite pretty_N_go_0.
  - rewrite pretty_N_go_step by done. apply IH.
    { by apply N.div_lt. }
    simpl. by rewrite pretty_N_char_field.
Qed.

Lemma pretty_N_go_nonempty x s : s ≠ EmptyString → pretty_N_go x s ≠ EmptyString.
Proof.
  revert s. induction (N.lt_wf_0 x) as [x _ IH]; intros s Hs.
  assert (x = 0 ∨ 0 < x)%N as [->|?] by lia.
  - by rewrite pretty_N_go_0.
  - rewrite pretty_N_go_step by done. apply IH; [by apply N.div_lt|done].
Qed.

Lemma pretty_positive_clean (p : positive) : clean (pretty p).
Proof.
  unfold pretty, pretty_positive, pretty, pretty_N.
  rewrite decide_False by done. split.
  - rewrite pretty_N_go_step by lia. by apply pretty_N_go_nonempty.
  - by apply pretty_N_go_field.
Qed.

Lemma pretty_Z_clean (z : Z) : clean (pretty z).
Proof.
  destruct z as [|p|p]; unfold pretty, pretty_Z.
  - done.
  - apply pretty_positive_clean.
  - destruct (pretty_positive_clean p) as [_ Hp]. split; [done|].
    simpl. exact Hp.
Qed.

Lemma tokens_join_oids (zs : list Z) :
  tokens (join ", " (py_str <$> (VInt <$> zs))) = pretty <$> zs.
Proof.
  rewrite <-list_fmap_compose. apply tokens_join.
  apply Forall_fmap, Forall_forall. intros z _. apply pretty_Z_clean.
Qed.

(** X16. The field list of a query determines the field names: two lists
    of names without comma and blank that join to the same text are the same
    list. *)
Theorem out_fields_inj (l1 l2 : list string) :
  Forall clean l1 →
  Forall clean l2 →
  join ", " l1 = join ", " l2 →
  l1 = l2.
Proof.
  intros H1 H2 Heq. apply (f_equal tokens) in Heq.
  by rewrite !tokens_join in Heq.
Qed.

(** X17. The id list of a delete call determines the ids: two lists of
    integer ids whose texts, joined by a comma and a blank, are equal are
    the same list. *)
Theorem object_ids_inj (zs1 zs2 : list Z) :
  join ", " (py_str <$> (VInt <$> zs1)) = join ", " (py_str <$> (VInt <$> zs2)) →
  zs1 = zs2.
Proof.
  intros Heq. apply (f_equal tokens) in Heq.
  rewrite !tokens_join_oids in Heq.
  by apply (inj (fmap (M:=list) pretty)) in Heq.
Qed.

(** *** The layer calls of the service *)

Lemma service_definition l w :
  definition l w
  = (Ok (LayerDefinition (FieldInfo <$> field_names (layer l w))
           (oid_field (layer l w))), w).
Proof. reflexivity. Qed.

Lemma service_query l where_ outFields w :
  query_features_batch l where_ outFields w
  = (store_query outFields (layer l w), w).
Proof. reflexivity. Qed.

Lemma service_add_target fs w r w' :
  add_features_batch Target fs w = (r, w') → source w' = source w.
Proof.
  simpl. destruct (store_insert fs (target w)) as [r' st]. by intros [= _ <-].
Qed.

Lemma service_delete_source objectIds w r w' :
  delete_features Source objectIds w = (r, w') →
  r = Ok tt
  ∧ source w' = store_delete objectIds (source w)
  ∧ target w' = target w.
Proof. by intros [= <- <-]. Qed.

Lemma store_query_Ok outFields st S :
  store_query outFields st = Ok S →
  S = row_feature st (tokens outFields) <$> rows st.
Proof. unfold store_query. case_bool_decide; by intros [= <-]. Qed.

Lemma row_feature_oid st wanted r :
  attributes (row_feature st wanted r) !! oid_field st = Some (VInt r.1).
Proof. apply lookup_insert_eq. Qed.

Lemma rows_store_delete zs st r :
  r ∈ rows (store_delete (join ", " (py_str <$> (VInt <$> zs))) st)
  ↔ r ∈ rows st ∧ r.1 ∉ zs.
Proof.
  unfold store_delete. simpl.
  rewrite tokens_join_oids, list_elem_of_filter.
  rewrite (list_elem_of_fmap_inj pretty). tauto.
Qed.

Lemma oids_of_VInt oid fs ids :
  oids_of oid fs = Ok ids →
  Forall (λ f, ∃ z, attributes f !! oid = Some (VInt z)) fs →
  ∃ zs, ids = VInt <$> zs
    ∧ ∀ f z, f ∈ fs → attributes f !! oid = Some (VInt z) → z ∈ zs.
Proof.
  revert ids. induction fs as [|f0 fs IH]; simpl; intros ids.
  - intros [= <-] _. exists []. split; [done|].
    intros f z Hf. by apply elem_of_nil in Hf.
  - intros (o & Ho%getitem_Ok & H)%outcome_bind_Ok.
    apply outcome_bind_Ok in H as (rest & Hrest & [= <-]).
    intros Hall. apply Forall_cons in Hall as [[z Hz] Hall].
    destruct (IH _ Hrest Hall) as (zs & -> & Hzs).
    exists (z :: zs). split.
    { rewrite Hz in Ho. by injection Ho as <-. }
    intros f z' [->|Hf]%elem_of_cons Hfz.
    + rewrite Hz in Hfz. injection Hfz as ->. left.
    + right. eauto.
Qed.

(** *** The two blocks of the import on the service *)

(** After the insert block no source row is left whose internal id is that of
    an inserted record. *)
Lemma service_add_block (self0 : FeatureImporter side) m oid U self w sa ta :
  src_feat_layer self0 = Source →
  tgt_feat_layer self0 = Target →
  Forall (λ f, ∃ z, attributes f !! oid = Some (VInt z)) U →
  add_block self0 m oid U (self, w) = (Ok tt, sa, ta) →
  ∃ wa, sa = (self, wa)
    ∧ (U = [] → wa = w ∧ ta = [])
    ∧ ∀ r, r ∈ rows (source wa) →
        r ∈ rows (source w)
        ∧ ∀ f, f ∈ U → attributes f !! oid ≠ Some (VInt r.1).
Proof.
  intros Hs Ht HU Hrun.
  apply add_block_run in Hrun
    as [(-> & _ & -> & ->)|[(_ & e & _ & [=] & _)|Hrun]].
  { exists w. split_and!; [done..|]. intros r Hr. split; [done|].
    intros f Hf. by apply elem_of_nil in Hf. }
  destruct Hrun as (Hne & ids & ra & wa & Hids & Hadd & Hrun).
  destruct Hrun as [(e & _ & [=] & _)|(-> & wd & Hdel & -> & ->)].
  rewrite Ht in Hadd. rewrite Hs in Hdel.
  apply service_add_target in Hadd.
  apply service_delete_source in Hdel as (_ & Hrows & _).
  destruct (oids_of_VInt _ _ _ Hids HU) as (zs & -> & Hzs).
  exists wd. split_and!; [done|done|].
  intros r. rewrite Hrows, rows_store_delete, Hadd. intros [Hr Hz].
  split; [done|]. intros f Hf Hfr. apply Hz. eauto.
Qed.

Lemma service_stale_block (self0 : FeatureImporter side) oid Ms self w sa tb :
  src_feat_layer self0 = Source →
  Forall (λ f, ∃ z, attributes f !! oid = Some (VInt z)) Ms →
  stale_block self0 oid Ms (self, w) = (Ok tt, sa, tb) →
  ∃ wd, sa = (self, wd)
    ∧ (Ms = [] → wd = w ∧ tb = [])
    ∧ target wd = target w
    ∧ ∀ r, r ∈ rows (source wd) →
        r ∈ rows (source w)
        ∧ ∀ f, f ∈ Ms → attributes f !! oid ≠ Some (VInt r.1).
Proof.
  intros Hs HM Hrun.
  apply stale_block_run in Hrun
    as [(-> & _ & -> & ->)|[(_ & e & _ & [=] & _)|Hrun]].
  { exists w. split_and!; [done..|]. intros r Hr. split; [done|].
    intros f Hf. by apply elem_of_nil in Hf. }
  destruct Hrun as (Hne & ids & wd & Hids & Hdel & -> & ->).
  rewrite Hs in Hdel.
  apply service_delete_source in Hdel as (_ & Hrows & Htgt).
  destruct (oids_of_VInt _ _ _ Hids HM) as (zs & -> & Hzs).
  exists wd. split_and!; [done|done|done|].
  intros r. rewrite Hrows, rows_store_delete. intros [Hr Hz].
  split; [done|]. intros f Hf Hfr. apply Hz. eauto.
Qed.

(** *** Draining the source *)

(** An import that returns leaves no row in the source layer; if the source
    layer had no row, it changes nothing and only reads. *)
Lemma service_import_drains us ut (self : FeatureImporter side) w self' w' t :
  src_feat_layer self = Source →
  tgt_feat_layer self = Target →
  import_features us ut (self, w) = (Ok tt, (self', w'), t) →
  rows (source w') = []
  ∧ src_feat_layer self' = Source
  ∧ tgt_feat_layer self' = Target
  ∧ (rows (source w) = [] → w' = w ∧ Forall is_read t).
Proof.
  intros Hs Ht H.
  apply import_features_Ok in H
    as (c & w1 & t1 & sd & td & w2 & w3 & sa & ta & tb
        & Hc & Hd1 & Hd2 & Ha & Hb & -> & ->).
  pose proof Hc as [_ Hread]%comp_features_frame.
  apply comp_features_Ok in Hc
    as (sd0 & td0 & S & T & wa & wb & wc & c' & Hdef1 & Hdef2 & Hq1 & Hq2
        & _ & Hcmp & [= <-]).
  rewrite service_definition in Hd1, Hd2, Hdef1, Hdef2.
  rewrite service_query in Hq1, Hq2.
  rewrite Hs in *. rewrite Ht in *. simpl in *.
  injection Hdef1 as <- <-. injection Hdef2 as <- <-.
  injection Hq1 as HqS <-. injection Hq2 as HqT <-.
  injection Hd1 as <- <-. injection Hd2 as <- <-.
  apply store_query_Ok in HqS.
  apply compare_records_Ok in Hcmp
    as (Hsi & _ & HM & HU & _ & _ & Huid & _).
  apply build_index_Ok in Hsi as [Hoid _].
  set (mk := row_feature (source w) (tokens (src_out_fields self))) in *.
  assert (∀ f, f ∈ S → ∃ z, attributes f !! oid_field (source w) = Some (VInt z))
    as HSoid.
  { intros f Hf. rewrite HqS in Hf.
    apply list_elem_of_fmap in Hf as (r & -> & _). eexists.
    apply row_feature_oid. }
  assert (Forall (λ f, ∃ z, attributes f !! oid_field (source w) = Some (VInt z))
            (unmatched (src c))) as HUoid.
  { apply Forall_forall. intros f Hf. apply HSoid. rewrite HU in Hf.
    by apply list_elem_of_filter in Hf as [_ ?]. }
  assert (Forall (λ f, ∃ z, attributes f !! oid_field (source w) = Some (VInt z))
            (matched (src c))) as HMoid.
  { apply Forall_forall. intros f Hf. apply HSoid. rewrite HM in Hf.
    by apply list_elem_of_filter in Hf as [_ ?]. }
  destruct (service_add_block _ _ _ _ _ _ _ _ Hs Ht HUoid Ha)
    as (wa & -> & Hnil_a & Hrows_a).
  destruct (service_stale_block _ _ _ _ _ _ _ Hs HMoid Hb)
    as (wd & [= <-] & Hnil_b & _ & Hrows_b).
  split_and!; [|done|done|].
  - apply elem_of_nil_inv. intros r Hr.
    destruct (Hrows_b r Hr) as [Hr_a HnotM].
    destruct (Hrows_a r Hr_a) as [Hr0 HnotU].
    assert (mk r ∈ S) as HrS by (rewrite HqS; by apply list_elem_of_fmap_2).
    pose proof (filter_splits us (index (tgt c)) S Huid) as (_ & _ & Hone & _).
    rewrite <-HM, <-HU in Hone.
    destruct (Hone _ HrS) as [[Hin _]|[_ Hin]].
    + by apply (HnotM _ Hin), row_feature_oid.
    + by apply (HnotU _ Hin), row_feature_oid.
  - intros Hempty. rewrite Hempty in HqS. simpl in HqS. subst S.
    rewrite filter_nil in HM, HU.
    destruct (Hnil_a HU) as [-> ->]. destruct (Hnil_b HM) as [-> ->].
    split; [done|]. rewrite !app_nil_r.
    apply Forall_app. split; [done|]. by repeat constructor.
Qed.

(** With no row in the source layer an import changes nothing and only
    reads, whether it returns or raises. *)
Lemma service_import_empty_source us ut (self : FeatureImporter side)
    w r self' w' t :
  src_feat_layer self = Source →
  rows (source w) = [] →
  import_features us ut (self, w) = (r, (self', w'), t) →
  w' = w ∧ Forall is_read t.
Proof.
  intros Hs Hempty. rewrite import_features_blocks. intros H.
  assert (∀ l (w0 : world) r0 w1, definition l w0 = (r0, w1) → w1 = w0)
    as Hdefs.
  { intros l w0 r0 w1. rewrite service_definition. by intros [= _ <-]. }
  assert (∀ l a b (w0 : world) r0 w1,
            query_features_batch l a b w0 = (r0, w1) → w1 = w0) as Hqrys.
  { intros l a b w0 r0 w1. rewrite service_query. by intros [= _ <-]. }
  apply M_bind_inv in H
    as [([] & [self1 w1] & t1 & t2 & Hc & H & ->) | (? & Hc & ->)].
  2: { split; [by eapply comp_features_keeps_world|].
       by apply comp_features_frame in Hc as [_ ?]. }
  pose proof Hc as [_ Hread]%comp_features_frame.
  pose proof (comp_features_keeps_world _ _ _ _ _ _ _ _ Hdefs Hqrys Hc) as ->.
  apply comp_features_Ok in Hc
    as (sd0 & td0 & S & T & wa & wb & wc & c & Hdef1 & Hdef2 & Hq1 & _
        & _ & Hcmp & ->).
  apply Hdefs in Hdef1 as ->. apply Hdefs in Hdef2 as ->.
  rewrite service_query, Hs in Hq1. simpl in Hq1.
  injection Hq1 as HqS _. apply store_query_Ok in HqS.
  rewrite Hempty in HqS. simpl in HqS. subst S.
  apply compare_records_Ok in Hcmp as (_ & _ & HM & HU & _).
  rewrite filter_nil in HM, HU.
  do 2 (run_any H; [|done..]).
  run_any H; [|by rewrite service_definition in *..].
  run_any H; [|by rewrite service_definition in *..].
  match goal with
  | Hd1 : definition _ _ = _, Hd2 : definition _ _ = _ |- _ =>
      apply Hdefs in Hd1 as ->; apply Hdefs in Hd2 as ->
  end.
  simpl in H. rewrite HM, HU in H. simpl in H.
  injection H as <- <- <- <-. split; [done|].
  rewrite !app_nil_r. apply Forall_app. split; [done|].
  by repeat constructor.
Qed.

Lemma service_add_target_rows fs w w' :
  add_features_batch Target fs w = (Ok tt, w') →
  source w' = source w
  ∧ rows (target w') = rows (target w) ++ new_rows (target w) fs
  ∧ oid_field (target w') = oid_field (target w)
  ∧ field_names (target w') = field_names (target w).
Proof.
  simpl. unfold store_insert. destruct (forallb _ _); [|done].
  by intros [= <-].
Qed.

(** The ids an insert assigns are above every id in use, and differ from
    one another. *)
Lemma fresh_oid_above (st : store) :
  (next_oid st ≤ fresh_oid st)%Z ∧ ∀ r, r ∈ rows st → (r.1 < fresh_oid st)%Z.
Proof.
  unfold fresh_oid. induction (rows st) as [|r0 l [IH1 IH2]]; simpl.
  { split; [lia|]. by intros r ?%elem_of_nil. }
  split; [lia|]. intros r [->|Hin]%elem_of_cons; [lia|].
  specialize (IH2 r Hin). lia.
Qed.

Lemma new_rows_ids (st : store) (fs : list feature) :
  (new_rows st fs).*1 = (λ i, (fresh_oid st + Z.of_nat i)%Z) <$> seq 0 (length fs)
  ∧ (new_rows st fs).*2 = (λ f, delete (oid_field st) (attributes f)) <$> fs.
Proof.
  unfold new_rows. split; apply list_eq; intros i;
    rewrite !list_lookup_fmap, list_lookup_imap.
  - destruct (fs !! i) as [f|] eqn:Hi; simpl.
    + apply lookup_lt_Some in Hi. by rewrite lookup_seq_lt.
    + apply lookup_ge_None in Hi. by rewrite lookup_seq_ge.
  - by destruct (fs !! i).
Qed.

Lemma new_rows_fresh (st : store) (fs : list feature) :
  NoDup (new_rows st fs).*1
  ∧ ∀ i, i ∈ (new_rows st fs).*1 → i ∉ (rows st).*1.
Proof.
  destruct (new_rows_ids st fs) as [-> _]. split.
  - apply NoDup_fmap_2; [|apply NoDup_seq]. intros i j. lia.
  - intros i (n & -> & _)%list_elem_of_fmap (r & Hr & Hin)%list_elem_of_fmap.
    apply fresh_oid_above in Hin. lia.
Qed.

Lemma service_import_new_rows us ut (self : FeatureImporter side)
    w self' w' t :
  src_feat_layer self = Source →
  tgt_feat_layer self = Target →
  import_features us ut (self, w) = (Ok tt, (self', w'), t) →
  rows (target w')
  = rows (target w)
    ++ new_rows (target w)
         (insert_payload (effective_map self) (oid_field (source w))
            (unmatched (src (comp_features self'))))
  ∧ oid_field (target w') = oid_field (target w)
  ∧ field_names (target w') = field_names (target w).
Proof.
  intros Hs Ht H.
  assert (∀ l (w0 : world) r0 w1, definition l w0 = (r0, w1) → w1 = w0)
    as Hdefs.
  { intros l w0 r0 w1. rewrite service_definition. by intros [= _ <-]. }
  assert (∀ l a b (w0 : world) r0 w1,
            query_features_batch l a b w0 = (r0, w1) → w1 = w0) as Hqrys.
  { intros l a b w0 r0 w1. rewrite service_query. by intros [= _ <-]. }
  apply import_features_Ok in H
    as (c & w1 & t1 & sd & td & w2 & w3 & sa & ta & tb
        & Hc & Hd1 & Hd2 & Ha & Hb & -> & ->).
  pose proof (comp_features_keeps_world _ _ _ _ _ _ _ _ Hdefs Hqrys Hc) as ->.
  rewrite service_definition, Hs in Hd1. injection Hd1 as <- <-.
  apply Hdefs in Hd2 as ->. simpl.
  apply add_block_run in Ha
    as [(HU & _ & -> & _)|[(_ & e & _ & [=] & _)|Ha]].
  - rewrite HU. unfold insert_payload, new_rows. simpl. rewrite app_nil_r.
    apply stale_block_run in Hb
      as [(_ & _ & [= <-] & _)|[(_ & e & _ & [=] & _)|Hb]]; [done|].
    destruct Hb as (_ & ids & wd & _ & Hdel & [= <-] & _).
    cbn [src_feat_layer set_comp_features] in Hdel.
    rewrite Hs in Hdel. apply service_delete_source in Hdel as (_ & _ & ->).
    done.
  - destruct Ha as (_ & ids & ra & wa & _ & Hadd & Ha).
    destruct Ha as [(e & _ & [=] & _)|(-> & wd & Hdel & -> & _)].
    cbn [src_feat_layer tgt_feat_layer set_comp_features] in Hadd, Hdel.
    rewrite Ht in Hadd. rewrite Hs in Hdel.
    apply service_add_target_rows in Hadd as (_ & Hrows & Hoid & Hnames).
    apply service_delete_source in Hdel as (_ & _ & Htgt).
    assert (target w' = target wd) as ->.
    { apply stale_block_run in Hb
        as [(_ & _ & [= <-] & _)|[(_ & e & _ & [=] & _)|Hb]]; [done|].
      destruct Hb as (_ & ids' & wd' & _ & Hdel' & [= <-] & _).
      cbn [src_feat_layer set_comp_features] in Hdel'.
      rewrite Hs in Hdel'.
      by apply service_delete_source in Hdel' as (_ & _ & ->). }
    by rewrite Htgt.
Qed.

(** X18. On the service, an import that returns leaves the records the
    target layer had in place and in order, and adds after them one record
    for each unmatched source record, in the order of the unmatched list,
    made from the renamed record without the source internal-id field; the
    internal ids of the added records differ from one another and from every
    internal id the target held; the schema of the target does not change. *)
Theorem service_import_target_rows us ut (self : FeatureImporter side)
    w self' w' t :
  src_feat_layer self = Source →
  tgt_feat_layer self = Target →
  import_features us ut (self, w) = (Ok tt, (self', w'), t) →
  ∃ new,
    rows (target w') = rows (target w) ++ new
    ∧ new.*2
      = (λ f, delete (oid_field (target w)) (attributes f))
        <$> remove_attributes [oid_field (source w)]
              (replace_attributes (effective_map self)
                 (unmatched (src (comp_features self'))))
    ∧ NoDup new.*1
    ∧ (∀ i, i ∈ new.*1 → i ∉ (rows (target w)).*1)
    ∧ (NoDup (rows (target w)).*1 → NoDup (rows (target w')).*1)
    ∧ oid_field (target w') = oid_field (target w)
    ∧ field_names (target w') = field_names (target w).
Proof.
  intros Hs Ht H.
  destruct (service_import_new_rows _ _ _ _ _ _ _ Hs Ht H) as (Hrows & Ho & Hn).
  eexists. split; [exact Hrows|].
  destruct (new_rows_ids (target w)
              (insert_payload (effective_map self) (oid_field (source w))
                 (unmatched (src (comp_features self'))))) as [_ Hvals].
  destruct (new_rows_fresh (target w)
              (insert_payload (effective_map self) (oid_field (source w))
                 (unmatched (src (comp_features self'))))) as [Hnd Hfresh].
  split_and!; [exact Hvals|exact Hnd|exact Hfresh| |exact Ho|exact Hn].
  intros Hold. rewrite Hrows, fmap_app. apply NoDup_app. split_and!; [done| |done].
  intros i Hi Hi'. by apply (Hfresh i).
Qed.

(** C1. On the service, for an importer from the source layer to the target
    layer: after an import that returns, a second import with the same uid
    fields, whether it returns or raises, leaves the target layer as the
    first left it (it changes nothing at all and only reads), and no record
    is left in the source layer whose uid value is a key of the target index;
    the source layer has no record left. *)
Theorem import_features_idempotent us ut (self0 : FeatureImporter side)
    w0 self1 w1 t1 r2 self2 w2 t2 :
  src_feat_layer self0 = Source →
  tgt_feat_layer self0 = Target →
  import_features us ut (self0, w0) = (Ok tt, (self1, w1), t1) →
  import_features us ut (self1, w1) = (r2, (self2, w2), t2) →
  target w2 = target w1
  ∧ (∀ row u, row ∈ rows (source w2) → row.2 !! us = Some u →
       index (tgt (comp_features self2)) !! u = None)
  ∧ rows (source w2) = []
  ∧ w2 = w1
  ∧ Forall is_read t2.
Proof.
  intros Hs Ht H1 H2.
  destruct (service_import_drains _ _ _ _ _ _ _ Hs Ht H1)
    as (Hempty1 & Hs1 & Ht1 & _).
  destruct (service_import_empty_source _ _ _ _ _ _ _ _ Hs1 Hempty1 H2)
    as [-> Hread].
  split_and!; [done| |done..].
  intros row u Hrow. rewrite Hempty1 in Hrow. by apply elem_of_nil in Hrow.
Qed.

(** ** The theorems on the example data *)

Import Example.

(** The constructor on the example world. *)
Lemma init_example :
  __init__ Source Target PyNone w0
  = (Ok importer0, w0, [EDefinition Source (Ok def0); EDefinition Target (Ok def0)]).
Proof. vm_compute. reflexivity. Qed.

(** The scenario of section 8: record 1 moves to the target under a new
    internal id, record 2 of the target is untouched, the source ends
    empty. *)
Lemma import_example :
  imported0.1.1 = Ok tt
  ∧ rows (source imported0.1.2.2) = []
  ∧ rows (target imported0.1.2.2) = [(7%Z, record 2 "B"); (8%Z, record 1 "A")]
  ∧ omap query_args imported0.2
    = [(Source, "1=1", "OBJECTID, name, uid");
       (Target, "1=1", "OBJECTID, name, uid")].
Proof. vm_compute. by split_and!. Qed.

Lemma import_features_idempotent_witness :
  src_feat_layer importer0 = Source
  ∧ tgt_feat_layer importer0 = Target
  ∧ import_features "uid" "uid" (importer0, w0)
    = (Ok tt, imported0.1.2, imported0.2)
  ∧ import_features "uid" "uid" imported0.1.2
    = (imported1.1.1, imported1.1.2, imported1.2)
  ∧ target imported1.1.2.2 = target imported0.1.2.2
  ∧ rows (source imported1.1.2.2) = [].
Proof.
  assert (import_features "uid" "uid" (importer0, w0)
          = (Ok tt, (imported0.1.2.1, imported0.1.2.2), imported0.2)) as H1
    by (vm_compute; reflexivity).
  assert (import_features "uid" "uid" (imported0.1.2.1, imported0.1.2.2)
          = (imported1.1.1, (imported1.1.2.1, imported1.1.2.2), imported1.2))
    as H2 by (vm_compute; reflexivity).
  destruct (import_features_idempotent "uid" "uid" importer0 w0 _ _ _ _ _ _ _
              eq_refl eq_refl H1 H2) as (Htgt & _ & Hsrc & _).
  split_and!; [reflexivity|reflexivity|exact H1|exact H2|exact Htgt|exact Hsrc].
Defined.

Lemma comp_features_partition_witness :
  __comp_features "uid" "uid" (importer0, w0)
    = (Ok tt, compared0.1.2, compared0.2)
  ∧ ∃ sd td S T,
      compared0.2
      = [EDefinition Source (Ok sd); EDefinition Target (Ok td);
         EQuery Source "1=1" (src_out_fields importer0) (Ok S);
         EQuery Target "1=1" (tgt_out_fields importer0) (Ok T)]
      ∧ splits S (matched (src (comp_features compared0.1.2.1)))
                 (unmatched (src (comp_features compared0.1.2.1)))
      ∧ splits T (matched (tgt (comp_features compared0.1.2.1)))
                 (unmatched (tgt (comp_features compared0.1.2.1))).
Proof.
  assert (__comp_features "uid" "uid" (importer0, w0)
          = (Ok tt, (compared0.1.2.1, compared0.1.2.2), compared0.2)) as H
    by (vm_compute; reflexivity).
  split; [exact H|].
  exact (comp_features_partition "uid" "uid" importer0 w0 _ _ _ H).
Defined.

Lemma comp_features_duplicate_uid_witness :
  (__comp_features "uid" "uid" (importer0, w_dup) = (Ok tt, (compared_dup.1.2.1, compared_dup.1.2.2), compared_dup.2))
  ∧
  (∃ sd td S T,
    compared_dup.2 = [EDefinition (src_feat_layer importer0) (Ok sd);
         EDefinition (tgt_feat_layer importer0) (Ok td);
         EQuery (src_feat_layer importer0) "1=1" (src_out_fields importer0) (Ok S);
         EQuery (tgt_feat_layer importer0) "1=1" (tgt_out_fields importer0) (Ok T)]
    ∧ (∀ u, index (src (comp_features compared_dup.1.2.1)) !! u
            = last_oid "uid" (objectIdField sd) S u)
    ∧ (∀ u, index (tgt (comp_features compared_dup.1.2.1)) !! u
            = last_oid "uid" (objectIdField td) T u)
    ∧ (∀ f, f ∈ S →
         ∃ u, attributes f !! "uid" = Some u
           ∧ (f ∈ matched (src (comp_features compared_dup.1.2.1))
              ↔ is_Some (index (tgt (comp_features compared_dup.1.2.1)) !! u))
           ∧ (f ∈ unmatched (src (comp_features compared_dup.1.2.1))
              ↔ index (tgt (comp_features compared_dup.1.2.1)) !! u = None))
    ∧ (∀ g, g ∈ T →
         ∃ u, attributes g !! "uid" = Some u
           ∧ (g ∈ matched (tgt (comp_features compared_dup.1.2.1))
              ↔ is_Some (index (src (comp_features compared_dup.1.2.1)) !! u))
           ∧ (g ∈ unmatched (tgt (comp_features compared_dup.1.2.1))
              ↔ index (src (comp_features compared_dup.1.2.1)) !! u = None))
    ∧ (∀ f g, f ∈ S → g ∈ S →
         attributes f !! "uid" = attributes g !! "uid" →
         (f ∈ matched (src (comp_features compared_dup.1.2.1))
          ∧ g ∈ matched (src (comp_features compared_dup.1.2.1))
          ∧ (f ∉ unmatched (src (comp_features compared_dup.1.2.1)))
          ∧ (g ∉ unmatched (src (comp_features compared_dup.1.2.1))))
         ∨ (f ∈ unmatched (src (comp_features compared_dup.1.2.1))
            ∧ g ∈ unmatched (src (comp_features compared_dup.1.2.1))
            ∧ (f ∉ matched (src (comp_features compared_dup.1.2.1)))
            ∧ (g ∉ matched (src (comp_features compared_dup.1.2.1)))))
    ∧ (∀ f g, f ∈ T → g ∈ T →
         attributes f !! "uid" = attributes g !! "uid" →
         (f ∈ matched (tgt (comp_features compared_dup.1.2.1))
          ∧ g ∈ matched (tgt (comp_features compared_dup.1.2.1))
          ∧ (f ∉ unmatched (tgt (comp_features compared_dup.1.2.1)))
          ∧ (g ∉ unmatched (tgt (comp_features compared_dup.1.2.1))))
         ∨ (f ∈ unmatched (tgt (comp_features compared_dup.1.2.1))
            ∧ g ∈ unmatched (tgt (comp_features compared_dup.1.2.1))
            ∧ (f ∉ matched (tgt (comp_features compared_dup.1.2.1)))
            ∧ (g ∉ matched (tgt (comp_features compared_dup.1.2.1)))))).
Proof.
  assert (__comp_features "uid" "uid" (importer0, w_dup) = (Ok tt, (compared_dup.1.2.1, compared_dup.1.2.2), compared_dup.2)) as H1.
  { vm_compute. reflexivity. }
  split; [exact H1|].
  exact (comp_features_duplicate_uid ("uid") ("uid") (importer0) (w_dup) (compared_dup.1.2.1) (compared_dup.1.2.2) (compared_dup.2) H1).
Defined.

(** The duplicate-uid scenario of section 8: the source index keeps the
    internal id of the second record for uid 5, and both records are
    unmatched. *)
Lemma duplicate_uid_example :
  index (src (comp_features compared_dup.1.2.1)) !! VInt 5 = Some (VInt 2)
  ∧ size (index (src (comp_features compared_dup.1.2.1))) = 1
  ∧ length (unmatched (src (comp_features compared_dup.1.2.1))) = 2
  ∧ matched (src (comp_features compared_dup.1.2.1)) = [].
Proof. vm_compute. by split_and!. Qed.

Lemma import_features_no_premature_delete_witness :
  import_features "uid" "uid" (importer0, Frozen w0)
    = (imported_frozen.1.1, imported_frozen.1.2, imported_frozen.2)
  ∧ EAddFeatures Target [Feature (record 1 "A")]
      (Raise (RemoteError "editing is disabled")) ∈ imported_frozen.2
  ∧ imported_frozen.1.1 = Raise (RemoteError "editing is disabled")
  ∧ Forall (λ ev, is_delete ev = false) imported_frozen.2
  ∧ ∃ pre, imported_frozen.2
           = pre ++ [EAddFeatures Target [Feature (record 1 "A")]
                       (Raise (RemoteError "editing is disabled"))].
Proof.
  assert (import_features "uid" "uid" (importer0, Frozen w0)
          = (imported_frozen.1.1,
             (imported_frozen.1.2.1, imported_frozen.1.2.2),
             imported_frozen.2)) as H by (vm_compute; reflexivity).
  assert (EAddFeatures Target [Feature (record 1 "A")]
            (Raise (RemoteError "editing is disabled")) ∈ imported_frozen.2)
    as Hin.
  { apply (list_elem_of_lookup_2 _ 6). vm_compute. reflexivity. }
  split; [exact H|]. split; [exact Hin|].
  exact (import_features_no_premature_delete "uid" "uid" importer0 (Frozen w0)
           _ _ _ _ _ _ _ H Hin).
Defined.

Lemma import_features_insert_payload_witness :
  (__comp_features "uid" "uid" (importer0, w0) = (Ok tt, (compared0.1.2.1, compared0.1.2.2), compared0.2))
  ∧
  (definition (src_feat_layer importer0) compared0.1.2.2 = (Ok def0, compared0.1.2.2))
  ∧
  (definition (tgt_feat_layer importer0) compared0.1.2.2 = (Ok def0, compared0.1.2.2))
  ∧
  (unmatched (src (comp_features compared0.1.2.1)) ≠ [])
  ∧
  (Forall (λ f, is_Some (attributes f !! objectIdField def0))
    (unmatched (src (comp_features compared0.1.2.1))))
  ∧
  (∃ fs ids res w4 r st' post,
    fs = remove_attributes [objectIdField def0]
           (replace_attributes (effective_map importer0)
              (unmatched (src (comp_features compared0.1.2.1))))
    ∧ Forall2 (λ f o, attributes f !! objectIdField def0 = Some o)
        (unmatched (src (comp_features compared0.1.2.1))) ids
    ∧ add_features_batch (tgt_feat_layer importer0) fs compared0.1.2.2 = (res, w4)
    ∧ import_features "uid" "uid" (importer0, w0)
      = (r, st',
         compared0.2 ++ [EDefinition (src_feat_layer importer0) (Ok def0);
                EDefinition (tgt_feat_layer importer0) (Ok def0);
                EAddFeatures (tgt_feat_layer importer0) fs res] ++ post)
    ∧ Forall is_read compared0.2
    ∧ length fs = length (unmatched (src (comp_features compared0.1.2.1)))
    ∧ Forall (λ f, attributes f !! objectIdField def0 = None) fs
    ∧ (∀ i f f' k' v,
         unmatched (src (comp_features compared0.1.2.1)) !! i = Some f →
         fs !! i = Some f' →
         attributes f' !! k' = Some v →
         k' ≠ objectIdField def0
         ∧ ∃ k, effective_map importer0 !! k = Some k' ∧ attributes f !! k = Some v)
    ∧ (∀ i f f' k k' v,
         unmatched (src (comp_features compared0.1.2.1)) !! i = Some f →
         fs !! i = Some f' →
         effective_map importer0 !! k = Some k' →
         attributes f !! k = Some v →
         k' ≠ objectIdField def0 →
         (∀ k2, is_Some (attributes f !! k2) →
                effective_map importer0 !! k2 = Some k' → k2 = k) →
         attributes f' !! k' = Some v)
    ∧ ((∃ e, res = Raise e ∧ r = Raise e ∧ post = [])
       ∨ (res = Ok tt ∧ ∃ rd post',
            post = EDeleteFeatures (src_feat_layer importer0)
                     (join ", " (py_str <$> ids)) rd :: post'
            ∧ Forall (λ ev, is_add ev = false) post'))).
Proof.
  assert (__comp_features "uid" "uid" (importer0, w0) = (Ok tt, (compared0.1.2.1, compared0.1.2.2), compared0.2)) as H1.
  { vm_compute. reflexivity. }
  assert (definition (src_feat_layer importer0) compared0.1.2.2 = (Ok def0, compared0.1.2.2)) as H2.
  { reflexivity. }
  assert (definition (tgt_feat_layer importer0) compared0.1.2.2 = (Ok def0, compared0.1.2.2)) as H3.
  { reflexivity. }
  assert (unmatched (src (comp_features compared0.1.2.1)) ≠ []) as H4.
  { vm_compute. discriminate. }
  assert (Forall (λ f, is_Some (attributes f !! objectIdField def0))
    (unmatched (src (comp_features compared0.1.2.1)))) as H5.
  { vm_compute. repeat constructor. by eexists. }
  split; [exact H1|].
  split; [exact H2|].
  split; [exact H3|].
  split; [exact H4|].
  split; [exact H5|].
  exact (import_features_insert_payload ("uid") ("uid") (importer0) (w0) (compared0.1.2.1) (compared0.1.2.2) (compared0.2) (def0) (def0) (compared0.1.2.2) (compared0.1.2.2) H1 H2 H3 H4 H5).
Defined.

Lemma comp_features_queries_witness :
  __comp_features "uid" "uid" (importer_fid, w_fid)
    = (compared_fid.1.1, compared_fid.1.2, compared_fid.2)
  ∧ (∀ l where_ outFields res,
       EQuery l where_ outFields res ∈ compared_fid.2 →
       where_ = "1=1"
       ∧ ((l = src_feat_layer importer_fid
           ∧ outFields
             = join ", " (sorted_items (effective_map importer_fid)).*1)
          ∨ (l = tgt_feat_layer importer_fid
             ∧ outFields
               = join ", " (sorted_items (effective_map importer_fid)).*2)))
  ∧ (compared_fid.1.1 = Ok tt →
     ∃ sd td S T,
       compared_fid.2
       = [EDefinition (src_feat_layer importer_fid) (Ok sd);
          EDefinition (tgt_feat_layer importer_fid) (Ok td);
          EQuery (src_feat_layer importer_fid) "1=1"
            (join ", " (sorted_items (effective_map importer_fid)).*1) (Ok S);
          EQuery (tgt_feat_layer importer_fid) "1=1"
            (join ", " (sorted_items (effective_map importer_fid)).*2) (Ok T)])
  ∧ Sorted String.le (sorted_items (effective_map importer_fid)).*1
  ∧ NoDup (sorted_items (effective_map importer_fid)).*1
  ∧ (∀ k, k ∈ (sorted_items (effective_map importer_fid)).*1
          ↔ k ∈ dom (effective_map importer_fid))
  ∧ (∀ i k, (sorted_items (effective_map importer_fid)).*1 !! i = Some k →
            (sorted_items (effective_map importer_fid)).*2 !! i
            = effective_map importer_fid !! k).
Proof.
  assert (__comp_features "uid" "uid" (importer_fid, w_fid)
          = (compared_fid.1.1, compared_fid.1.2, compared_fid.2)) as H
    by (vm_compute; reflexivity).
  split; [exact H|].
  exact (comp_features_queries "uid" "uid" importer_fid w_fid _ _ _ H).
Defined.

(** The comparison on a source layer whose internal-id field is [FID] asks
    the source for [name, uid]: the field list of the specification,
    [name, uid, FID], is not what is sent, and [FID] is not asked for. *)
Lemma comp_features_query_omits_oid_field :
  (__init__ Source Target PyNone w_fid).1.1 = Ok importer_fid
  ∧ oid_field (source w_fid) = "FID"
  ∧ omap query_args (__comp_features "uid" "uid" (importer_fid, w_fid)).2
    = [(Source, "1=1", "name, uid"); (Target, "1=1", "name, uid")]
  ∧ spec_src_out_fields importer_fid "FID" = "name, uid, FID"
  ∧ "name, uid" ≠ spec_src_out_fields importer_fid "FID"
  ∧ "FID" ∉ tokens "name, uid".
Proof.
  split_and!; try (vm_compute; reflexivity).
  - vm_compute. discriminate.
  - assert (tokens "name, uid" = ["name"; "uid"]) as ->
      by (vm_compute; reflexivity).
    rewrite !elem_of_cons, elem_of_nil. by intros [?|[?|?]].
Qed.

Lemma init_keeps_custom_mapper_witness :
  definition Source w0 = (Ok def0, w0)
  ∧ definition Target w0 = (Ok def0, w0)
  ∧ ∃ self,
      __init__ Source Target (PyAttributeMapper ghost_mapper) w0
      = (Ok self, w0,
         [EDefinition Source (Ok def0); EDefinition Target (Ok def0)])
      ∧ cust_attr_mapper self = ghost_mapper
      ∧ ∀ k v, attribute_map ghost_mapper !! k = Some v →
               effective_map self !! k = Some v.
Proof.
  assert (definition Source w0 = (Ok def0, w0)) as H1 by reflexivity.
  assert (definition Target w0 = (Ok def0, w0)) as H2 by reflexivity.
  split; [exact H1|]. split; [exact H2|].
  exact (init_keeps_custom_mapper Source Target ghost_mapper w0 def0 def0
           w0 w0 H1 H2).
Defined.

(** A custom mapper that names a field of neither layer is accepted: the
    constructor returns, and no exception of any kind is raised. *)
Lemma init_accepts_unknown_field :
  attribute_map ghost_mapper !! "ghost" = Some "phantom"
  ∧ ("ghost" ∉ field_names (source w0))
  ∧ ("phantom" ∉ field_names (target w0))
  ∧ __init__ Source Target (PyAttributeMapper ghost_mapper) w0
    = (Ok (MkFeatureImporter Source Target ghost_mapper
             (auto_mapper_of def0 def0) empty_comp), w0,
       [EDefinition Source (Ok def0); EDefinition Target (Ok def0)])
  ∧ ¬ raised (__init__ Source Target (PyAttributeMapper ghost_mapper) w0).1.1.
Proof.
  split_and!.
  - vm_compute. reflexivity.
  - simpl. rewrite !elem_of_cons, elem_of_nil. by intros [?|[?|[?|?]]].
  - simpl. rewrite !elem_of_cons, elem_of_nil. by intros [?|[?|[?|?]]].
  - vm_compute. reflexivity.
  - vm_compute. by intros [].
Qed.

Lemma init_substitutes_empty_mapper_witness :
  isinstance_AttributeMapper (PyDict {[ "name" := "label" ]}) = false
  ∧ __init__ Source Target (PyDict {[ "name" := "label" ]}) w0
    = __init__ Source Target (PyAttributeMapper AttributeMapper_new) w0
  ∧ ∀ sd td w1 w2,
      definition Source w0 = (Ok sd, w1) →
      definition Target w1 = (Ok td, w2) →
      ∃ self,
        __init__ Source Target (PyDict {[ "name" := "label" ]}) w0
        = (Ok self, w2, [EDefinition Source (Ok sd); EDefinition Target (Ok td)])
        ∧ cust_attr_mapper self = AttributeMapper_new.
Proof.
  split; [reflexivity|].
  exact (init_substitutes_empty_mapper Source Target
           (PyDict {[ "name" := "label" ]}) w0 eq_refl).
Defined.

(** *** Further theorems on the example data *)

Lemma import_features_fail_fast_witness :
  (import_features "uid" "uid" (importer0, (Frozen w0)) = (imported_frozen.1.1, imported_frozen.1.2, imported_frozen.2))
  ∧
  ((∀ pre ev post e,
     imported_frozen.2 = pre ++ ev :: post → event_exn ev = Some e →
     post = [] ∧ imported_frozen.1.1 = Raise e)
  ∧ (imported_frozen.1.1 = Ok tt → Forall (λ ev, event_exn ev = None) imported_frozen.2)).
Proof.
  assert (import_features "uid" "uid" (importer0, (Frozen w0)) = (imported_frozen.1.1, imported_frozen.1.2, imported_frozen.2)) as H1.
  { vm_compute. reflexivity. }
  split; [exact H1|].
  exact (import_features_fail_fast ("uid") ("uid") (importer0) (Frozen w0) (imported_frozen.1.1) (imported_frozen.1.2) (imported_frozen.2) H1).
Defined.

Lemma init_source_definition_raises_witness :
  (definition Source Offline = (Raise (RemoteError "unreachable"), Offline))
  ∧
  (__init__ Source Target PyNone Offline = (Raise (RemoteError "unreachable"), Offline, [EDefinition Source (Raise (RemoteError "unreachable"))])).
Proof.
  assert (definition Source Offline = (Raise (RemoteError "unreachable"), Offline)) as H1.
  { reflexivity. }
  split; [exact H1|].
  exact (init_source_definition_raises (Source) (Target) (PyNone) (Offline) (RemoteError "unreachable") (Offline) H1).
Defined.

Lemma comp_features_matched_iff_witness :
  (__comp_features "uid" "uid" (importer0, w0) = (Ok tt, (compared0.1.2.1, compared0.1.2.2), compared0.2))
  ∧
  (∃ sd td S T,
    compared0.2 = [EDefinition (src_feat_layer importer0) (Ok sd);
         EDefinition (tgt_feat_layer importer0) (Ok td);
         EQuery (src_feat_layer importer0) "1=1" (src_out_fields importer0) (Ok S);
         EQuery (tgt_feat_layer importer0) "1=1" (tgt_out_fields importer0) (Ok T)]
    ∧ (∀ f, f ∈ matched (src (comp_features compared0.1.2.1))
            ↔ f ∈ S ∧ ∃ g u, g ∈ T ∧ attributes f !! "uid" = Some u
                             ∧ attributes g !! "uid" = Some u)
    ∧ (∀ f, f ∈ unmatched (src (comp_features compared0.1.2.1))
            ↔ f ∈ S ∧ ¬ ∃ g u, g ∈ T ∧ attributes f !! "uid" = Some u
                               ∧ attributes g !! "uid" = Some u)
    ∧ (∀ g, g ∈ matched (tgt (comp_features compared0.1.2.1))
            ↔ g ∈ T ∧ ∃ f u, f ∈ S ∧ attributes g !! "uid" = Some u
                             ∧ attributes f !! "uid" = Some u)
    ∧ (∀ g, g ∈ unmatched (tgt (comp_features compared0.1.2.1))
            ↔ g ∈ T ∧ ¬ ∃ f u, f ∈ S ∧ attributes g !! "uid" = Some u
                               ∧ attributes f !! "uid" = Some u)
    ∧ (matched (src (comp_features compared0.1.2.1)) = []
       ↔ matched (tgt (comp_features compared0.1.2.1)) = [])).
Proof.
  assert (__comp_features "uid" "uid" (importer0, w0) = (Ok tt, (compared0.1.2.1, compared0.1.2.2), compared0.2)) as H1.
  { vm_compute. reflexivity. }
  split; [exact H1|].
  exact (comp_features_matched_iff ("uid") ("uid") (importer0) (w0) (compared0.1.2.1) (compared0.1.2.2) (compared0.2) H1).
Defined.

Lemma comp_features_index_keys_witness :
  (__comp_features "uid" "uid" (importer0, w_dup) = (Ok tt, (compared_dup.1.2.1, compared_dup.1.2.2), compared_dup.2))
  ∧
  (∃ sd td S T,
    compared_dup.2 = [EDefinition (src_feat_layer importer0) (Ok sd);
         EDefinition (tgt_feat_layer importer0) (Ok td);
         EQuery (src_feat_layer importer0) "1=1" (src_out_fields importer0) (Ok S);
         EQuery (tgt_feat_layer importer0) "1=1" (tgt_out_fields importer0) (Ok T)]
    ∧ (∀ u, u ∈ dom (index (src (comp_features compared_dup.1.2.1)))
            ↔ ∃ f, f ∈ S ∧ attributes f !! "uid" = Some u)
    ∧ (∀ u, u ∈ dom (index (tgt (comp_features compared_dup.1.2.1)))
            ↔ ∃ g, g ∈ T ∧ attributes g !! "uid" = Some u)
    ∧ size (index (src (comp_features compared_dup.1.2.1))) ≤ length S
    ∧ size (index (tgt (comp_features compared_dup.1.2.1))) ≤ length T
    ∧ (∀ u o, index (src (comp_features compared_dup.1.2.1)) !! u = Some o →
         ∃ f, f ∈ S ∧ attributes f !! "uid" = Some u
              ∧ attributes f !! objectIdField sd = Some o)
    ∧ (∀ u o, index (tgt (comp_features compared_dup.1.2.1)) !! u = Some o →
         ∃ g, g ∈ T ∧ attributes g !! "uid" = Some u
              ∧ attributes g !! objectIdField td = Some o)).
Proof.
  assert (__comp_features "uid" "uid" (importer0, w_dup) = (Ok tt, (compared_dup.1.2.1, compared_dup.1.2.2), compared_dup.2)) as H1.
  { vm_compute. reflexivity. }
  split; [exact H1|].
  exact (comp_features_index_keys ("uid") ("uid") (importer0) (w_dup) (compared_dup.1.2.1) (compared_dup.1.2.2) (compared_dup.2) H1).
Defined.

Lemma comp_features_keeps_order_witness :
  (__comp_features "uid" "uid" (importer0, w0) = (Ok tt, (compared0.1.2.1, compared0.1.2.2), compared0.2))
  ∧
  (∃ sd td S T,
    compared0.2 = [EDefinition (src_feat_layer importer0) (Ok sd);
         EDefinition (tgt_feat_layer importer0) (Ok td);
         EQuery (src_feat_layer importer0) "1=1" (src_out_fields importer0) (Ok S);
         EQuery (tgt_feat_layer importer0) "1=1" (tgt_out_fields importer0) (Ok T)]
    ∧ matched (src (comp_features compared0.1.2.1)) `sublist_of` S
    ∧ unmatched (src (comp_features compared0.1.2.1)) `sublist_of` S
    ∧ matched (tgt (comp_features compared0.1.2.1)) `sublist_of` T
    ∧ unmatched (tgt (comp_features compared0.1.2.1)) `sublist_of` T).
Proof.
  assert (__comp_features "uid" "uid" (importer0, w0) = (Ok tt, (compared0.1.2.1, compared0.1.2.2), compared0.2)) as H1.
  { vm_compute. reflexivity. }
  split; [exact H1|].
  exact (comp_features_keeps_order ("uid") ("uid") (importer0) (w0) (compared0.1.2.1) (compared0.1.2.2) (compared0.2) H1).
Defined.

Lemma comp_features_source_key_error_witness :
  (definition (src_feat_layer importer0) w_nouid = (Ok def0, w_nouid))
  ∧
  (definition (tgt_feat_layer importer0) w_nouid = (Ok def0, w_nouid))
  ∧
  (query_features_batch (src_feat_layer importer0) "1=1" (src_out_fields importer0) w_nouid
    = (Ok [fetched_nouid 1 "A"], w_nouid))
  ∧
  (query_features_batch (tgt_feat_layer importer0) "1=1" (tgt_out_fields importer0) w_nouid
    = (Ok [fetched 7 2 "B"], w_nouid))
  ∧
  (Exists (λ f, attributes f !! "uid" = None
               ∨ attributes f !! objectIdField def0 = None) [fetched_nouid 1 "A"])
  ∧
  (∃ k, (k = "uid" ∨ k = objectIdField def0)
    ∧ __comp_features "uid" "uid" (importer0, w_nouid)
      = (Raise (KeyError k), (set_comp_features empty_comp importer0, w_nouid),
         [EDefinition (src_feat_layer importer0) (Ok def0);
          EDefinition (tgt_feat_layer importer0) (Ok def0);
          EQuery (src_feat_layer importer0) "1=1" (src_out_fields importer0) (Ok [fetched_nouid 1 "A"]);
          EQuery (tgt_feat_layer importer0) "1=1" (tgt_out_fields importer0) (Ok [fetched 7 2 "B"])])).
Proof.
  assert (definition (src_feat_layer importer0) w_nouid = (Ok def0, w_nouid)) as H1.
  { reflexivity. }
  assert (definition (tgt_feat_layer importer0) w_nouid = (Ok def0, w_nouid)) as H2.
  { reflexivity. }
  assert (query_features_batch (src_feat_layer importer0) "1=1" (src_out_fields importer0) w_nouid
    = (Ok [fetched_nouid 1 "A"], w_nouid)) as H3.
  { vm_compute. reflexivity. }
  assert (query_features_batch (tgt_feat_layer importer0) "1=1" (tgt_out_fields importer0) w_nouid
    = (Ok [fetched 7 2 "B"], w_nouid)) as H4.
  { vm_compute. reflexivity. }
  assert (Exists (λ f, attributes f !! "uid" = None
               ∨ attributes f !! objectIdField def0 = None) [fetched_nouid 1 "A"]) as H5.
  { apply Exists_cons_hd. left. vm_compute. reflexivity. }
  split; [exact H1|].
  split; [exact H2|].
  split; [exact H3|].
  split; [exact H4|].
  split; [exact H5|].
  exact (comp_features_source_key_error ("uid") ("uid") (importer0) (w_nouid) (def0) (def0) ([fetched_nouid 1 "A"]) ([fetched 7 2 "B"]) (w_nouid) (w_nouid) (w_nouid) (w_nouid) H1 H2 H3 H4 H5).
Defined.

Lemma comp_features_target_key_error_witness :
  (definition (src_feat_layer importer0) w_tnouid = (Ok def0, w_tnouid))
  ∧
  (definition (tgt_feat_layer importer0) w_tnouid = (Ok def0, w_tnouid))
  ∧
  (query_features_batch (src_feat_layer importer0) "1=1" (src_out_fields importer0) w_tnouid
    = (Ok [fetched 1 1 "A"; fetched 2 2 "B"], w_tnouid))
  ∧
  (query_features_batch (tgt_feat_layer importer0) "1=1" (tgt_out_fields importer0) w_tnouid
    = (Ok [fetched_nouid 7 "B"], w_tnouid))
  ∧
  (Forall (λ f, is_Some (attributes f !! "uid")
               ∧ is_Some (attributes f !! objectIdField def0)) [fetched 1 1 "A"; fetched 2 2 "B"])
  ∧
  (Exists (λ g, attributes g !! "uid" = None
               ∨ attributes g !! objectIdField def0 = None) [fetched_nouid 7 "B"])
  ∧
  (∃ k si, (k = "uid" ∨ k = objectIdField def0)
    ∧ build_index "uid" (objectIdField def0) [fetched 1 1 "A"; fetched 2 2 "B"] ∅ = Ok si
    ∧ __comp_features "uid" "uid" (importer0, w_tnouid)
      = (Raise (KeyError k),
         (set_comp_features (Comp (SideComp si [] []) (SideComp ∅ [] [])) importer0,
          w_tnouid),
         [EDefinition (src_feat_layer importer0) (Ok def0);
          EDefinition (tgt_feat_layer importer0) (Ok def0);
          EQuery (src_feat_layer importer0) "1=1" (src_out_fields importer0) (Ok [fetched 1 1 "A"; fetched 2 2 "B"]);
          EQuery (tgt_feat_layer importer0) "1=1" (tgt_out_fields importer0) (Ok [fetched_nouid 7 "B"])])).
Proof.
  assert (definition (src_feat_layer importer0) w_tnouid = (Ok def0, w_tnouid)) as H1.
  { reflexivity. }
  assert (definition (tgt_feat_layer importer0) w_tnouid = (Ok def0, w_tnouid)) as H2.
  { reflexivity. }
  assert (query_features_batch (src_feat_layer importer0) "1=1" (src_out_fields importer0) w_tnouid
    = (Ok [fetched 1 1 "A"; fetched 2 2 "B"], w_tnouid)) as H3.
  { vm_compute. reflexivity. }
  assert (query_features_batch (tgt_feat_layer importer0) "1=1" (tgt_out_fields importer0) w_tnouid
    = (Ok [fetched_nouid 7 "B"], w_tnouid)) as H4.
  { vm_compute. reflexivity. }
  assert (Forall (λ f, is_Some (attributes f !! "uid")
               ∧ is_Some (attributes f !! objectIdField def0)) [fetched 1 1 "A"; fetched 2 2 "B"]) as H5.
  { repeat constructor; vm_compute; by eexists. }
  assert (Exists (λ g, attributes g !! "uid" = None
               ∨ attributes g !! objectIdField def0 = None) [fetched_nouid 7 "B"]) as H6.
  { apply Exists_cons_hd. left. vm_compute. reflexivity. }
  split; [exact H1|].
  split; [exact H2|].
  split; [exact H3|].
  split; [exact H4|].
  split; [exact H5|].
  split; [exact H6|].
  exact (comp_features_target_key_error ("uid") ("uid") (importer0) (w_tnouid) (def0) (def0) ([fetched 1 1 "A"; fetched 2 2 "B"]) ([fetched_nouid 7 "B"]) (w_tnouid) (w_tnouid) (w_tnouid) (w_tnouid) H1 H2 H3 H4 H5 H6).
Defined.

Lemma comp_features_total_witness :
  (definition (src_feat_layer importer0) w0 = (Ok def0, w0))
  ∧
  (definition (tgt_feat_layer importer0) w0 = (Ok def0, w0))
  ∧
  (query_features_batch (src_feat_layer importer0) "1=1" (src_out_fields importer0) w0
    = (Ok [fetched 1 1 "A"; fetched 2 2 "B"], w0))
  ∧
  (query_features_batch (tgt_feat_layer importer0) "1=1" (tgt_out_fields importer0) w0
    = (Ok [fetched 7 2 "B"], w0))
  ∧
  (Forall (λ f, is_Some (attributes f !! "uid")
               ∧ is_Some (attributes f !! objectIdField def0)) [fetched 1 1 "A"; fetched 2 2 "B"])
  ∧
  (Forall (λ f, is_Some (attributes f !! "uid")
               ∧ is_Some (attributes f !! objectIdField def0)) [fetched 7 2 "B"])
  ∧
  (∃ c, compare_records "uid" "uid" (objectIdField def0) (objectIdField def0) [fetched 1 1 "A"; fetched 2 2 "B"] [fetched 7 2 "B"] = Ok c
    ∧ __comp_features "uid" "uid" (importer0, w0)
      = (Ok tt, (set_comp_features c importer0, w0),
         [EDefinition (src_feat_layer importer0) (Ok def0);
          EDefinition (tgt_feat_layer importer0) (Ok def0);
          EQuery (src_feat_layer importer0) "1=1" (src_out_fields importer0) (Ok [fetched 1 1 "A"; fetched 2 2 "B"]);
          EQuery (tgt_feat_layer importer0) "1=1" (tgt_out_fields importer0) (Ok [fetched 7 2 "B"])])).
Proof.
  assert (definition (src_feat_layer importer0) w0 = (Ok def0, w0)) as H1.
  { reflexivity. }
  assert (definition (tgt_feat_layer importer0) w0 = (Ok def0, w0)) as H2.
  { reflexivity. }
  assert (query_features_batch (src_feat_layer importer0) "1=1" (src_out_fields importer0) w0
    = (Ok [fetched 1 1 "A"; fetched 2 2 "B"], w0)) as H3.
  { vm_compute. reflexivity. }
  assert (query_features_batch (tgt_feat_layer importer0) "1=1" (tgt_out_fields importer0) w0
    = (Ok [fetched 7 2 "B"], w0)) as H4.
  { vm_compute. reflexivity. }
  assert (Forall (λ f, is_Some (attributes f !! "uid")
               ∧ is_Some (attributes f !! objectIdField def0)) [fetched 1 1 "A"; fetched 2 2 "B"]) as H5.
  { repeat constructor; vm_compute; by eexists. }
  assert (Forall (λ f, is_Some (attributes f !! "uid")
               ∧ is_Some (attributes f !! objectIdField def0)) [fetched 7 2 "B"]) as H6.
  { repeat constructor; vm_compute; by eexists. }
  split; [exact H1|].
  split; [exact H2|].
  split; [exact H3|].
  split; [exact H4|].
  split; [exact H5|].
  split; [exact H6|].
  exact (comp_features_total ("uid") ("uid") (importer0) (w0) (def0) (def0) ([fetched 1 1 "A"; fetched 2 2 "B"]) ([fetched 7 2 "B"]) (w0) (w0) (w0) (w0) H1 H2 H3 H4 H5 H6).
Defined.

Lemma import_features_frame_witness :
  (import_features "uid" "uid" (importer0, w0) = (imported0.1.1, (imported0.1.2.1, imported0.1.2.2), imported0.2))
  ∧
  (src_feat_layer imported0.1.2.1 = src_feat_layer importer0
  ∧ tgt_feat_layer imported0.1.2.1 = tgt_feat_layer importer0
  ∧ cust_attr_mapper imported0.1.2.1 = cust_attr_mapper importer0
  ∧ auto_attr_mapper imported0.1.2.1 = auto_attr_mapper importer0
  ∧ effective_map imported0.1.2.1 = effective_map importer0).
Proof.
  assert (import_features "uid" "uid" (importer0, w0) = (imported0.1.1, (imported0.1.2.1, imported0.1.2.2), imported0.2)) as H1.
  { vm_compute. reflexivity. }
  split; [exact H1|].
  exact (import_features_frame ("uid") ("uid") (importer0) (w0) (imported0.1.1) (imported0.1.2.1) (imported0.1.2.2) (imported0.2) H1).
Defined.

Lemma import_features_writes_after_reads_witness :
  (import_features "uid" "uid" (importer0, w0) = (imported0.1.1, (imported0.1.2.1, imported0.1.2.2), imported0.2))
  ∧
  (Exists (λ ev, is_write ev = true) imported0.2)
  ∧
  (∃ sd0 td0 S T sd td rest,
    imported0.2 = [EDefinition (src_feat_layer importer0) (Ok sd0);
         EDefinition (tgt_feat_layer importer0) (Ok td0);
         EQuery (src_feat_layer importer0) "1=1" (src_out_fields importer0) (Ok S);
         EQuery (tgt_feat_layer importer0) "1=1" (tgt_out_fields importer0) (Ok T);
         EDefinition (src_feat_layer importer0) (Ok sd);
         EDefinition (tgt_feat_layer importer0) (Ok td)] ++ rest
    ∧ rest ≠ []
    ∧ Forall (λ ev, is_write ev = true) rest).
Proof.
  assert (import_features "uid" "uid" (importer0, w0) = (imported0.1.1, (imported0.1.2.1, imported0.1.2.2), imported0.2)) as H1.
  { vm_compute. reflexivity. }
  assert (Exists (λ ev, is_write ev = true) imported0.2) as H2.
  { apply Exists_exists. exists (EAddFeatures Target [Feature (record 1 "A")] (Ok tt)). split; [|reflexivity]. apply (list_elem_of_lookup_2 _ 6). vm_compute. reflexivity. }
  split; [exact H1|].
  split; [exact H2|].
  exact (import_features_writes_after_reads ("uid") ("uid") (importer0) (w0) (imported0.1.1) (imported0.1.2.1) (imported0.1.2.2) (imported0.2) H1 H2).
Defined.

Lemma import_features_call_targets_witness :
  (import_features "uid" "uid" (importer0, w0) = (imported0.1.1, (imported0.1.2.1, imported0.1.2.2), imported0.2))
  ∧
  (Forall (write_target (src_feat_layer importer0) (tgt_feat_layer importer0)) imported0.2
  ∧ length (filter (λ ev, is_add ev = true) imported0.2) ≤ 1
  ∧ length (filter (λ ev, is_delete ev = true) imported0.2) ≤ 2).
Proof.
  assert (import_features "uid" "uid" (importer0, w0) = (imported0.1.1, (imported0.1.2.1, imported0.1.2.2), imported0.2)) as H1.
  { vm_compute. reflexivity. }
  split; [exact H1|].
  exact (import_features_call_targets ("uid") ("uid") (importer0) (w0) (imported0.1.1) (imported0.1.2.1) (imported0.1.2.2) (imported0.2) H1).
Defined.

Lemma import_features_deletes_fetched_witness :
  (import_features "uid" "uid" (importer0, w0) = (Ok tt, (imported0.1.2.1, imported0.1.2.2), imported0.2))
  ∧
  (∃ sd0 td0 S T sd td rest,
    imported0.2 = [EDefinition (src_feat_layer importer0) (Ok sd0);
         EDefinition (tgt_feat_layer importer0) (Ok td0);
         EQuery (src_feat_layer importer0) "1=1" (src_out_fields importer0) (Ok S);
         EQuery (tgt_feat_layer importer0) "1=1" (tgt_out_fields importer0) (Ok T);
         EDefinition (src_feat_layer importer0) (Ok sd);
         EDefinition (tgt_feat_layer importer0) (Ok td)] ++ rest
    ∧ Forall (λ f, is_Some (attributes f !! objectIdField sd)) S
    ∧ (oid_of (objectIdField sd) <$> unmatched (src (comp_features imported0.1.2.1)))
      ++ (oid_of (objectIdField sd) <$> matched (src (comp_features imported0.1.2.1)))
      ≡ₚ oid_of (objectIdField sd) <$> S
    ∧ omap delete_args rest
      = (λ fs, join ", " (py_str <$> (oid_of (objectIdField sd) <$> fs)))
        <$> filter (λ fs, fs ≠ [])
              [unmatched (src (comp_features imported0.1.2.1));
               matched (src (comp_features imported0.1.2.1))]).
Proof.
  assert (import_features "uid" "uid" (importer0, w0) = (Ok tt, (imported0.1.2.1, imported0.1.2.2), imported0.2)) as H1.
  { vm_compute. reflexivity. }
  split; [exact H1|].
  exact (import_features_deletes_fetched ("uid") ("uid") (importer0) (w0) (imported0.1.2.1) (imported0.1.2.2) (imported0.2) H1).
Defined.

Lemma import_features_empty_source_witness :
  (import_features "uid" "uid" (importer0, w_empty) = (imported_empty.1.1, (imported_empty.1.2.1, imported_empty.1.2.2), imported_empty.2))
  ∧
  (imported_empty.2 !! 2 = Some (EQuery (src_feat_layer importer0) "1=1" (src_out_fields importer0)
                   (Ok [])))
  ∧
  (Forall is_read imported_empty.2
  ∧ (imported_empty.1.1 = Ok tt →
     matched (src (comp_features imported_empty.1.2.1)) = []
     ∧ unmatched (src (comp_features imported_empty.1.2.1)) = []
     ∧ matched (tgt (comp_features imported_empty.1.2.1)) = [])).
Proof.
  assert (import_features "uid" "uid" (importer0, w_empty) = (imported_empty.1.1, (imported_empty.1.2.1, imported_empty.1.2.2), imported_empty.2)) as H1.
  { vm_compute. reflexivity. }
  assert (imported_empty.2 !! 2 = Some (EQuery (src_feat_layer importer0) "1=1" (src_out_fields importer0)
                   (Ok []))) as H2.
  { vm_compute. reflexivity. }
  split; [exact H1|].
  split; [exact H2|].
  exact (import_features_empty_source ("uid") ("uid") (importer0) (w_empty) (imported_empty.1.1) (imported_empty.1.2.1) (imported_empty.1.2.2) (imported_empty.2) H1 H2).
Defined.

Lemma init_effective_map_witness :
  (definition Source w0 = (Ok def0, w0))
  ∧
  (definition Target w0 = (Ok def0, w0))
  ∧
  (∃ self,
    __init__ Source Target (PyAttributeMapper ghost_mapper) w0
    = (Ok self, w0, [EDefinition Source (Ok def0); EDefinition Target (Ok def0)])
    ∧ ∀ k, effective_map self !! k
           = match attribute_map (custom_mapper_of (PyAttributeMapper ghost_mapper)) !! k with
             | Some v => Some v
             | None =>
                 if decide (k ∈ name <$> fields def0 ∧ k ∈ name <$> fields def0)
                 then Some k else None
             end).
Proof.
  assert (definition Source w0 = (Ok def0, w0)) as H1.
  { reflexivity. }
  assert (definition Target w0 = (Ok def0, w0)) as H2.
  { reflexivity. }
  split; [exact H1|].
  split; [exact H2|].
  exact (init_effective_map (Source) (Target) (PyAttributeMapper ghost_mapper) (w0) (def0) (def0) (w0) (w0) H1 H2).
Defined.

Lemma init_no_common_field_witness :
  (definition Source w_disjoint = (Ok (LayerDefinition (FieldInfo <$> ["FID"; "code"]) "FID"), w_disjoint))
  ∧
  (definition Target w_disjoint = (Ok (LayerDefinition (FieldInfo <$> ["OBJECTID"; "label"]) "OBJECTID"), w_disjoint))
  ∧
  (isinstance_AttributeMapper PyNone = false)
  ∧
  ((∀ k, k ∈ name <$> fields (LayerDefinition (FieldInfo <$> ["FID"; "code"]) "FID") → k ∉ name <$> fields (LayerDefinition (FieldInfo <$> ["OBJECTID"; "label"]) "OBJECTID")))
  ∧
  (∃ self,
    __init__ Source Target PyNone w_disjoint
    = (Ok self, w_disjoint, [EDefinition Source (Ok (LayerDefinition (FieldInfo <$> ["FID"; "code"]) "FID")); EDefinition Target (Ok (LayerDefinition (FieldInfo <$> ["OBJECTID"; "label"]) "OBJECTID"))])
    ∧ effective_map self = ∅
    ∧ src_out_fields self = ""
    ∧ tgt_out_fields self = "").
Proof.
  assert (definition Source w_disjoint = (Ok (LayerDefinition (FieldInfo <$> ["FID"; "code"]) "FID"), w_disjoint)) as H1.
  { reflexivity. }
  assert (definition Target w_disjoint = (Ok (LayerDefinition (FieldInfo <$> ["OBJECTID"; "label"]) "OBJECTID"), w_disjoint)) as H2.
  { reflexivity. }
  assert (isinstance_AttributeMapper PyNone = false) as H3.
  { reflexivity. }
  assert ((∀ k, k ∈ name <$> fields (LayerDefinition (FieldInfo <$> ["FID"; "code"]) "FID") → k ∉ name <$> fields (LayerDefinition (FieldInfo <$> ["OBJECTID"; "label"]) "OBJECTID"))) as H4.
  { intros k. simpl. rewrite !elem_of_cons, !elem_of_nil. intros [->|[->|[]]] [?|[?|[]]]; discriminate. }
  split; [exact H1|].
  split; [exact H2|].
  split; [exact H3|].
  split; [exact H4|].
  exact (init_no_common_field (Source) (Target) (PyNone) (w_disjoint) (LayerDefinition (FieldInfo <$> ["FID"; "code"]) "FID") (LayerDefinition (FieldInfo <$> ["OBJECTID"; "label"]) "OBJECTID") (w_disjoint) (w_disjoint) H1 H2 H3 H4).
Defined.

Lemma out_fields_inj_witness :
  (Forall clean ["name"; "uid"])
  ∧
  (Forall clean ["name"; "uid"])
  ∧
  (join ", " ["name"; "uid"] = join ", " ["name"; "uid"])
  ∧
  (["name"; "uid"] = ["name"; "uid"]).
Proof.
  assert (Forall clean ["name"; "uid"]) as H1.
  { repeat constructor; (done || by vm_compute). }
  assert (Forall clean ["name"; "uid"]) as H2.
  { repeat constructor; (done || by vm_compute). }
  assert (join ", " ["name"; "uid"] = join ", " ["name"; "uid"]) as H3.
  { reflexivity. }
  split; [exact H1|].
  split; [exact H2|].
  split; [exact H3|].
  exact (out_fields_inj (["name"; "uid"]) (["name"; "uid"]) H1 H2 H3).
Defined.

Lemma object_ids_inj_witness :
  (join ", " (py_str <$> (VInt <$> [1; 2]%Z)) = join ", " (py_str <$> (VInt <$> [1; 2]%Z)))
  ∧
  ([1; 2]%Z = [1; 2]%Z).
Proof.
  assert (join ", " (py_str <$> (VInt <$> [1; 2]%Z)) = join ", " (py_str <$> (VInt <$> [1; 2]%Z))) as H1.
  { reflexivity. }
  split; [exact H1|].
  exact (object_ids_inj ([1; 2]%Z) ([1; 2]%Z) H1).
Defined.

Lemma service_import_target_rows_witness :
  (src_feat_layer importer0 = Source)
  ∧
  (tgt_feat_layer importer0 = Target)
  ∧
  (import_features "uid" "uid" (importer0, w0)
   = (Ok tt, (imported0.1.2.1, imported0.1.2.2), imported0.2))
  ∧
  (∃ new,
    rows (target imported0.1.2.2) = rows (target w0) ++ new
    ∧ new.*2
      = (λ f, delete (oid_field (target w0)) (attributes f))
        <$> remove_attributes [oid_field (source w0)]
              (replace_attributes (effective_map importer0)
                 (unmatched (src (comp_features imported0.1.2.1))))
    ∧ NoDup new.*1
    ∧ (∀ i, i ∈ new.*1 → i ∉ (rows (target w0)).*1)
    ∧ (NoDup (rows (target w0)).*1 → NoDup (rows (target imported0.1.2.2)).*1)
    ∧ oid_field (target imported0.1.2.2) = oid_field (target w0)
    ∧ field_names (target imported0.1.2.2) = field_names (target w0)).
Proof.
  assert (src_feat_layer importer0 = Source) as H1.
  { reflexivity. }
  assert (tgt_feat_layer importer0 = Target) as H2.
  { reflexivity. }
  assert (import_features "uid" "uid" (importer0, w0)
          = (Ok tt, (imported0.1.2.1, imported0.1.2.2), imported0.2)) as H3.
  { vm_compute. reflexivity. }
  split; [exact H1|].
  split; [exact H2|].
  split; [exact H3|].
  exact (service_import_target_rows "uid" "uid" importer0 w0
           imported0.1.2.1 imported0.1.2.2 imported0.2 H1 H2 H3).
Defined.
